(** * Windowed layout transforms of caffe2/utils/math_cpu.cc

    A shallow embedding of [is_a_ge_zero_and_a_lt_b], [Im2col] and [Col2im]
    (both storage orders) of [caffe2::math], with the properties the
    specification states about them, and of the other functions of the
    file that are written out there: [CopyMatrix], [Select], the
    comparisons and logical operations, [randomNumberSeed], and the Eigen
    build of [Scale], [Axpy], [Axpby], [Gemm] and [Gemv].

    Conventions of the embedding.
    - A C++ [int] is a [Z].  Signed arithmetic is taken without overflow
      (overflow is undefined in C++); [/] and [%] are the truncating
      [Z.quot] and [Z.rem].  Where the source relies on the representation,
      in the cast to [unsigned] and in the arithmetic of [uint32_t], the
      reduction modulo 2^32 is written out.
    - A [float*] is a buffer (a list of elements) together with an offset.
      Every access is checked: reading or writing outside the buffer has no
      defined result in C++ and yields [None] here, so that a result
      [Some _] also says that every index stayed in bounds.
    - The element type is abstract: the transforms only copy elements, write
      the constant zero and add two elements.  No law of the addition is
      assumed, which covers floating-point addition.
    - An Eigen expression is taken coefficient by coefficient, a view
      ([EigenMatrixMap]) being column-major.  Where a result depends on the
      laws of arithmetic (a sum that is reordered, a product that is
      commuted) it is stated for integer elements, that is, in exact
      arithmetic.

    Overview of the results.
    - Every path of the four transforms returns the buffer the
      specification describes entry by entry: [Im2col_baseline_spec],
      [Im2col_equal_pad_spec], [Im2col_zero_pad_spec], [Im2col_NHWC_spec],
      and the same for [Col2im].  The three channel-major paths add in the
      same order, so that they agree whatever the addition is.
    - The zero-padding fast paths test no bounds.  They agree with the
      other paths, and stay inside the buffers, when the kernel is not
      larger than the input; the computed output size alone does not
      ensure that, because the division of C++ truncates: see
      [narrow_window] and [short_window].
    - Beyond the specification: the two layouts compute the same
      transforms; in exact arithmetic the inverse transform is the adjoint
      of the forward transform, and the inverse of the forward transform
      multiplies each sample by the number of windows over it.
    - [Gemm] and [Gemv], written on column-major views, compute the
      row-major operation their comment states. *)

From Stdlib Require Import ZArith Lia.
From stdpp Require Import base option list list_numbers.

Local Open Scope Z_scope.

(** ** Machine integers *)

(** The values of a 32-bit [int]. *)
Definition is_int (z : Z) : Prop := - 2 ^ 31 <= z < 2 ^ 31.

(** [static_cast<unsigned>(a)]: conversion modulo 2^32. *)
Definition to_unsigned (a : Z) : Z := a mod 2 ^ 32.

(** [is_a_ge_zero_and_a_lt_b]: one unsigned comparison. *)
Definition is_a_ge_zero_and_a_lt_b (a b : Z) : bool :=
  to_unsigned a <? to_unsigned b.

(** ** Window descriptor *)

(** The integer parameters shared by the four transforms, under the names
    they have in the source. *)
Record window : Type := Window {
  channels : Z;
  height : Z;
  width : Z;
  kernel_h : Z;
  kernel_w : Z;
  dilation_h : Z;
  dilation_w : Z;
  pad_t : Z;
  pad_l : Z;
  pad_b : Z;
  pad_r : Z;
  stride_h : Z;
  stride_w : Z
}.

(** ** Output size *)

(** [dilation * (kernel - 1) + 1], the extent of the dilated kernel. *)
Definition dkernel (dilation kernel : Z) : Z := dilation * (kernel - 1) + 1.

(** The expression each transform evaluates per axis,
    [(size + pad + pad' - (dilation * (kernel - 1) + 1)) / stride + 1],
    with the truncating division of C++. *)
Definition output_size (input_size pad_low pad_high kernel dilation stride : Z)
  : Z :=
  (input_size + pad_low + pad_high - dkernel dilation kernel) `quot` stride + 1.

(** As the specification words it, with a floor. *)
Definition spec_output_size
    (input_size pad_low pad_high kernel dilation stride : Z) : Z :=
  (input_size + pad_low + pad_high - dkernel dilation kernel) `div` stride + 1.

(** [output_h], [output_w] of the channel-major transforms. *)
Definition output_h (d : window) : Z :=
  (height d + pad_b d + pad_t d - (dilation_h d * (kernel_h d - 1) + 1))
    `quot` stride_h d + 1.

Definition output_w (d : window) : Z :=
  (width d + pad_l d + pad_r d - (dilation_w d * (kernel_w d - 1) + 1))
    `quot` stride_w d + 1.

(** [dkernel_h], [dkernel_w], [height_col], [width_col] of the baseline
    path and of the channel-minor transforms. *)
Definition dkernel_h (d : window) : Z := dilation_h d * (kernel_h d - 1) + 1.
Definition dkernel_w (d : window) : Z := dilation_w d * (kernel_w d - 1) + 1.

Definition height_col (d : window) : Z :=
  (height d + pad_t d + pad_b d - dkernel_h d) `quot` stride_h d + 1.

Definition width_col (d : window) : Z :=
  (width d + pad_l d + pad_r d - dkernel_w d) `quot` stride_w d + 1.

(** ** Descriptor predicates *)

(** The invariants the specification lists for a window descriptor, the
    output size being the one the code computes. *)
Definition valid_window (d : window) : Prop :=
  0 <= channels d /\ 0 <= height d /\ 0 <= width d /\
  0 <= pad_t d /\ 0 <= pad_l d /\ 0 <= pad_b d /\ 0 <= pad_r d /\
  1 <= kernel_h d /\ 1 <= kernel_w d /\
  1 <= stride_h d /\ 1 <= stride_w d /\
  1 <= dilation_h d /\ 1 <= dilation_w d /\
  1 <= output_h d /\ 1 <= output_w d.

(** The dilated kernel is not larger than the padded input. *)
Definition window_fits (d : window) : Prop :=
  dkernel_h d <= height d + pad_t d + pad_b d /\
  dkernel_w d <= width d + pad_l d + pad_r d.

(** The descriptor and the padded extents are values of type [int]. *)
Definition int_window (d : window) : Prop :=
  is_int (height d + pad_t d + pad_b d) /\
  is_int (width d + pad_l d + pad_r d) /\
  is_int (dkernel_h d) /\ is_int (dkernel_w d).

(** The dispatch tests of the channel-major transforms. *)
Definition zero_pad_no_dilation (d : window) : bool :=
  (dilation_h d =? 1) && (dilation_w d =? 1) && (pad_l d =? 0) &&
  (pad_r d =? 0) && (pad_t d =? 0) && (pad_b d =? 0).

Definition equal_padding (d : window) : bool :=
  (pad_l d =? pad_r d) && (pad_t d =? pad_b d).

(** ** Loops *)

(** [n] iterations of [body], the counter starting at [i] and going up by
    one; an iteration without a result ends the loop without one. *)
Fixpoint iterate {St : Type} (n : nat) (i : Z) (body : Z -> St -> option St)
    (s : St) : option St :=
  match n with
  | O => Some s
  | S n' => s' ← body i s; iterate n' (i + 1) body s'
  end.

(** [for (i = 0; i < n; i++) body]. *)
Definition for_upto {St : Type} (n : Z) (body : Z -> St -> option St)
    (s : St) : option St :=
  iterate (Z.to_nat n) 0 body s.

(** [for (c = n; c; c--) body] and [for (c = n; c--; ) body]: [n] iterations
    when [0 <= n]; from a negative [n] the counter never reaches zero
    within the integers, and there is no result. *)
Definition for_countdown {St : Type} (n : Z) (body : St -> option St)
    (s : St) : option St :=
  if n <? 0 then None else iterate (Z.to_nat n) 0 (fun _ => body) s.

(** [for (i = lo; i < hi; i += step) body], with fuel for the number of
    iterations; a loop that is still running when the fuel is used up has
    no result. *)
Fixpoint for_step_fuel {St : Type} (fuel : nat) (i hi step : Z)
    (body : Z -> St -> option St) (s : St) : option St :=
  if i <? hi then
    match fuel with
    | O => None
    | S fuel' =>
        s' ← body i s; for_step_fuel fuel' (i + step) hi step body s'
    end
  else Some s.

Definition for_step {St : Type} (lo hi step : Z)
    (body : Z -> St -> option St) (s : St) : option St :=
  for_step_fuel (Z.to_nat (hi - lo)) lo hi step body s.

(** ** Buffers and the transforms *)

Section Transforms.
Context {T : Type}.
Variable zero : T.
Variable add : T -> T -> T.

(** [buf[i]] read. *)
Definition load (buf : list T) (i : Z) : option T :=
  if 0 <=? i then buf !! Z.to_nat i else None.

(** [buf[i] = v]. *)
Definition store (buf : list T) (i : Z) (v : T) : option (list T) :=
  if (0 <=? i) && (i <? Z.of_nat (length buf))
  then Some (<[Z.to_nat i := v]> buf)
  else None.

(** The block [buf[off .. off + n)] lies inside [buf]. *)
Definition in_block (buf : list T) (off n : Z) : bool :=
  (0 <=? n) && (0 <=? off) && (off + n <=? Z.of_nat (length buf)).

(** [memcpy(dst + doff, src + soff, sizeof(float) * n)]. *)
Definition memcpy (dst : list T) (doff : Z) (src : list T) (soff n : Z)
  : option (list T) :=
  if in_block dst doff n && in_block src soff n
  then Some (take (Z.to_nat doff) dst
             ++ take (Z.to_nat n) (drop (Z.to_nat soff) src)
             ++ drop (Z.to_nat (doff + n)) dst)
  else None.

(** [memset(dst + doff, 0, sizeof(float) * n)]: all bits zero is the
    element zero. *)
Definition memset0 (dst : list T) (doff n : Z) : option (list T) :=
  if in_block dst doff n
  then Some (take (Z.to_nat doff) dst
             ++ replicate (Z.to_nat n) zero
             ++ drop (Z.to_nat (doff + n)) dst)
  else None.

(** [Set<float, CPUContext>(N, alpha, Y + yoff)]: the first [N] elements
    become [alpha]. *)
Definition Set_ (N : Z) (alpha : T) (Y : list T) (yoff : Z)
  : option (list T) :=
  if in_block Y yoff N
  then Some (take (Z.to_nat yoff) Y
             ++ replicate (Z.to_nat N) alpha
             ++ drop (Z.to_nat (yoff + N)) Y)
  else None.

(** [Add<float, CPUContext>(N, a + aoff, b + boff, y + yoff)]:
    [y[i] = a[i] + b[i]] for [i < N], element by element.  The caller
    passes the same block as [a] and as [y]. *)
Definition Add (N : Z) (a : list T) (aoff : Z) (b : list T) (boff : Z)
    (y : list T) (yoff : Z) : option (list T) :=
  if in_block a aoff N && in_block b boff N && in_block y yoff N
  then Some (take (Z.to_nat yoff) y
             ++ zip_with add (take (Z.to_nat N) (drop (Z.to_nat aoff) a))
                             (take (Z.to_nat N) (drop (Z.to_nat boff) b))
             ++ drop (Z.to_nat (yoff + N)) y)
  else None.

(** *** Im2col, channel-major *)

(** Fast path for zero padding and no dilation. *)
Definition Im2col_zero_pad (d : window) (data_im data_col : list T)
  : option (list T) :=
  for_upto (channels d * kernel_h d * kernel_w d) (fun k data_col =>
    let nip := k `quot` (kernel_h d * kernel_w d) in
    let rest := k `rem` (kernel_h d * kernel_w d) in
    let kh := rest `quot` kernel_w d in
    let kw := rest `rem` kernel_w d in
    let dst := nip * (kernel_h d * kernel_w d * output_h d * output_w d)
               + kh * (kernel_w d * output_h d * output_w d)
               + kw * (output_h d * output_w d) in
    let src := nip * (height d * width d) in
    for_upto (output_h d) (fun y data_col =>
      let iy := y * stride_h d + kh in
      let ix := kw in
      if stride_w d =? 1 then
        memcpy data_col (dst + y * output_w d)
               data_im (src + (iy * width d + ix)) (output_w d)
      else
        for_upto (output_w d) (fun x data_col =>
          memcpy data_col (dst + (y * output_w d + x))
                 data_im (src + (iy * width d + ix + x * stride_w d)) 1)
          data_col)
      data_col)
    data_col.

(** Fast path for equal padding.  The loop state carries the running
    pointers: the offset [im] of [data_im], the write position [p] of
    [data_col], and the running [input_row] and [input_col]. *)
Definition Im2col_equal_pad (d : window) (data_im data_col : list T)
  : option (list T) :=
  let pad_h := pad_t d in
  let pad_w := pad_l d in
  let channel_size := height d * width d in
  '(_, data_col, _) ←
    for_countdown (channels d) (fun '(im, data_col, p) =>
      '(data_col, p) ←
        for_upto (kernel_h d) (fun kernel_row =>
          for_upto (kernel_w d) (fun kernel_col '(data_col, p) =>
            '(_, data_col, p) ←
              for_countdown (output_h d) (fun '(input_row, data_col, p) =>
                '(data_col, p) ←
                  (if negb (is_a_ge_zero_and_a_lt_b input_row (height d))
                   then
                     for_countdown (output_w d) (fun '(data_col, p) =>
                       data_col ← store data_col p zero;
                       Some (data_col, p + 1))
                       (data_col, p)
                   else
                     '(_, data_col, p) ←
                       for_countdown (output_w d)
                         (fun '(input_col, data_col, p) =>
                            data_col ←
                              (if is_a_ge_zero_and_a_lt_b input_col (width d)
                               then
                                 v ← load data_im
                                       (im + (input_row * width d
                                              + input_col));
                                 store data_col p v
                               else store data_col p zero);
                            Some (input_col + stride_w d, data_col, p + 1))
                         (- pad_w + kernel_col * dilation_w d, data_col, p);
                     Some (data_col, p));
                Some (input_row + stride_h d, data_col, p))
                (- pad_h + kernel_row * dilation_h d, data_col, p);
            Some (data_col, p)))
          (data_col, p);
      Some (im + channel_size, data_col, p))
      (0, data_col, 0);
  Some data_col.

(** Baseline. *)
Definition Im2col_baseline (d : window) (data_im data_col : list T)
  : option (list T) :=
  let height_col := height_col d in
  let width_col := width_col d in
  let channels_col := channels d * kernel_h d * kernel_w d in
  for_upto channels_col (fun c data_col =>
    let w_offset := c `rem` kernel_w d in
    let h_offset := (c `quot` kernel_w d) `rem` kernel_h d in
    let c_im := (c `quot` kernel_h d) `quot` kernel_w d in
    for_upto height_col (fun h data_col =>
      for_upto width_col (fun w data_col =>
        let h_pad := h * stride_h d - pad_t d + h_offset * dilation_h d in
        let w_pad := w * stride_w d - pad_l d + w_offset * dilation_w d in
        if (h_pad >=? 0) && (h_pad <? height d) &&
           (w_pad >=? 0) && (w_pad <? width d)
        then
          v ← load data_im ((c_im * height d + h_pad) * width d + w_pad);
          store data_col ((c * height_col + h) * width_col + w) v
        else store data_col ((c * height_col + h) * width_col + w) zero)
        data_col)
      data_col)
    data_col.

(** [Im2col<float, CPUContext, StorageOrder::NCHW>]. *)
Definition Im2col_NCHW (d : window) (data_im data_col : list T)
  : option (list T) :=
  if zero_pad_no_dilation d then Im2col_zero_pad d data_im data_col
  else if equal_padding d then Im2col_equal_pad d data_im data_col
  else Im2col_baseline d data_im data_col.

(** [Im2col<float, CPUContext, StorageOrder::NHWC>].  The loop state carries
    the running [h_pad] and [w_pad] and the write position [p] of
    [data_col]. *)
Definition Im2col_NHWC (d : window) (data_im data_col : list T)
  : option (list T) :=
  let dkernel_h := dkernel_h d in
  let dkernel_w := dkernel_w d in
  let height_col := height_col d in
  let width_col := width_col d in
  '(_, data_col, _) ←
    for_upto height_col (fun h '(h_pad, data_col, p) =>
      '(_, data_col, p) ←
        for_upto width_col (fun w '(w_pad, data_col, p) =>
          '(data_col, p) ←
            for_step h_pad (h_pad + dkernel_h) (dilation_h d) (fun ih =>
              for_step w_pad (w_pad + dkernel_w) (dilation_w d)
                (fun iw '(data_col, p) =>
                   data_col ←
                     (if (ih >=? 0) && (ih <? height d) &&
                         (iw >=? 0) && (iw <? width d)
                      then memcpy data_col p
                                  data_im ((ih * width d + iw) * channels d)
                                  (channels d)
                      else memset0 data_col p (channels d));
                   Some (data_col, p + channels d)))
              (data_col, p);
          Some (w_pad + stride_w d, data_col, p))
          (- pad_l d, data_col, p);
      Some (h_pad + stride_h d, data_col, p))
      (- pad_t d, data_col, 0);
  Some data_col.

(** *** Col2im, channel-major *)

(** [data_im[i] += data_col[j]]. *)
Definition accumulate (data_im : list T) (i : Z) (data_col : list T) (j : Z)
  : option (list T) :=
  a ← load data_im i; b ← load data_col j; store data_im i (add a b).

(** Fast path for zero padding and no dilation. *)
Definition Col2im_zero_pad (d : window) (data_col data_im : list T)
  : option (list T) :=
  for_upto (channels d * kernel_h d * kernel_w d) (fun k data_im =>
    let nip := k `quot` (kernel_h d * kernel_w d) in
    let rest := k `rem` (kernel_h d * kernel_w d) in
    let kh := rest `quot` kernel_w d in
    let kw := rest `rem` kernel_w d in
    let dst := nip * (kernel_h d * kernel_w d * output_h d * output_w d)
               + kh * (kernel_w d * output_h d * output_w d)
               + kw * (output_h d * output_w d) in
    let src := nip * (height d * width d) in
    for_upto (output_h d) (fun y data_im =>
      let iy := y * stride_h d + kh in
      let ix := kw in
      if stride_w d =? 1 then
        let offsrc := src + (iy * width d + ix) in
        let offdst := dst + y * output_w d in
        for_upto (output_w d) (fun i data_im =>
          accumulate data_im (offsrc + i) data_col (offdst + i))
          data_im
      else
        for_upto (output_w d) (fun x data_im =>
          let offsrc := src + (iy * width d + ix + x * stride_w d) in
          let offdst := dst + (y * output_w d + x) in
          accumulate data_im offsrc data_col offdst)
          data_im)
      data_im)
    data_im.

(** Fast path for equal padding.  The loop state carries the offset [im] of
    [data_im], the read position [p] of [data_col], and the running
    [input_row] and [input_col]. *)
Definition Col2im_equal_pad (d : window) (data_col data_im : list T)
  : option (list T) :=
  let pad_h := pad_t d in
  let pad_w := pad_l d in
  let channel_size := height d * width d in
  '(_, _, data_im) ←
    for_countdown (channels d) (fun '(im, p, data_im) =>
      '(p, data_im) ←
        for_upto (kernel_h d) (fun kernel_row =>
          for_upto (kernel_w d) (fun kernel_col '(p, data_im) =>
            '(_, p, data_im) ←
              for_countdown (output_h d) (fun '(input_row, p, data_im) =>
                '(p, data_im) ←
                  (if negb (is_a_ge_zero_and_a_lt_b input_row (height d))
                   then Some (p + output_w d, data_im)
                   else
                     '(_, p, data_im) ←
                       for_countdown (output_w d)
                         (fun '(input_col, p, data_im) =>
                            data_im ←
                              (if is_a_ge_zero_and_a_lt_b input_col (width d)
                               then accumulate data_im
                                      (im + (input_row * width d + input_col))
                                      data_col p
                               else Some data_im);
                            Some (input_col + stride_w d, p + 1, data_im))
                         (- pad_w + kernel_col * dilation_w d, p, data_im);
                     Some (p, data_im));
                Some (input_row + stride_h d, p, data_im))
                (- pad_h + kernel_row * dilation_h d, p, data_im);
            Some (p, data_im)))
          (p, data_im);
      Some (im + channel_size, p, data_im))
      (0, 0, data_im);
  Some data_im.

(** Fallback. *)
Definition Col2im_fallback (d : window) (data_col data_im : list T)
  : option (list T) :=
  let height_col := height_col d in
  let width_col := width_col d in
  let channels_col := channels d * kernel_h d * kernel_w d in
  for_upto channels_col (fun c data_im =>
    let w_offset := c `rem` kernel_w d in
    let h_offset := (c `quot` kernel_w d) `rem` kernel_h d in
    let c_im := (c `quot` kernel_h d) `quot` kernel_w d in
    for_upto height_col (fun h data_im =>
      for_upto width_col (fun w data_im =>
        let h_pad := h * stride_h d - pad_t d + h_offset * dilation_h d in
        let w_pad := w * stride_w d - pad_l d + w_offset * dilation_w d in
        if (h_pad >=? 0) && (h_pad <? height d) &&
           (w_pad >=? 0) && (w_pad <? width d)
        then accumulate data_im ((c_im * height d + h_pad) * width d + w_pad)
                        data_col ((c * height_col + h) * width_col + w)
        else Some data_im)
        data_im)
      data_im)
    data_im.

(** [Col2im<float, CPUContext, StorageOrder::NCHW>]. *)
Definition Col2im_NCHW (d : window) (data_col data_im : list T)
  : option (list T) :=
  data_im ← Set_ (height d * width d * channels d) zero data_im 0;
  if zero_pad_no_dilation d then Col2im_zero_pad d data_col data_im
  else if equal_padding d then Col2im_equal_pad d data_col data_im
  else Col2im_fallback d data_col data_im.

(** [Col2im<float, CPUContext, StorageOrder::NHWC>]. *)
Definition Col2im_NHWC (d : window) (data_col data_im : list T)
  : option (list T) :=
  let dkernel_h := dkernel_h d in
  let dkernel_w := dkernel_w d in
  data_im ← Set_ (height d * width d * channels d) zero data_im 0;
  let height_col := height_col d in
  let width_col := width_col d in
  '(_, _, data_im) ←
    for_upto height_col (fun h '(h_pad, p, data_im) =>
      '(_, p, data_im) ←
        for_upto width_col (fun w '(w_pad, p, data_im) =>
          '(p, data_im) ←
            for_step h_pad (h_pad + dkernel_h) (dilation_h d) (fun ih =>
              for_step w_pad (w_pad + dkernel_w) (dilation_w d)
                (fun iw '(p, data_im) =>
                   data_im ←
                     (if (ih >=? 0) && (ih <? height d) &&
                         (iw >=? 0) && (iw <? width d)
                      then
                        let data_im_patch := (ih * width d + iw) * channels d in
                        Add (channels d) data_im data_im_patch data_col p
                            data_im data_im_patch
                      else Some data_im);
                   Some (p + channels d, data_im)))
              (p, data_im);
          Some (w_pad + stride_w d, p, data_im))
          (- pad_l d, p, data_im);
      Some (h_pad + stride_h d, p, data_im))
      (- pad_t d, 0, data_im);
  Some data_im.

(** ** The transforms as the specification words them *)

(** Input coordinate of kernel offset [k] at output position [o]. *)
Definition input_row (d : window) (kernel_row output_row : Z) : Z :=
  output_row * stride_h d - pad_t d + kernel_row * dilation_h d.

Definition input_col (d : window) (kernel_col output_col : Z) : Z :=
  output_col * stride_w d - pad_l d + kernel_col * dilation_w d.

(** [0 <= r < height] and [0 <= q < width]. *)
Definition in_image (d : window) (r q : Z) : bool :=
  (0 <=? r) && (r <? height d) && (0 <=? q) && (q <? width d).

(** Flat index of the sample [(c, r, q)] of a channel-major signal. *)
Definition im_index (d : window) (c r q : Z) : Z :=
  (c * height d + r) * width d + q.

(** Flat index of the column-buffer entry of channel [c], kernel offset
    [(kh, kw)] and output position [(oh, ow)], channel-major. *)
Definition col_index (d : window) (c kh kw oh ow : Z) : Z :=
  (((c * kernel_h d + kh) * kernel_w d + kw) * output_h d + oh) * output_w d
  + ow.

(** [buf[i]], the element zero standing for an absent one. *)
Definition at_index (buf : list T) (i : Z) : T :=
  default zero (load buf i).

(** The value the forward transform owes to an entry: the sample at the
    mapped coordinate, or zero in the padding region. *)
Definition tap_value (d : window) (data_im : list T) (c kh kw oh ow : Z) : T :=
  if in_image d (input_row d kh oh) (input_col d kw ow)
  then at_index data_im (im_index d c (input_row d kh oh) (input_col d kw ow))
  else zero.

(** The same, from the flat index of the entry. *)
Definition spec_col_entry (d : window) (data_im : list T) (idx : Z) : T :=
  let ow := idx `mod` output_w d in
  let oh := (idx `div` output_w d) `mod` output_h d in
  let k := (idx `div` output_w d) `div` output_h d in
  let kw := k `mod` kernel_w d in
  let kh := (k `div` kernel_w d) `mod` kernel_h d in
  let c := (k `div` kernel_w d) `div` kernel_h d in
  tap_value d data_im c kh kw oh ow.

(** [buf] with its first [n] elements replaced by [f 0 .. f (n - 1)]. *)
Definition written (f : Z -> T) (n : Z) (buf : list T) : list T :=
  (f <$> seqZ 0 n) ++ drop (Z.to_nat n) buf.

(** Number of entries of the column buffer. *)
Definition col_size (d : window) : Z :=
  channels d * kernel_h d * kernel_w d * output_h d * output_w d.

(** Number of samples of the signal. *)
Definition im_size (d : window) : Z := channels d * height d * width d.

(** Forward transform, channel-major: one value per entry. *)
Definition spec_Im2col_NCHW (d : window) (data_im data_col : list T)
  : list T :=
  written (spec_col_entry d data_im) (col_size d) data_col.

(** One step of the inverse transform: the entry of flat index [idx] is
    added to the sample it maps to, or skipped in the padding region. *)
Definition spec_acc_entry (d : window) (data_col data_im : list T) (idx : Z)
  : list T :=
  let ow := idx `mod` output_w d in
  let oh := (idx `div` output_w d) `mod` output_h d in
  let k := (idx `div` output_w d) `div` output_h d in
  let kw := k `mod` kernel_w d in
  let kh := (k `div` kernel_w d) `mod` kernel_h d in
  let c := (k `div` kernel_w d) `div` kernel_h d in
  let r := input_row d kh oh in
  let q := input_col d kw ow in
  if in_image d r q
  then <[Z.to_nat (im_index d c r q) :=
           add (at_index data_im (im_index d c r q)) (at_index data_col idx)]>
         data_im
  else data_im.

(** Inverse transform, channel-major: zero-fill, then one step per entry
    in the order of the flat index. *)
Definition spec_Col2im_NCHW (d : window) (data_col : list T) : list T :=
  foldl (spec_acc_entry d data_col)
        (replicate (Z.to_nat (im_size d)) zero)
        (seqZ 0 (col_size d)).

(** Channel-minor layout: flat index of the sample [(r, q, c)] and of the
    column-buffer entry of output position [(oh, ow)], kernel offset
    [(kh, kw)] and channel [c]. *)
Definition im_index_NHWC (d : window) (r q c : Z) : Z :=
  (r * width d + q) * channels d + c.

Definition col_index_NHWC (d : window) (oh ow kh kw c : Z) : Z :=
  ((((oh * width_col d + ow) * kernel_h d + kh) * kernel_w d + kw)
   * channels d) + c.

Definition tap_value_NHWC (d : window) (data_im : list T) (oh ow kh kw c : Z)
  : T :=
  if in_image d (input_row d kh oh) (input_col d kw ow)
  then at_index data_im
         (im_index_NHWC d (input_row d kh oh) (input_col d kw ow) c)
  else zero.

Definition spec_col_entry_NHWC (d : window) (data_im : list T) (idx : Z) : T :=
  let c := idx `mod` channels d in
  let t := idx `div` channels d in
  let kw := t `mod` kernel_w d in
  let kh := (t `div` kernel_w d) `mod` kernel_h d in
  let o := (t `div` kernel_w d) `div` kernel_h d in
  let ow := o `mod` width_col d in
  let oh := o `div` width_col d in
  tap_value_NHWC d data_im oh ow kh kw c.

Definition spec_Im2col_NHWC (d : window) (data_im data_col : list T)
  : list T :=
  written (spec_col_entry_NHWC d data_im) (col_size d) data_col.

Definition spec_acc_entry_NHWC (d : window) (data_col data_im : list T)
    (idx : Z) : list T :=
  let c := idx `mod` channels d in
  let t := idx `div` channels d in
  let kw := t `mod` kernel_w d in
  let kh := (t `div` kernel_w d) `mod` kernel_h d in
  let o := (t `div` kernel_w d) `div` kernel_h d in
  let ow := o `mod` width_col d in
  let oh := o `div` width_col d in
  let r := input_row d kh oh in
  let q := input_col d kw ow in
  if in_image d r q
  then <[Z.to_nat (im_index_NHWC d r q c) :=
           add (at_index data_im (im_index_NHWC d r q c))
               (at_index data_col idx)]>
         data_im
  else data_im.

Definition spec_Col2im_NHWC (d : window) (data_col : list T) : list T :=
  foldl (spec_acc_entry_NHWC d data_col)
        (replicate (Z.to_nat (im_size d)) zero)
        (seqZ 0 (col_size d)).

(** [n] copies of [s] added up from zero, one after the other, the way the
    inverse transform accumulates them. *)
Definition sum_of_copies (n : nat) (s : T) : T :=
  Nat.iter n (fun a => add a s) zero.

End Transforms.

(** ** Index expressions of the zero-padding fast paths *)

(** The channel [nip] that iteration [k] of the outer loop works on. *)
Definition zero_pad_nip (d : window) (k : Z) : Z :=
  k `quot` (kernel_h d * kernel_w d).

(** [iy * width + ix + x * stride_w]: the index, inside the channel slice
    [src = data_im + nip * (height * width)], that iteration [(k, y, x)]
    accesses. *)
Definition zero_pad_signal_index (d : window) (k y x : Z) : Z :=
  let rest := k `rem` (kernel_h d * kernel_w d) in
  let kh := rest `quot` kernel_w d in
  let kw := rest `rem` kernel_w d in
  let iy := y * stride_h d + kh in
  let ix := kw in
  iy * width d + ix + x * stride_w d.

(** The index of [data_col] that iteration [(k, y, x)] accesses. *)
Definition zero_pad_column_index (d : window) (k y x : Z) : Z :=
  let nip := k `quot` (kernel_h d * kernel_w d) in
  let rest := k `rem` (kernel_h d * kernel_w d) in
  let kh := rest `quot` kernel_w d in
  let kw := rest `rem` kernel_w d in
  nip * (kernel_h d * kernel_w d * output_h d * output_w d)
  + kh * (kernel_w d * output_h d * output_w d)
  + kw * (output_h d * output_w d)
  + (y * output_w d + x).

(** The preconditions of the zero-padding fast paths: the dispatch test,
    kernel and stride at least one, computed output size at least one. *)
Definition zero_pad_window (d : window) : Prop :=
  dilation_h d = 1 /\ dilation_w d = 1 /\
  pad_l d = 0 /\ pad_r d = 0 /\ pad_t d = 0 /\ pad_b d = 0 /\
  1 <= kernel_h d /\ 1 <= kernel_w d /\
  1 <= stride_h d /\ 1 <= stride_w d /\
  1 <= output_h d /\ 1 <= output_w d.

(** Stride one, no dilation, no padding. *)
Definition unit_window (d : window) : Prop :=
  valid_window d /\ stride_h d = 1 /\ stride_w d = 1 /\
  zero_pad_no_dilation d = true.

(** Among the first [k] (channel, kernel offset) blocks, the number that
    belong to channel [c0]. *)
Definition offsets_before (d : window) (c0 k : Z) : nat :=
  Z.to_nat (Z.max 0 (Z.min (k - c0 * (kernel_h d * kernel_w d))
                           (kernel_h d * kernel_w d))).

(** ** Concrete descriptors *)

(** channels = 1, 4 x 4 input, 2 x 2 kernel, stride 1, no dilation, no
    padding. *)
Definition scenario_window : window := Window 1 4 4 2 2 1 1 0 0 0 0 1 1.

(** The signal 0, 1, ..., 15 in row-major order. *)
Definition scenario_signal : list Z := seqZ 0 16.

(** A 3 x 1 input under a 1 x 2 kernel with strides 5 and 2: the kernel is
    wider than the input, and the truncating division still gives a
    1 x 1 output. *)
Definition narrow_window : window := Window 1 3 1 1 2 1 1 0 0 0 0 5 2.

(** A 1 x 1 input under a 2 x 1 kernel with stride 2: the kernel is taller
    than the input, and the computed output is again 1 x 1. *)
Definition short_window : window := Window 1 1 1 2 1 1 1 0 0 0 0 2 1.

(** Two channels, 3 x 4 input, 2 x 2 kernel, dilation 2 x 1, unequal
    padding, strides 2 and 1. *)
Definition padded_window : window := Window 2 3 4 2 2 2 1 1 0 2 1 2 1.

(** Two channels, 3 x 3 input, 2 x 2 kernel, padding 1 on every side,
    stride 1. *)
Definition same_pad_window : window := Window 2 3 3 2 2 1 1 1 1 1 1 1 1.

(** ** The other functions of the file

    *** CopyMatrix *)

(** [CopyMatrix<CPUContext>(itemsize, M, N, A, lda, B, ldb)].  The two
    buffers are bytes; row [i] is one [memcpy] of [itemsize * N] bytes from
    [A + lda * i * itemsize] to [B + ldb * i * itemsize]. *)
Definition CopyMatrix {T : Type} (itemsize M N : Z) (A : list T) (lda : Z)
    (B : list T) (ldb : Z) : option (list T) :=
  for_upto M (fun i B =>
    memcpy B (ldb * i * itemsize) A (lda * i * itemsize) (itemsize * N)) B.

(** *** Select *)

(** [Select<float, CPUContext>(N, D, x, idx, y)].  [DCHECK_LT(idx[i], D)] is
    compiled into debug builds only: [dcheck] says whether it is there.  A
    failed check ends the program, which leaves no result. *)
Definition Select {T : Type} (dcheck : bool) (N D : Z) (x : list T)
    (idx : list Z) (y : list T) : option (list T) :=
  for_upto N (fun i y =>
    idx_i ← load idx i;
    if dcheck && negb (idx_i <? D) then None
    else v ← load x (i * D + idx_i); store y i v) y.

(** *** Comparisons and logical operations *)

Section BinaryOp.
Context {T : Type}.
Variable op : T -> T -> bool.

(** [CAFFE2_INSTANTIATE_BINARY_OP(name, op, T)], first function:
    [y[i] = a[i] op b[i]] for [i < n]. *)
Definition binary_op (n : Z) (a b : list T) (y : list bool)
  : option (list bool) :=
  for_upto n (fun i y =>
    a_i ← load a i; b_i ← load b i; store y i (op a_i b_i)) y.

(** Second function, [name##ToRow]: [y[i] = a[i] op b[i % n]] for
    [i < n * m]. *)
Definition binary_op_ToRow (m n : Z) (a b : list T) (y : list bool)
  : option (list bool) :=
  for_upto (n * m) (fun i y =>
    a_i ← load a i; b_i ← load b (i `rem` n); store y i (op a_i b_i)) y.

End BinaryOp.

(** The instances for the integer element types ([int32_t], [int64_t]) and
    for [bool]; [|], [&] and [^] on [bool] operands are the logical
    operations. *)
Definition LT := binary_op Z.ltb.
Definition LE := binary_op Z.leb.
Definition GT := binary_op Z.gtb.
Definition GE := binary_op Z.geb.
Definition Or := binary_op orb.
Definition And := binary_op andb.
Definition Xor := binary_op xorb.
Definition LTToRow := binary_op_ToRow Z.ltb.
Definition LEToRow := binary_op_ToRow Z.leb.
Definition GTToRow := binary_op_ToRow Z.gtb.
Definition GEToRow := binary_op_ToRow Z.geb.
Definition OrToRow := binary_op_ToRow orb.
Definition AndToRow := binary_op_ToRow andb.
Definition XorToRow := binary_op_ToRow xorb.

(** [Not<bool, CPUContext>(n, x, y)]. *)
Definition Not (n : Z) (x y : list bool) : option (list bool) :=
  for_upto n (fun i y => x_i ← load x i; store y i (negb x_i)) y.

(** *** randomNumberSeed *)

Definition kPrime0 : Z := 51551.
Definition kPrime1 : Z := 61631.
Definition kPrime2 : Z := 64997.
Definition kPrime3 : Z := 111857.

(** Product and sum of two [uint32_t]. *)
Definition mul32 (a b : Z) : Z := (a * b) mod 2 ^ 32.
Definition add32 (a b : Z) : Z := (a + b) mod 2 ^ 32.

(** [randomNumberSeed()], as a function of the counter [seedInput] (a static
    [std::atomic<uint32_t>]), of the process id and of the time of day:
    the seed, and the counter after [seedInput++]. *)
Definition randomNumberSeed (seedInput pid tv_sec tv_usec : Z) : Z * Z :=
  (add32 (add32 (add32 (mul32 kPrime0 seedInput)
                       (mul32 kPrime1 (to_unsigned pid)))
                (mul32 kPrime2 (to_unsigned tv_sec)))
         (mul32 kPrime3 (to_unsigned tv_usec)),
   add32 seedInput 1).

(** *** BLAS alternatives, Eigen build *)

(** [CBLAS_TRANSPOSE] of cblas.h. *)
Inductive CBLAS_TRANSPOSE : Set := CblasNoTrans | CblasTrans | CblasConjTrans.

Section Blas.
Context {T : Type}.
Variable zero : T.
Variables add mul : T -> T -> T.

(** [beta == 0]. *)
Variable is_zero : T -> bool.

(** [Scale<T, CPUContext>(n, alpha, x, y)]:
    [EigenVectorMap<T>(y, n) = ConstEigenVectorMap<T>(x, n) * alpha]. *)
Definition Scale (n : Z) (alpha : T) (x y : list T) : option (list T) :=
  if in_block x 0 n && in_block y 0 n
  then Some (((fun v => mul v alpha) <$> take (Z.to_nat n) x)
             ++ drop (Z.to_nat n) y)
  else None.

(** [Axpy<T, CPUContext>(N, alpha, x, Y)]:
    [EigenVectorMap<T>(Y, N) += ConstEigenVectorMap<T>(x, N) * alpha]. *)
Definition Axpy (N : Z) (alpha : T) (x Y : list T) : option (list T) :=
  if in_block x 0 N && in_block Y 0 N
  then Some (zip_with (fun y v => add y (mul v alpha))
                      (take (Z.to_nat N) Y) (take (Z.to_nat N) x)
             ++ drop (Z.to_nat N) Y)
  else None.

(** [Axpby<T, CPUContext>(N, alpha, x, beta, y)]:
    [y_vec = y_vec * beta + ConstEigenVectorMap<T>(x, N) * alpha]. *)
Definition Axpby (N : Z) (alpha : T) (x : list T) (beta : T) (y : list T)
  : option (list T) :=
  if in_block x 0 N && in_block y 0 N
  then Some (zip_with (fun y v => add (mul y beta) (mul v alpha))
                      (take (Z.to_nat N) y) (take (Z.to_nat N) x)
             ++ drop (Z.to_nat N) y)
  else None.

(** [EigenMatrixMap<float>(buf, rows, cols)]: the coefficient [(i, j)] of
    the column-major view is [buf[i + j * rows]]. *)
Definition EigenMatrixMap (buf : list T) (rows cols : Z) (i j : Z)
  : option T :=
  load buf (i + j * rows).

(** [m.transpose()]. *)
Definition transpose (m : Z -> Z -> option T) (i j : Z) : option T := m j i.

(** The coefficient [(i, j)] of the product [lhs * rhs], [inner] being the
    number of columns of [lhs]: the products are added up from zero in the
    order of the inner index. *)
Definition product (inner : Z) (lhs rhs : Z -> Z -> option T) (i j : Z)
  : option T :=
  for_upto inner (fun k acc =>
    l ← lhs i k; r ← rhs k j; Some (add acc (mul l r))) zero.

(** [if (beta == 0) C_mat.setZero(); else C_mat *= beta;] on the [n]
    coefficients of a view. *)
Definition scale_or_zero (n : Z) (beta : T) (C : list T) : option (list T) :=
  if is_zero beta then Set_ n zero C 0 else Scale n beta C C.

(** [C_mat.noalias() += alpha * P] on the column-major view of [rows] rows
    and [cols] columns of [C]. *)
Definition add_scaled (rows cols : Z) (alpha : T)
    (P : Z -> Z -> option T) (C : list T) : option (list T) :=
  for_upto cols (fun j C =>
    for_upto rows (fun i C =>
      c ← load C (i + j * rows); p ← P i j;
      store C (i + j * rows) (add c (mul alpha p))) C) C.

(** [Gemm<float, CPUContext>(TransA, TransB, M, N, K, alpha, A, B, beta, C)].
    [LOG(FATAL)] ends the program, which leaves no result. *)
Definition Gemm (TransA TransB : CBLAS_TRANSPOSE) (M N K : Z) (alpha : T)
    (A B : list T) (beta : T) (C : list T) : option (list T) :=
  C ← scale_or_zero (N * M) beta C;
  match TransA with
  | CblasNoTrans =>
      match TransB with
      | CblasNoTrans =>
          add_scaled N M alpha
            (product K (EigenMatrixMap B N K) (EigenMatrixMap A K M)) C
      | CblasTrans =>
          add_scaled N M alpha
            (product K (transpose (EigenMatrixMap B K N))
                       (EigenMatrixMap A K M)) C
      | CblasConjTrans => None
      end
  | CblasTrans =>
      match TransB with
      | CblasNoTrans =>
          add_scaled N M alpha
            (product K (EigenMatrixMap B N K)
                       (transpose (EigenMatrixMap A M K))) C
      | CblasTrans =>
          add_scaled N M alpha
            (product K (transpose (EigenMatrixMap B K N))
                       (transpose (EigenMatrixMap A M K))) C
      | CblasConjTrans => None
      end
  | CblasConjTrans => None
  end.

(** [Gemv<float, CPUContext>(TransA, M, N, alpha, A, x, beta, y)]; a vector
    is a view of one column. *)
Definition Gemv (TransA : CBLAS_TRANSPOSE) (M N : Z) (alpha : T)
    (A x : list T) (beta : T) (y : list T) : option (list T) :=
  let size := match TransA with CblasNoTrans => M | _ => N end in
  y ← scale_or_zero size beta y;
  match TransA with
  | CblasNoTrans =>
      add_scaled M 1 alpha
        (product N (transpose (EigenMatrixMap A N M)) (EigenMatrixMap x N 1))
        y
  | CblasTrans =>
      add_scaled N 1 alpha
        (product M (EigenMatrixMap A N M) (EigenMatrixMap x M 1)) y
  | CblasConjTrans => None
  end.

End Blas.

(** [beta == 0] on integers. *)
Definition eq_zero (beta : Z) : bool := beta =? 0.

(** The coefficient [(i, j)] of [op(X)], a matrix of [rows] rows and [cols]
    columns, [X] being stored in row-major order, the way the comment on
    [Gemm] words the operation. *)
Definition op_coeff (trans : CBLAS_TRANSPOSE) (X : list Z) (rows cols : Z)
    (i j : Z) : Z :=
  match trans with
  | CblasNoTrans => at_index 0 X (i * cols + j)
  | _ => at_index 0 X (j * rows + i)
  end.

(** *** Broadcast operations *)

Section Broadcast.
Context {T : Type}.
Variable op : T -> T -> T.

(** [EigenArrayMap<T>(buf, rows, cols)], column-major like
    [EigenMatrixMap]. *)
Definition EigenArrayMap (buf : list T) (rows cols : Z) (i j : Z)
  : option T :=
  load buf (i + j * rows).

(** An assignment to the view of [rows] rows and [cols] columns of [y]:
    the coefficient [(i, j)] becomes the value [val i j] of the right-hand
    side there, which may read [y]. *)
Definition assign (rows cols : Z) (val : Z -> Z -> list T -> option T)
    (y : list T) : option (list T) :=
  for_upto cols (fun j y =>
    for_upto rows (fun i y =>
      v ← val i j y; store y (i + j * rows) v) y) y.

(** [DELEGATE_BROADCAST_BINARY_FUNCTION(T, Funcname, expr)], first
    function, [Funcname##ToRow(M, N, a, b, y)]:
    [EigenArrayMap<T>(y, N, M) =
     ConstEigenArrayMap<T>(a, N, M).colwise() expr
     ConstEigenVectorArrayMap<T>(b, N)]. *)
Definition BroadcastToRow (M N : Z) (a b y : list T) : option (list T) :=
  assign N M (fun i j _ =>
    a_ij ← EigenArrayMap a N M i j; b_i ← load b i; Some (op a_ij b_i)) y.

(** Second function, [Funcname##ToRow(M, N, x, y)] in place:
    [EigenArrayMap<T>(y, N, M).colwise() expr=
     ConstEigenVectorArrayMap<T>(x, N)]. *)
Definition BroadcastToRow_inplace (M N : Z) (x y : list T)
  : option (list T) :=
  assign N M (fun i j y =>
    y_ij ← EigenArrayMap y N M i j; x_i ← load x i; Some (op y_ij x_i)) y.

(** Third function, [Funcname##ToCol(M, N, x, y)]:
    [EigenArrayMap<T>(y, N, M).rowwise() expr=
     ConstEigenVectorArrayMap<T>(x, M).transpose()]. *)
Definition BroadcastToCol (M N : Z) (x y : list T) : option (list T) :=
  assign N M (fun i j y =>
    y_ij ← EigenArrayMap y N M i j; x_j ← load x j; Some (op y_ij x_j)) y.

End Broadcast.

(** ** Sums and targets, for the properties in exact arithmetic *)

(** The sum of [f 0 .. f (n - 1)]. *)
Definition sumZ (n : Z) (f : Z -> Z) : Z := foldr Z.add 0 (f <$> seqZ 0 n).

(** The inner product of the first [n] elements of two buffers of
    integers. *)
Definition inner_product (n : Z) (a b : list Z) : Z :=
  sumZ n (fun i => at_index 0 a i * at_index 0 b i).

(** The flat index of the sample that the column-buffer entry of flat index
    [idx] maps to, if it maps into the image: channel-major and
    channel-minor. *)
Definition tap_target (d : window) (idx : Z) : option Z :=
  let ow := idx `mod` output_w d in
  let oh := (idx `div` output_w d) `mod` output_h d in
  let k := (idx `div` output_w d) `div` output_h d in
  let kw := k `mod` kernel_w d in
  let kh := (k `div` kernel_w d) `mod` kernel_h d in
  let c := (k `div` kernel_w d) `div` kernel_h d in
  let r := input_row d kh oh in
  let q := input_col d kw ow in
  if in_image d r q then Some (im_index d c r q) else None.

Definition tap_target_NHWC (d : window) (idx : Z) : option Z :=
  let c := idx `mod` channels d in
  let t := idx `div` channels d in
  let kw := t `mod` kernel_w d in
  let kh := (t `div` kernel_w d) `mod` kernel_h d in
  let o := (t `div` kernel_w d) `div` kernel_h d in
  let ow := o `mod` width_col d in
  let oh := o `div` width_col d in
  let r := input_row d kh oh in
  let q := input_col d kw ow in
  if in_image d r q then Some (im_index_NHWC d r q c) else None.

(** One accumulation step towards the target [t idx]. *)
Definition scatter_add (t : Z -> option Z) (col im : list Z) (idx : Z)
  : list Z :=
  match t idx with
  | Some p => <[Z.to_nat p := at_index 0 im p + at_index 0 col idx]> im
  | None => im
  end.

(** * Properties

    ** Loops in closed form *)

Section LoopFacts.
Context {St : Type}.

(** A loop whose state after [j] iterations is [st j], for a function
    [st] given in closed form, ends in [st n]. *)
Lemma iterate_closed (st : Z -> St) (body : Z -> St -> option St) (n : nat) :
  forall i,
  (forall j, i <= j < i + Z.of_nat n -> body j (st j) = Some (st (j + 1))) ->
  iterate n i body (st i) = Some (st (i + Z.of_nat n)).
Proof.
  induction n as [|n IH]; intros i Hbody; simpl.
  - f_equal. f_equal. lia.
  - rewrite Hbody by lia. simpl. rewrite IH.
    + f_equal. f_equal. lia.
    + intros j Hj. apply Hbody. lia.
Qed.

Lemma for_upto_closed (st : Z -> St) (body : Z -> St -> option St) (n : Z)
    (s s' : St) :
  0 <= n -> s = st 0 -> s' = st n ->
  (forall j, 0 <= j < n -> body j (st j) = Some (st (j + 1))) ->
  for_upto n body s = Some s'.
Proof.
  intros Hn -> -> Hbody. unfold for_upto.
  rewrite (iterate_closed st).
  - f_equal. f_equal. lia.
  - intros j Hj. apply Hbody. lia.
Qed.

Lemma for_countdown_closed (st : Z -> St) (body : St -> option St) (n : Z)
    (s s' : St) :
  0 <= n -> s = st 0 -> s' = st n ->
  (forall j, 0 <= j < n -> body (st j) = Some (st (j + 1))) ->
  for_countdown n body s = Some s'.
Proof.
  intros Hn -> -> Hbody. unfold for_countdown.
  destruct (Z.ltb_spec n 0) as [?|_]; [lia|].
  rewrite (iterate_closed st).
  - f_equal. f_equal. lia.
  - intros j Hj. apply Hbody. lia.
Qed.

Lemma for_step_fuel_closed (st : Z -> St) (body : Z -> St -> option St)
    (step : Z) (k : nat) :
  1 <= step ->
  forall (fuel : nat) (lo j0 : Z),
  (k <= fuel)%nat ->
  (forall j, j0 <= j < j0 + Z.of_nat k ->
     body (lo + (j - j0) * step) (st j) = Some (st (j + 1))) ->
  for_step_fuel fuel lo (lo + (step * (Z.of_nat k - 1) + 1)) step body (st j0)
  = Some (st (j0 + Z.of_nat k)).
Proof.
  intros Hstep. induction k as [|k IH]; intros fuel lo j0 Hfuel Hbody.
  - assert (Hge : lo + (step * (Z.of_nat 0 - 1) + 1) <= lo) by lia.
    apply Z.ltb_ge in Hge.
    destruct fuel; simpl for_step_fuel; rewrite Hge; f_equal; f_equal; lia.
  - destruct fuel as [|fuel]; [lia|]. simpl for_step_fuel.
    assert (Hlt : lo < lo + (step * (Z.of_nat (S k) - 1) + 1)) by nia.
    apply Z.ltb_lt in Hlt. rewrite Hlt.
    specialize (Hbody j0 ltac:(lia)) as Hb.
    replace (lo + (j0 - j0) * step) with lo in Hb by lia.
    rewrite Hb. simpl.
    replace (lo + (step * (Z.of_nat (S k) - 1) + 1))
      with ((lo + step) + (step * (Z.of_nat k - 1) + 1)) by lia.
    rewrite (IH fuel (lo + step) (j0 + 1)).
    + f_equal. f_equal. lia.
    + lia.
    + intros j Hj. rewrite <- Hbody by lia. f_equal. lia.
Qed.

Lemma for_step_closed (st : Z -> St) (body : Z -> St -> option St)
    (lo step k : Z) (s s' : St) :
  1 <= step -> 0 <= k -> s = st 0 -> s' = st k ->
  (forall j, 0 <= j < k -> body (lo + j * step) (st j) = Some (st (j + 1))) ->
  for_step lo (lo + (step * (k - 1) + 1)) step body s = Some s'.
Proof.
  intros Hstep Hk -> -> Hbody. unfold for_step.
  replace k with (Z.of_nat (Z.to_nat k)) at 1 2 by lia.
  rewrite (for_step_fuel_closed st body step (Z.to_nat k) Hstep _ lo 0).
  - f_equal. f_equal. lia.
  - nia.
  - intros j Hj. rewrite <- Hbody by lia. f_equal. lia.
Qed.

End LoopFacts.

(** ** Buffers *)

Section BufferFacts.
Context {T : Type}.
Variable zero : T.
Implicit Types (buf src : list T) (f : Z -> T).

Lemma load_at_index buf i :
  0 <= i < Z.of_nat (length buf) -> load buf i = Some (at_index zero buf i).
Proof.
  intros Hi. unfold at_index, load.
  destruct (Z.leb_spec 0 i); [|lia].
  destruct (lookup_lt_is_Some_2 buf (Z.to_nat i)) as [v Hv]; [lia|].
  by rewrite Hv.
Qed.

Lemma length_written f n buf :
  0 <= n <= Z.of_nat (length buf) -> length (written f n buf) = length buf.
Proof.
  intros Hn. unfold written.
  rewrite length_app, length_fmap, length_seqZ, length_drop. lia.
Qed.

Lemma written_0 f buf : written f 0 buf = buf.
Proof. done. Qed.

Lemma written_all f n buf :
  Z.of_nat (length buf) = n -> written f n buf = f <$> seqZ 0 n.
Proof.
  intros Hn. unfold written. rewrite drop_ge by lia. apply app_nil_r.
Qed.

Lemma take_written f n buf :
  0 <= n -> take (Z.to_nat n) (written f n buf) = f <$> seqZ 0 n.
Proof.
  intros Hn. unfold written. apply take_app_length'.
  by rewrite length_fmap, length_seqZ.
Qed.

Lemma drop_written f n m buf :
  0 <= n -> 0 <= m ->
  drop (Z.to_nat (n + m)) (written f n buf) = drop (Z.to_nat (n + m)) buf.
Proof.
  intros Hn Hm. unfold written.
  rewrite drop_app_ge by (rewrite length_fmap, length_seqZ; lia).
  rewrite length_fmap, length_seqZ, drop_drop. f_equal. lia.
Qed.

Lemma written_extend f n m buf (block : list T) :
  0 <= n -> 0 <= m ->
  block = f <$> seqZ n m ->
  take (Z.to_nat n) (written f n buf) ++ block
    ++ drop (Z.to_nat (n + m)) (written f n buf)
  = written f (n + m) buf.
Proof.
  intros Hn Hm ->. rewrite take_written, drop_written by done.
  unfold written. rewrite seqZ_app by done.
  rewrite fmap_app. by rewrite <- app_assoc.
Qed.

(** A store, a block copy or a block fill right after the written prefix
    extends the prefix. *)
Lemma store_written f n v buf :
  0 <= n < Z.of_nat (length buf) -> v = f n ->
  store (written f n buf) n v = Some (written f (n + 1) buf).
Proof.
  intros Hn ->. unfold store.
  rewrite length_written by lia.
  destruct (Z.leb_spec 0 n); [|lia].
  destruct (Z.ltb_spec n (Z.of_nat (length buf))); [|lia]. simpl.
  f_equal. unfold written.
  rewrite insert_app_r_alt by (rewrite length_fmap, length_seqZ; lia).
  rewrite length_fmap, length_seqZ, Nat.sub_diag.
  destruct (lookup_lt_is_Some_2 buf (Z.to_nat n)) as [x Hx]; [lia|].
  rewrite (drop_S _ _ _ Hx). simpl.
  rewrite seqZ_app, fmap_app by lia. rewrite <- app_assoc. simpl.
  do 3 f_equal. lia.
Qed.

Lemma memcpy_written f n m buf src soff :
  0 <= n -> 0 <= m -> n + m <= Z.of_nat (length buf) ->
  0 <= soff -> soff + m <= Z.of_nat (length src) ->
  (forall j, 0 <= j < m -> f (n + j) = at_index zero src (soff + j)) ->
  memcpy (written f n buf) n src soff m = Some (written f (n + m) buf).
Proof.
  intros Hn Hm Hnm Hs Hsm Hf. unfold memcpy, in_block.
  rewrite length_written by lia.
  repeat match goal with
  | |- context [?a <=? ?b] => destruct (Z.leb_spec a b); [|lia]
  end. simpl. f_equal. apply written_extend; [done..|].
  apply list_eq. intros i.
  rewrite lookup_take, lookup_drop, list_lookup_fmap.
  destruct (decide (i < Z.to_nat m)%nat) as [Hi|Hi].
  - rewrite (lookup_seqZ_lt n m i) by lia. simpl.
    rewrite Hf by lia.
    pose proof (load_at_index src (soff + Z.of_nat i) ltac:(lia)) as Hl.
    unfold load in Hl. destruct (Z.leb_spec 0 (soff + Z.of_nat i)); [|lia].
    rewrite <- Hl. f_equal. lia.
  - rewrite lookup_seqZ_ge by lia. done.
Qed.

Lemma memset0_written f n m buf :
  0 <= n -> 0 <= m -> n + m <= Z.of_nat (length buf) ->
  (forall j, 0 <= j < m -> f (n + j) = zero) ->
  memset0 zero (written f n buf) n m = Some (written f (n + m) buf).
Proof.
  intros Hn Hm Hnm Hf. unfold memset0, in_block.
  rewrite length_written by lia.
  repeat match goal with
  | |- context [?a <=? ?b] => destruct (Z.leb_spec a b); [|lia]
  end. simpl. f_equal. apply written_extend; [done..|].
  apply list_eq. intros i.
  rewrite list_lookup_fmap.
  destruct (decide (i < Z.to_nat m)%nat) as [Hi|Hi].
  - rewrite (lookup_seqZ_lt n m i) by lia. simpl.
    rewrite Hf by lia. by apply lookup_replicate_2.
  - rewrite lookup_seqZ_ge by lia. simpl.
    apply lookup_replicate_None. lia.
Qed.

End BufferFacts.

(** ** Index arithmetic *)

Lemma flat_bound a A b B :
  0 <= a < A -> 0 <= b < B -> 0 <= a * B + b < A * B.
Proof. nia. Qed.

Lemma flat_div a b B : 0 <= b < B -> (a * B + b) `div` B = a.
Proof.
  intros Hb. rewrite Z.div_add_l by lia. rewrite Z.div_small by lia. lia.
Qed.

Lemma flat_mod a b B : 0 <= b < B -> (a * B + b) `mod` B = b.
Proof.
  intros Hb. rewrite Z.add_comm, Z.mod_add by lia. apply Z.mod_small. lia.
Qed.

Lemma div_range a A B : 0 < B -> 0 <= a < A * B -> 0 <= a `div` B < A.
Proof.
  intros HB Ha. split.
  - apply Z.div_pos; lia.
  - apply Z.div_lt_upper_bound; lia.
Qed.

Lemma div_swap a b c :
  0 < b -> 0 < c -> (a `div` b) `div` c = (a `div` c) `div` b.
Proof.
  intros Hb Hc. rewrite !Z.div_div by lia. f_equal. lia.
Qed.

Lemma height_col_output_h d : height_col d = output_h d.
Proof. unfold height_col, output_h, dkernel_h. do 2 f_equal. lia. Qed.

Lemma width_col_output_w d : width_col d = output_w d.
Proof. unfold width_col, output_w, dkernel_w. do 2 f_equal. Qed.

(** ** Forward transform, baseline path *)

Section ForwardBaseline.
Context {T : Type}.
Variable zero : T.
Implicit Types (data_im data_col : list T) (d : window).

(** The entry at the flat index [(k * output_h + oh) * output_w + ow]. *)
Lemma spec_col_entry_flat d data_im k oh ow :
  0 <= oh < output_h d -> 0 <= ow < output_w d ->
  spec_col_entry zero d data_im ((k * output_h d + oh) * output_w d + ow)
  = tap_value zero d data_im
      ((k `div` kernel_w d) `div` kernel_h d)
      ((k `div` kernel_w d) `mod` kernel_h d)
      (k `mod` kernel_w d) oh ow.
Proof.
  intros Hoh How. unfold spec_col_entry.
  rewrite flat_div, flat_mod by done.
  rewrite flat_div, flat_mod by done. done.
Qed.

(** The guarded read of the sample an entry maps to. *)
Lemma tap_value_load d data_im c kh kw oh ow :
  Z.of_nat (length data_im) = im_size d ->
  0 <= c < channels d ->
  (if in_image d (input_row d kh oh) (input_col d kw ow)
   then load data_im (im_index d c (input_row d kh oh) (input_col d kw ow))
   else Some zero)
  = Some (tap_value zero d data_im c kh kw oh ow).
Proof.
  intros Hlen Hc. unfold tap_value.
  destruct (in_image d _ _) eqn:Hin; [|done].
  apply load_at_index. rewrite Hlen. unfold im_size, im_index.
  unfold in_image in Hin.
  repeat (apply andb_prop in Hin as [Hin ?]).
  assert (0 <= input_row d kh oh < height d) by lia.
  assert (0 <= input_col d kw ow < width d) by lia.
  pose proof (flat_bound c (channels d) (input_row d kh oh) (height d)
                ltac:(lia) ltac:(lia)).
  nia.
Qed.

(** The baseline path writes the value the specification gives into every
    entry, in the order of the flat index. *)
Lemma Im2col_baseline_spec d data_im data_col :
  valid_window d ->
  Z.of_nat (length data_im) = im_size d ->
  Z.of_nat (length data_col) = col_size d ->
  Im2col_baseline zero d data_im data_col
  = Some (spec_Im2col_NCHW zero d data_im data_col).
Proof.
  intros Hv Hlim Hlcol. unfold Im2col_baseline, spec_Im2col_NCHW. cbv zeta.
  rewrite height_col_output_h, width_col_output_w.
  destruct Hv as (? & ? & ? & ? & ? & ? & ? & ? & ? & ? & ? & ? & ? & ? & ?).
  set (f := spec_col_entry zero d data_im).
  apply (for_upto_closed
           (fun c => written f (c * output_h d * output_w d) data_col)).
  { nia. } { by rewrite written_0. } { unfold col_size. f_equal. }
  intros c Hc.
  apply (for_upto_closed
           (fun h => written f ((c * output_h d + h) * output_w d) data_col)).
  { lia. } { f_equal. lia. } { f_equal. lia. }
  intros h Hh.
  apply (for_upto_closed
           (fun w => written f ((c * output_h d + h) * output_w d + w)
                       data_col)).
  { lia. } { f_equal. lia. } { f_equal. lia. }
  intros w Hw.
  assert (Hpos : 0 <= (c * output_h d + h) * output_w d + w
                 < Z.of_nat (length data_col)).
  { rewrite Hlcol. unfold col_size.
    pose proof (flat_bound c _ h (output_h d) Hc Hh).
    pose proof (flat_bound _ _ w (output_w d) H14 Hw). lia. }
  assert (Hq : 0 <= c `div` kernel_w d) by (apply Z.div_pos; lia).
  assert (Hq' : 0 <= c `div` kernel_h d) by (apply Z.div_pos; lia).
  rewrite (Z.quot_div_nonneg c (kernel_w d)) by lia.
  rewrite (Z.quot_div_nonneg c (kernel_h d)) by lia.
  rewrite (Z.quot_div_nonneg _ (kernel_w d)) by lia.
  rewrite !Z.rem_mod_nonneg by lia.
  rewrite (div_swap c (kernel_h d) (kernel_w d)) by lia.
  set (kh := (c `div` kernel_w d) `mod` kernel_h d).
  set (kw := c `mod` kernel_w d).
  set (c_im := (c `div` kernel_w d) `div` kernel_h d).
  transitivity
    (v ← (if in_image d (input_row d kh h) (input_col d kw w)
          then load data_im
                 (im_index d c_im (input_row d kh h) (input_col d kw w))
          else Some zero);
     store (written f ((c * output_h d + h) * output_w d + w) data_col)
           ((c * output_h d + h) * output_w d + w) v).
  { unfold in_image, input_row, input_col, im_index. rewrite !Z.geb_leb.
    by destruct (_ && _). }
  rewrite tap_value_load; [|done|].
  - simpl. rewrite Z.add_assoc. apply store_written; [done|].
    unfold f. by rewrite spec_col_entry_flat.
  - apply div_range; [lia|]. apply div_range; lia.
Qed.

End ForwardBaseline.

(** ** Forward transform, zero-padding path *)

(** The locals [nip], [kh], [kw] of the fast paths decode [k] the way the
    baseline path does. *)
Lemma kernel_decode k C KH KW :
  0 < KH -> 0 < KW -> 0 <= k < C * KH * KW ->
  let nip := k `quot` (KH * KW) in
  let rest := k `rem` (KH * KW) in
  let kh := rest `quot` KW in
  let kw := rest `rem` KW in
  k = (nip * KH + kh) * KW + kw /\
  0 <= nip < C /\ 0 <= kh < KH /\ 0 <= kw < KW /\
  (k `div` KW) `div` KH = nip /\ (k `div` KW) `mod` KH = kh /\
  k `mod` KW = kw.
Proof.
  intros HKH HKW Hk nip rest kh kw.
  assert (Hrest : 0 <= rest < KH * KW).
  { unfold rest. rewrite Z.rem_mod_nonneg by nia. apply Z.mod_pos_bound. nia. }
  assert (Hnip : 0 <= nip < C).
  { unfold nip. rewrite Z.quot_div_nonneg by nia. apply div_range; nia. }
  assert (Hkh : 0 <= kh < KH).
  { unfold kh. rewrite Z.quot_div_nonneg by lia. apply div_range; lia. }
  assert (Hkw : 0 <= kw < KW).
  { unfold kw. rewrite Z.rem_mod_nonneg by lia. apply Z.mod_pos_bound. lia. }
  assert (Hk1 : k = KH * KW * nip + rest) by (apply Z.quot_rem'; nia).
  assert (Hk2 : rest = KW * kh + kw) by (apply Z.quot_rem'; nia).
  assert (Hdec : k = (nip * KH + kh) * KW + kw) by lia.
  split; [done|]. do 3 (split; [done|]).
  rewrite Hdec at 1 2 3.
  rewrite flat_div, flat_mod by done.
  by rewrite flat_div, flat_mod by done.
Qed.

(** Under [window_fits], the last window starts inside the padded input. *)
Lemma output_h_fits d :
  1 <= stride_h d -> window_fits d ->
  1 <= output_h d /\
  (output_h d - 1) * stride_h d
  <= height d + pad_t d + pad_b d - dkernel_h d.
Proof.
  intros Hs [Hf _]. unfold output_h. fold (dkernel_h d).
  replace (height d + pad_b d + pad_t d - dkernel_h d)
    with (height d + pad_t d + pad_b d - dkernel_h d) by lia.
  set (n := height d + pad_t d + pad_b d - dkernel_h d) in *.
  rewrite Z.quot_div_nonneg by lia.
  pose proof (Z.mul_div_le n (stride_h d) ltac:(lia)).
  pose proof (Z.div_pos n (stride_h d) ltac:(lia) ltac:(lia)). lia.
Qed.

Lemma output_w_fits d :
  1 <= stride_w d -> window_fits d ->
  1 <= output_w d /\
  (output_w d - 1) * stride_w d
  <= width d + pad_l d + pad_r d - dkernel_w d.
Proof.
  intros Hs [_ Hf]. unfold output_w. fold (dkernel_w d).
  set (n := width d + pad_l d + pad_r d - dkernel_w d) in *.
  rewrite Z.quot_div_nonneg by lia.
  pose proof (Z.mul_div_le n (stride_w d) ltac:(lia)).
  pose proof (Z.div_pos n (stride_w d) ltac:(lia) ltac:(lia)). lia.
Qed.

Lemma input_row_fits d kh oh :
  valid_window d -> window_fits d ->
  0 <= kh < kernel_h d -> 0 <= oh < output_h d ->
  - pad_t d <= input_row d kh oh < height d + pad_b d.
Proof.
  intros Hv Hf Hkh Hoh.
  destruct Hv as (? & ? & ? & ? & ? & ? & ? & ? & ? & ? & ? & ? & ? & ? & ?).
  destruct (output_h_fits d ltac:(done) Hf) as [_ Hle].
  unfold input_row, dkernel_h in *. nia.
Qed.

Lemma input_col_fits d kw ow :
  valid_window d -> window_fits d ->
  0 <= kw < kernel_w d -> 0 <= ow < output_w d ->
  - pad_l d <= input_col d kw ow < width d + pad_r d.
Proof.
  intros Hv Hf Hkw How.
  destruct Hv as (? & ? & ? & ? & ? & ? & ? & ? & ? & ? & ? & ? & ? & ? & ?).
  destruct (output_w_fits d ltac:(done) Hf) as [_ Hle].
  unfold input_col, dkernel_w in *. nia.
Qed.

Lemma zero_pad_no_dilation_true d :
  zero_pad_no_dilation d = true ->
  dilation_h d = 1 /\ dilation_w d = 1 /\ pad_l d = 0 /\ pad_r d = 0 /\
  pad_t d = 0 /\ pad_b d = 0.
Proof.
  unfold zero_pad_no_dilation. intros H.
  repeat (apply andb_prop in H as [H ?]). lia.
Qed.

Lemma im_index_bound d c r q :
  0 <= c < channels d -> 0 <= r < height d -> 0 <= q < width d ->
  0 <= im_index d c r q < im_size d.
Proof.
  intros Hc Hr Hq. unfold im_index, im_size.
  pose proof (flat_bound c _ r _ Hc Hr).
  pose proof (flat_bound _ _ q _ H Hq). lia.
Qed.

Section ForwardZeroPad.
Context {T : Type}.
Variable zero : T.
Implicit Types (data_im data_col : list T) (d : window).

Lemma tap_value_in d data_im c kh kw oh ow :
  0 <= input_row d kh oh < height d -> 0 <= input_col d kw ow < width d ->
  tap_value zero d data_im c kh kw oh ow
  = at_index zero data_im
      (im_index d c (input_row d kh oh) (input_col d kw ow)).
Proof.
  intros Hr Hq. unfold tap_value, in_image.
  repeat match goal with
  | |- context [?a <=? ?b] => destruct (Z.leb_spec a b); [|lia]
  | |- context [?a <? ?b] => destruct (Z.ltb_spec a b); [|lia]
  end. done.
Qed.

(** When the kernel fits, the zero-padding path writes the same values as
    the baseline path: every mapped coordinate is in the image. *)
Lemma Im2col_zero_pad_spec d data_im data_col :
  valid_window d -> window_fits d -> zero_pad_no_dilation d = true ->
  Z.of_nat (length data_im) = im_size d ->
  Z.of_nat (length data_col) = col_size d ->
  Im2col_zero_pad d data_im data_col
  = Some (spec_Im2col_NCHW zero d data_im data_col).
Proof.
  intros Hv Hf Hz Hlim Hlcol. unfold Im2col_zero_pad, spec_Im2col_NCHW.
  pose proof (fun kh oh => input_row_fits d kh oh Hv Hf) as Hrow.
  pose proof (fun kw ow => input_col_fits d kw ow Hv Hf) as Hcol.
  destruct Hv as (? & ? & ? & ? & ? & ? & ? & ? & ? & ? & ? & ? & ? & ? & ?).
  apply zero_pad_no_dilation_true in Hz as (Hdh & Hdw & Hpl & Hpr & Hpt & Hpb).
  set (f := spec_col_entry zero d data_im).
  apply (for_upto_closed
           (fun k => written f (k * output_h d * output_w d) data_col)).
  { nia. } { by rewrite written_0. } { unfold col_size. f_equal. }
  intros k Hk. cbv zeta.
  destruct (kernel_decode k (channels d) (kernel_h d) (kernel_w d)
              ltac:(lia) ltac:(lia) Hk)
    as (Hdec & Hnip & Hkh & Hkw & Ec & Ekh & Ekw).
  cbv zeta in *.
  set (nip := k `quot` (kernel_h d * kernel_w d)) in *.
  set (kh := (k `rem` (kernel_h d * kernel_w d)) `quot` kernel_w d) in *.
  set (kw := (k `rem` (kernel_h d * kernel_w d)) `rem` kernel_w d) in *.
  assert (Hf0 : forall y x, 0 <= y < output_h d -> 0 <= x < output_w d ->
            f ((k * output_h d + y) * output_w d + x)
            = at_index zero data_im
                (nip * (height d * width d)
                 + ((y * stride_h d + kh) * width d + kw + x * stride_w d))
            /\ 0 <= y * stride_h d + kh < height d
            /\ 0 <= kw + x * stride_w d < width d).
  { intros y x Hy Hx. unfold f. rewrite spec_col_entry_flat by done.
    rewrite Ec, Ekh, Ekw.
    specialize (Hrow kh y Hkh Hy). specialize (Hcol kw x Hkw Hx).
    unfold input_row in Hrow. unfold input_col in Hcol.
    rewrite tap_value_in by (unfold input_row, input_col; lia).
    split; [|lia]. f_equal. unfold im_index, input_row, input_col. lia. }
  clearbody nip kh kw.
  apply (for_upto_closed
           (fun y => written f ((k * output_h d + y) * output_w d) data_col)).
  { lia. } { f_equal. lia. } { f_equal. lia. }
  intros y Hy.
  assert (Hblock : forall x, 0 <= x <= output_w d ->
            0 <= (k * output_h d + y) * output_w d + x
            <= Z.of_nat (length data_col)).
  { intros x Hx. rewrite Hlcol. unfold col_size.
    pose proof (flat_bound k _ y (output_h d) Hk Hy). nia. }
  assert (Hsrc : forall x, 0 <= x < output_w d ->
            0 <= nip * (height d * width d)
                 + ((y * stride_h d + kh) * width d + kw + x * stride_w d)
            < Z.of_nat (length data_im)).
  { intros x Hx. destruct (Hf0 y x Hy Hx) as (_ & Hr & Hq).
    pose proof (im_index_bound d nip _ _ Hnip Hr Hq) as Hb.
    unfold im_index in Hb. lia. }
  replace (nip * (kernel_h d * kernel_w d * output_h d * output_w d)
           + kh * (kernel_w d * output_h d * output_w d)
           + kw * (output_h d * output_w d))
    with (k * output_h d * output_w d) by (rewrite Hdec; lia).
  destruct (Z.eqb_spec (stride_w d) 1) as [Hs1|Hs1].
  - replace (k * output_h d * output_w d + y * output_w d)
      with ((k * output_h d + y) * output_w d) by lia.
    replace ((k * output_h d + (y + 1)) * output_w d)
      with ((k * output_h d + y) * output_w d + output_w d) by lia.
    pose proof (Hblock 0) as Hb0. pose proof (Hblock (output_w d)) as Hb1.
    pose proof (Hsrc 0) as Hs0. pose proof (Hsrc (output_w d - 1)) as Hs2.
    apply (memcpy_written zero); try lia.
    intros j Hj. destruct (Hf0 y j Hy Hj) as (-> & _). f_equal. lia.
  - apply (for_upto_closed
             (fun x => written f ((k * output_h d + y) * output_w d + x)
                         data_col)).
    { lia. } { f_equal. lia. } { f_equal. lia. }
    intros x Hx.
    replace (k * output_h d * output_w d + (y * output_w d + x))
      with ((k * output_h d + y) * output_w d + x) by lia.
    replace ((k * output_h d + y) * output_w d + (x + 1))
      with ((k * output_h d + y) * output_w d + x + 1) by lia.
    pose proof (Hblock x) as Hb0. pose proof (Hblock (x + 1)) as Hb1.
    pose proof (Hsrc x Hx) as Hs0.
    apply (memcpy_written zero); try lia.
    intros j Hj. assert (j = 0) as -> by lia.
    rewrite Z.add_0_r.
    destruct (Hf0 y x Hy Hx) as (-> & _). f_equal. lia.
Qed.

End ForwardZeroPad.

(** ** The unsigned comparison and the range of the coordinates *)

(** The unsigned comparison as the two signed ones. *)
Lemma is_a_ge_zero_and_a_lt_b_spec a b :
  is_int a -> is_int b -> 0 <= b ->
  is_a_ge_zero_and_a_lt_b a b = (0 <=? a) && (a <? b).
Proof.
  unfold is_int, is_a_ge_zero_and_a_lt_b, to_unsigned. intros Ha Hb Hb0.
  rewrite (Z.mod_small b) by lia.
  destruct (Z.leb_spec 0 a) as [Hpos|Hneg]; simpl.
  - by rewrite (Z.mod_small a) by lia.
  - replace (a mod 2 ^ 32) with (a + 2 ^ 32).
    + apply Z.ltb_ge. lia.
    + symmetry. rewrite <- (Z.mod_add a 1 (2 ^ 32)) by lia.
      apply Z.mod_small. lia.
Qed.

(** Without [window_fits] the only window is the one at the origin. *)
Lemma output_h_reach d :
  valid_window d ->
  (output_h d - 1) * stride_h d
  <= Z.max 0 (height d + pad_t d + pad_b d - dkernel_h d).
Proof.
  intros Hv.
  destruct Hv as (? & ? & ? & ? & ? & ? & ? & ? & ? & ? & ? & ? & ? & Hoh & ?).
  revert Hoh. unfold output_h. fold (dkernel_h d).
  replace (height d + pad_b d + pad_t d - dkernel_h d)
    with (height d + pad_t d + pad_b d - dkernel_h d) by lia.
  set (n := height d + pad_t d + pad_b d - dkernel_h d).
  intros Hoh. destruct (Z.le_gt_cases 0 n) as [Hn|Hn].
  - rewrite Z.quot_div_nonneg by lia.
    pose proof (Z.mul_div_le n (stride_h d) ltac:(lia)). lia.
  - pose proof (Z.quot_opp_l n (stride_h d) ltac:(lia)) as Hq.
    pose proof (Z.quot_pos (- n) (stride_h d) ltac:(lia) ltac:(lia)). lia.
Qed.

Lemma output_w_reach d :
  valid_window d ->
  (output_w d - 1) * stride_w d
  <= Z.max 0 (width d + pad_l d + pad_r d - dkernel_w d).
Proof.
  intros Hv.
  destruct Hv as (? & ? & ? & ? & ? & ? & ? & ? & ? & ? & ? & ? & ? & ? & How).
  revert How. unfold output_w. fold (dkernel_w d).
  set (n := width d + pad_l d + pad_r d - dkernel_w d).
  intros How. destruct (Z.le_gt_cases 0 n) as [Hn|Hn].
  - rewrite Z.quot_div_nonneg by lia.
    pose proof (Z.mul_div_le n (stride_w d) ltac:(lia)). lia.
  - pose proof (Z.quot_opp_l n (stride_w d) ltac:(lia)) as Hq.
    pose proof (Z.quot_pos (- n) (stride_w d) ltac:(lia) ltac:(lia)). lia.
Qed.

(** The coordinates the equal-padding paths test are values of type
    [int]. *)
Lemma input_row_int d kh oh :
  valid_window d -> int_window d ->
  0 <= kh < kernel_h d -> 0 <= oh < output_h d ->
  is_int (input_row d kh oh).
Proof.
  intros Hv (Hi1 & Hi2 & Hi3 & Hi4) Hkh Hoh.
  pose proof (output_h_reach d Hv) as Hr.
  destruct Hv as (? & ? & ? & ? & ? & ? & ? & ? & ? & ? & ? & ? & ? & ? & ?).
  unfold is_int, input_row, dkernel_h in *. nia.
Qed.

Lemma input_col_int d kw ow :
  valid_window d -> int_window d ->
  0 <= kw < kernel_w d -> 0 <= ow < output_w d ->
  is_int (input_col d kw ow).
Proof.
  intros Hv (Hi1 & Hi2 & Hi3 & Hi4) Hkw How.
  pose proof (output_w_reach d Hv) as Hr.
  destruct Hv as (? & ? & ? & ? & ? & ? & ? & ? & ? & ? & ? & ? & ? & ? & ?).
  unfold is_int, input_col, dkernel_w in *. nia.
Qed.

Lemma height_int d :
  valid_window d -> int_window d -> is_int (height d) /\ is_int (width d).
Proof.
  intros Hv (Hi1 & Hi2 & Hi3 & Hi4).
  destruct Hv as (? & ? & ? & ? & ? & ? & ? & ? & ? & ? & ? & ? & ? & ? & ?).
  unfold is_int in *. lia.
Qed.

(** ** Forward transform, equal-padding path *)

Lemma col_index_bound d c kh kw oh ow :
  0 <= c < channels d -> 0 <= kh < kernel_h d -> 0 <= kw < kernel_w d ->
  0 <= oh < output_h d -> 0 <= ow < output_w d ->
  0 <= col_index d c kh kw oh ow < col_size d.
Proof.
  intros Hc Hkh Hkw Hoh How. unfold col_index, col_size.
  pose proof (flat_bound c _ kh _ Hc Hkh) as H1.
  pose proof (flat_bound _ _ kw _ H1 Hkw) as H2.
  pose proof (flat_bound _ _ oh _ H2 Hoh) as H3.
  pose proof (flat_bound _ _ ow _ H3 How) as H4. lia.
Qed.

Lemma col_index_succ d c kh kw oh ow :
  col_index d c kh kw oh ow + 1 = col_index d c kh kw oh (ow + 1).
Proof. unfold col_index. lia. Qed.

Lemma col_index_ow d c kh kw oh :
  col_index d c kh kw oh (output_w d) = col_index d c kh kw (oh + 1) 0.
Proof. unfold col_index. lia. Qed.

Lemma col_index_oh d c kh kw :
  col_index d c kh kw (output_h d) 0 = col_index d c kh (kw + 1) 0 0.
Proof. unfold col_index. lia. Qed.

Lemma col_index_kw d c kh :
  col_index d c kh (kernel_w d) 0 0 = col_index d c (kh + 1) 0 0 0.
Proof. unfold col_index. lia. Qed.

Lemma col_index_kh d c :
  col_index d c (kernel_h d) 0 0 0 = col_index d (c + 1) 0 0 0 0.
Proof. unfold col_index. lia. Qed.

Lemma col_index_0 d : col_index d 0 0 0 0 0 = 0.
Proof. unfold col_index. lia. Qed.

Lemma col_index_size d : col_index d (channels d) 0 0 0 0 = col_size d.
Proof. unfold col_index, col_size. lia. Qed.

(** Equality of two loop states, component by component. *)
Ltac state_eq :=
  repeat match goal with
  | |- Some _ = Some _ => f_equal
  | |- (_, _) = (_, _) => f_equal
  end; try done; try (unfold input_row, input_col; lia).

Section ForwardEqualPad.
Context {T : Type}.
Variable zero : T.
Implicit Types (data_im data_col : list T) (d : window).

Lemma spec_col_entry_col_index d data_im c kh kw oh ow :
  0 <= kh < kernel_h d -> 0 <= kw < kernel_w d ->
  0 <= oh < output_h d -> 0 <= ow < output_w d ->
  spec_col_entry zero d data_im (col_index d c kh kw oh ow)
  = tap_value zero d data_im c kh kw oh ow.
Proof.
  intros Hkh Hkw Hoh How. unfold col_index.
  rewrite spec_col_entry_flat by done.
  rewrite flat_div, flat_mod by done.
  by rewrite flat_div, flat_mod by done.
Qed.

(** The equal-padding path: the running pointers and coordinates have the
    closed forms [col_index], [input_row] and [input_col]. *)
Lemma Im2col_equal_pad_spec d data_im data_col :
  valid_window d -> int_window d ->
  Z.of_nat (length data_im) = im_size d ->
  Z.of_nat (length data_col) = col_size d ->
  Im2col_equal_pad zero d data_im data_col
  = Some (spec_Im2col_NCHW zero d data_im data_col).
Proof.
  intros Hv Hi Hlim Hlcol. unfold Im2col_equal_pad, spec_Im2col_NCHW.
  pose proof (fun kh oh => input_row_int d kh oh Hv Hi) as Hrow.
  pose proof (fun kw ow => input_col_int d kw ow Hv Hi) as Hcol.
  destruct (height_int d Hv Hi) as [Hhi Hwi].
  destruct Hv as (? & ? & ? & ? & ? & ? & ? & ? & ? & ? & ? & ? & ? & ? & ?).
  set (f := spec_col_entry zero d data_im). cbv zeta.
  erewrite (for_countdown_closed
    (fun c => (c * (height d * width d),
               written f (col_index d c 0 0 0 0) data_col,
               col_index d c 0 0 0 0))); [ | done | | reflexivity | ].
  { simpl. by rewrite col_index_size. }
  { rewrite col_index_0, written_0. state_eq. }
  intros c Hc. cbv beta iota.
  erewrite (for_upto_closed
    (fun kr => (written f (col_index d c kr 0 0 0) data_col,
                col_index d c kr 0 0 0))); [ | lia | done | reflexivity | ].
  { simpl. rewrite col_index_kh. state_eq. }
  intros kr Hkr.
  apply (for_upto_closed
    (fun kc => (written f (col_index d c kr kc 0 0) data_col,
                col_index d c kr kc 0 0))); [lia|done| |].
  { by rewrite col_index_kw. }
  intros kc Hkc. cbv beta iota.
  erewrite (for_countdown_closed
    (fun oh => (input_row d kr oh,
                written f (col_index d c kr kc oh 0) data_col,
                col_index d c kr kc oh 0))); [ | lia | | reflexivity | ].
  { simpl. by rewrite col_index_oh. }
  { state_eq. }
  intros oh Hoh. cbv beta iota.
  rewrite is_a_ge_zero_and_a_lt_b_spec by (auto || lia).
  assert (Hpos : forall ow, 0 <= ow < output_w d ->
            0 <= col_index d c kr kc oh ow < Z.of_nat (length data_col)).
  { intros ow How. rewrite Hlcol. by apply col_index_bound. }
  destruct ((0 <=? input_row d kr oh) && (input_row d kr oh <? height d))
    eqn:Hin; simpl negb; cbv iota.
  - erewrite (for_countdown_closed
      (fun ow => (input_col d kc ow,
                  written f (col_index d c kr kc oh ow) data_col,
                  col_index d c kr kc oh ow))); [ | lia | | reflexivity | ].
    { simpl. rewrite col_index_ow. state_eq. }
    { state_eq. }
    intros ow How. cbv beta iota.
    rewrite is_a_ge_zero_and_a_lt_b_spec by (auto || lia).
    transitivity
      (v ← (if in_image d (input_row d kr oh) (input_col d kc ow)
            then load data_im
                   (im_index d c (input_row d kr oh) (input_col d kc ow))
            else Some zero);
       data_col' ← store (written f (col_index d c kr kc oh ow) data_col)
                         (col_index d c kr kc oh ow) v;
       Some (input_col d kc ow + stride_w d, data_col',
             col_index d c kr kc oh ow + 1)).
    { unfold in_image. rewrite Hin. simpl andb.
      destruct ((0 <=? input_col d kc ow) && (input_col d kc ow <? width d));
        simpl; [|done].
      replace (c * (height d * width d)
               + (input_row d kr oh * width d + input_col d kc ow))
        with (im_index d c (input_row d kr oh) (input_col d kc ow))
        by (unfold im_index; lia).
      by destruct (load _ _). }
    rewrite tap_value_load by done. simpl.
    rewrite (store_written f) by
      (auto; unfold f; by rewrite spec_col_entry_col_index).
    simpl. rewrite col_index_succ. state_eq.
  - erewrite (for_countdown_closed
      (fun ow => (written f (col_index d c kr kc oh ow) data_col,
                  col_index d c kr kc oh ow)));
      [ | lia | done | reflexivity | ].
    { simpl. rewrite col_index_ow. state_eq. }
    intros ow How. cbv beta iota.
    rewrite (store_written f).
    + simpl. by rewrite col_index_succ.
    + auto.
    + unfold f. rewrite spec_col_entry_col_index by done.
      unfold tap_value, in_image. by rewrite Hin.
Qed.

End ForwardEqualPad.

(** ** Forward transform, channel-minor *)

Lemma im_index_NHWC_bound d r q c :
  0 <= r < height d -> 0 <= q < width d -> 0 <= c < channels d ->
  0 <= im_index_NHWC d r q c < im_size d.
Proof.
  intros Hr Hq Hc. unfold im_index_NHWC, im_size.
  pose proof (flat_bound r _ q _ Hr Hq) as H1.
  pose proof (flat_bound _ _ c _ H1 Hc). lia.
Qed.

Lemma col_index_NHWC_bound d oh ow kh kw c :
  0 <= oh < output_h d -> 0 <= ow < output_w d ->
  0 <= kh < kernel_h d -> 0 <= kw < kernel_w d -> 0 <= c < channels d ->
  0 <= col_index_NHWC d oh ow kh kw c < col_size d.
Proof.
  intros Hoh How Hkh Hkw Hc. unfold col_index_NHWC, col_size.
  rewrite width_col_output_w.
  pose proof (flat_bound oh _ ow _ Hoh How) as H1.
  pose proof (flat_bound _ _ kh _ H1 Hkh) as H2.
  pose proof (flat_bound _ _ kw _ H2 Hkw) as H3.
  pose proof (flat_bound _ _ c _ H3 Hc) as H4. lia.
Qed.

Lemma im_block_NHWC_bound d r q :
  0 <= channels d -> 0 <= r < height d -> 0 <= q < width d ->
  0 <= (r * width d + q) * channels d /\
  (r * width d + q) * channels d + channels d <= im_size d.
Proof.
  intros Hc Hr Hq. unfold im_size.
  pose proof (flat_bound r _ q _ Hr Hq) as H1. nia.
Qed.

Lemma col_block_NHWC_bound d oh ow kh kw :
  0 <= channels d ->
  0 <= oh < output_h d -> 0 <= ow < output_w d ->
  0 <= kh < kernel_h d -> 0 <= kw < kernel_w d ->
  0 <= col_index_NHWC d oh ow kh kw 0 /\
  col_index_NHWC d oh ow kh kw 0 + channels d <= col_size d.
Proof.
  intros Hc Hoh How Hkh Hkw. unfold col_index_NHWC, col_size.
  rewrite width_col_output_w.
  pose proof (flat_bound oh _ ow _ Hoh How) as H1.
  pose proof (flat_bound _ _ kh _ H1 Hkh) as H2.
  pose proof (flat_bound _ _ kw _ H2 Hkw) as H3.
  set (t := ((oh * output_w d + ow) * kernel_h d + kh) * kernel_w d + kw) in *.
  replace (channels d * kernel_h d * kernel_w d * output_h d * output_w d)
    with (output_h d * output_w d * kernel_h d * kernel_w d * channels d)
    by lia.
  nia.
Qed.

Lemma col_index_NHWC_c d oh ow kh kw c :
  col_index_NHWC d oh ow kh kw 0 + c = col_index_NHWC d oh ow kh kw c.
Proof. unfold col_index_NHWC. lia. Qed.

Lemma col_index_NHWC_kw d oh ow kh kw :
  col_index_NHWC d oh ow kh kw (channels d)
  = col_index_NHWC d oh ow kh (kw + 1) 0.
Proof. unfold col_index_NHWC. lia. Qed.

Lemma col_index_NHWC_kh d oh ow kh :
  col_index_NHWC d oh ow kh (kernel_w d) 0
  = col_index_NHWC d oh ow (kh + 1) 0 0.
Proof. unfold col_index_NHWC. lia. Qed.

Lemma col_index_NHWC_ow d oh ow :
  col_index_NHWC d oh ow (kernel_h d) 0 0
  = col_index_NHWC d oh (ow + 1) 0 0 0.
Proof. unfold col_index_NHWC. lia. Qed.

Lemma col_index_NHWC_oh d oh :
  col_index_NHWC d oh (width_col d) 0 0 0
  = col_index_NHWC d (oh + 1) 0 0 0 0.
Proof. unfold col_index_NHWC. lia. Qed.

Lemma col_index_NHWC_0 d : col_index_NHWC d 0 0 0 0 0 = 0.
Proof. unfold col_index_NHWC. lia. Qed.

Lemma col_index_NHWC_size d :
  col_index_NHWC d (height_col d) 0 0 0 0 = col_size d.
Proof.
  unfold col_index_NHWC, col_size.
  rewrite height_col_output_h, width_col_output_w. lia.
Qed.

Lemma geb_in_image d r q :
  (r >=? 0) && (r <? height d) && (q >=? 0) && (q <? width d)
  = in_image d r q.
Proof. unfold in_image. by rewrite !Z.geb_leb. Qed.

Section ForwardNHWC.
Context {T : Type}.
Variable zero : T.
Implicit Types (data_im data_col : list T) (d : window).

Lemma spec_col_entry_NHWC_col_index d data_im oh ow kh kw c :
  0 <= ow < output_w d -> 0 <= kh < kernel_h d -> 0 <= kw < kernel_w d ->
  0 <= c < channels d ->
  spec_col_entry_NHWC zero d data_im (col_index_NHWC d oh ow kh kw c)
  = tap_value_NHWC zero d data_im oh ow kh kw c.
Proof.
  intros How Hkh Hkw Hc. unfold spec_col_entry_NHWC, col_index_NHWC.
  rewrite <- width_col_output_w in How.
  rewrite flat_div, flat_mod by done.
  rewrite flat_div, flat_mod by done.
  rewrite flat_div, flat_mod by done.
  by rewrite flat_div, flat_mod by done.
Qed.

(** The channel-minor forward transform writes one run per kernel tap. *)
Lemma Im2col_NHWC_spec d data_im data_col :
  valid_window d ->
  Z.of_nat (length data_im) = im_size d ->
  Z.of_nat (length data_col) = col_size d ->
  Im2col_NHWC zero d data_im data_col
  = Some (spec_Im2col_NHWC zero d data_im data_col).
Proof.
  intros Hv Hlim Hlcol. unfold Im2col_NHWC, spec_Im2col_NHWC.
  destruct Hv as (? & ? & ? & ? & ? & ? & ? & ? & ? & ? & ? & ? & ? & ? & ?).
  set (g := spec_col_entry_NHWC zero d data_im). cbv zeta.
  assert (Hhc : 1 <= height_col d) by (by rewrite height_col_output_h).
  assert (Hwc : 1 <= width_col d) by (by rewrite width_col_output_w).
  erewrite (for_upto_closed
    (fun h => (input_row d 0 h,
               written g (col_index_NHWC d h 0 0 0 0) data_col,
               col_index_NHWC d h 0 0 0 0))); [ | lia | | reflexivity | ].
  { simpl. by rewrite col_index_NHWC_size. }
  { rewrite col_index_NHWC_0, written_0. state_eq. }
  intros h Hh. cbv beta iota.
  erewrite (for_upto_closed
    (fun w => (input_col d 0 w,
               written g (col_index_NHWC d h w 0 0 0) data_col,
               col_index_NHWC d h w 0 0 0))); [ | lia | | reflexivity | ].
  { simpl. rewrite col_index_NHWC_oh. state_eq. }
  { state_eq. }
  intros w Hw. cbv beta iota. unfold dkernel_h, dkernel_w.
  erewrite (for_step_closed
    (fun kh => (written g (col_index_NHWC d h w kh 0 0) data_col,
                col_index_NHWC d h w kh 0 0)));
    [ | lia | lia | done | reflexivity | ].
  { simpl. rewrite col_index_NHWC_ow. state_eq. }
  intros kh Hkh.
  apply (for_step_closed
    (fun kw => (written g (col_index_NHWC d h w kh kw 0) data_col,
                col_index_NHWC d h w kh kw 0))); [lia|lia|done| |].
  { by rewrite col_index_NHWC_kh. }
  intros kw Hkw. cbv beta iota.
  replace (input_row d 0 h + kh * dilation_h d) with (input_row d kh h)
    by (unfold input_row; lia).
  replace (input_col d 0 w + kw * dilation_w d) with (input_col d kw w)
    by (unfold input_col; lia).
  rewrite geb_in_image.
  rewrite height_col_output_h in Hh. rewrite width_col_output_w in Hw.
  pose proof (col_block_NHWC_bound d h w kh kw ltac:(done) Hh Hw Hkh Hkw)
    as Hb.
  assert (Hg : forall j, 0 <= j < channels d ->
            g (col_index_NHWC d h w kh kw 0 + j)
            = tap_value_NHWC zero d data_im h w kh kw j).
  { intros j Hj. unfold g.
    by rewrite col_index_NHWC_c, spec_col_entry_NHWC_col_index. }
  rewrite <- col_index_NHWC_kw.
  rewrite <- (col_index_NHWC_c d h w kh kw (channels d)).
  destruct (in_image d (input_row d kh h) (input_col d kw w)) eqn:Hin.
  - assert (Hr : 0 <= input_row d kh h < height d /\
                 0 <= input_col d kw w < width d).
    { unfold in_image in Hin.
      repeat (apply andb_prop in Hin as [Hin ?]). lia. }
    destruct Hr as [Hr Hq].
    pose proof (im_block_NHWC_bound d _ _ ltac:(done) Hr Hq) as Hi.
    rewrite (memcpy_written zero g); [done|lia..|].
    intros j Hj. rewrite Hg by done. unfold tap_value_NHWC.
    rewrite Hin. f_equal.
  - rewrite (memset0_written zero g); [done|lia..|].
    intros j Hj. rewrite Hg by done. unfold tap_value_NHWC.
    by rewrite Hin.
Qed.

End ForwardNHWC.

(** ** Inverse transform, fallback path *)

Section InverseFallback.
Context {T : Type}.
Variable zero : T.
Variable add : T -> T -> T.
Implicit Types (data_im data_col : list T) (d : window).

Lemma accumulate_insert data_im i data_col j :
  0 <= i < Z.of_nat (length data_im) ->
  0 <= j < Z.of_nat (length data_col) ->
  accumulate add data_im i data_col j
  = Some (<[Z.to_nat i := add (at_index zero data_im i)
                              (at_index zero data_col j)]> data_im).
Proof.
  intros Hi Hj. unfold accumulate.
  rewrite (load_at_index zero data_im i Hi). simpl.
  rewrite (load_at_index zero data_col j Hj). simpl.
  unfold store.
  destruct (Z.leb_spec 0 i); [|lia].
  by destruct (Z.ltb_spec i (Z.of_nat (length data_im))); [|lia].
Qed.

Lemma length_spec_acc_entry d data_col data_im idx :
  length (spec_acc_entry zero add d data_col data_im idx) = length data_im.
Proof.
  unfold spec_acc_entry. cbv zeta.
  destruct (in_image _ _ _); [apply length_insert|done].
Qed.

(** The destination after the entries of flat index below [n]. *)
Local Abbreviation acc_upto d data_col n :=
  (foldl (spec_acc_entry zero add d data_col)
         (replicate (Z.to_nat (im_size d)) zero) (seqZ 0 n)).

Lemma length_foldl_acc d data_col (l : list Z) data_im :
  length (foldl (spec_acc_entry zero add d data_col) data_im l)
  = length data_im.
Proof.
  revert data_im. induction l as [|x l IH]; intros data_im; [done|].
  simpl. by rewrite IH, length_spec_acc_entry.
Qed.

Lemma length_acc_upto d data_col n :
  0 <= im_size d -> Z.of_nat (length (acc_upto d data_col n)) = im_size d.
Proof.
  intros Hs. rewrite length_foldl_acc, length_replicate. lia.
Qed.

Lemma acc_upto_succ d data_col n :
  0 <= n ->
  acc_upto d data_col (n + 1)
  = spec_acc_entry zero add d data_col (acc_upto d data_col n) n.
Proof.
  intros Hn. rewrite seqZ_app by lia. by rewrite foldl_app.
Qed.

Lemma spec_acc_entry_col_index d data_col data_im c kh kw oh ow :
  0 <= kh < kernel_h d -> 0 <= kw < kernel_w d ->
  0 <= oh < output_h d -> 0 <= ow < output_w d ->
  spec_acc_entry zero add d data_col data_im (col_index d c kh kw oh ow)
  = if in_image d (input_row d kh oh) (input_col d kw ow)
    then <[Z.to_nat (im_index d c (input_row d kh oh) (input_col d kw ow)) :=
             add (at_index zero data_im
                    (im_index d c (input_row d kh oh) (input_col d kw ow)))
                 (at_index zero data_col (col_index d c kh kw oh ow))]>
           data_im
    else data_im.
Proof.
  intros Hkh Hkw Hoh How.
  set (idx := col_index d c kh kw oh ow).
  assert (E1 : idx `mod` output_w d = ow)
    by (unfold idx, col_index; by rewrite flat_mod).
  assert (E2 : idx `div` output_w d
               = ((c * kernel_h d + kh) * kernel_w d + kw) * output_h d + oh)
    by (unfold idx, col_index; by rewrite flat_div).
  unfold spec_acc_entry. cbv zeta. rewrite E1, E2.
  rewrite flat_div, flat_mod by done.
  rewrite flat_div, flat_mod by done.
  by rewrite flat_div, flat_mod by done.
Qed.

(** One step of any of the three paths. *)
Lemma accumulate_entry d data_col c kh kw oh ow :
  0 <= c < channels d -> 0 <= kh < kernel_h d -> 0 <= kw < kernel_w d ->
  0 <= oh < output_h d -> 0 <= ow < output_w d ->
  0 <= im_size d ->
  Z.of_nat (length data_col) = col_size d ->
  (if in_image d (input_row d kh oh) (input_col d kw ow)
   then accumulate add (acc_upto d data_col (col_index d c kh kw oh ow))
          (im_index d c (input_row d kh oh) (input_col d kw ow))
          data_col (col_index d c kh kw oh ow)
   else Some (acc_upto d data_col (col_index d c kh kw oh ow)))
  = Some (acc_upto d data_col (col_index d c kh kw oh ow + 1)).
Proof.
  intros Hc Hkh Hkw Hoh How Hs Hlcol.
  pose proof (col_index_bound d c kh kw oh ow Hc Hkh Hkw Hoh How) as Hidx.
  rewrite acc_upto_succ by lia.
  rewrite spec_acc_entry_col_index by done.
  destruct (in_image d _ _) eqn:Hin; [|done].
  apply accumulate_insert; [|lia].
  rewrite length_acc_upto by done.
  unfold in_image in Hin. repeat (apply andb_prop in Hin as [Hin ?]).
  apply im_index_bound; lia.
Qed.

(** The fallback path performs the steps of the specification in the order
    of the flat index. *)
Lemma Col2im_fallback_spec d data_col :
  valid_window d ->
  Z.of_nat (length data_col) = col_size d ->
  Col2im_fallback add d data_col (replicate (Z.to_nat (im_size d)) zero)
  = Some (spec_Col2im_NCHW zero add d data_col).
Proof.
  intros Hv Hlcol. unfold Col2im_fallback, spec_Col2im_NCHW. cbv zeta.
  rewrite height_col_output_h, width_col_output_w.
  destruct Hv as (? & ? & ? & ? & ? & ? & ? & ? & ? & ? & ? & ? & ? & ? & ?).
  assert (Hs : 0 <= im_size d) by (unfold im_size; nia).
  apply (for_upto_closed
           (fun k => acc_upto d data_col (k * output_h d * output_w d))).
  { nia. } { done. } { done. }
  intros k Hk.
  destruct (kernel_decode k (channels d) (kernel_h d) (kernel_w d)
              ltac:(lia) ltac:(lia) Hk)
    as (Hdec & Hnip & Hkh & Hkw & Ec & Ekh & Ekw).
  cbv zeta in Hdec, Hnip, Hkh, Hkw, Ec, Ekh, Ekw.
  assert (Hq : 0 <= k `div` kernel_w d) by (apply Z.div_pos; lia).
  rewrite (Z.quot_div_nonneg k (kernel_w d)) by lia.
  rewrite (Z.quot_div_nonneg k (kernel_h d)) by lia.
  assert (Hq' : 0 <= k `div` kernel_h d) by (apply Z.div_pos; lia).
  rewrite (Z.quot_div_nonneg _ (kernel_w d)) by lia.
  rewrite !Z.rem_mod_nonneg by lia.
  rewrite (div_swap k (kernel_h d) (kernel_w d)) by lia.
  rewrite Ec, Ekh, Ekw.
  set (c := k `quot` (kernel_h d * kernel_w d)) in *.
  set (kh := (k `rem` (kernel_h d * kernel_w d)) `quot` kernel_w d) in *.
  set (kw := (k `rem` (kernel_h d * kernel_w d)) `rem` kernel_w d) in *.
  clearbody c kh kw.
  assert (Hidx : forall oh ow,
            (k * output_h d + oh) * output_w d + ow
            = col_index d c kh kw oh ow).
  { intros oh ow. unfold col_index. by rewrite <- Hdec. }
  apply (for_upto_closed
           (fun oh => acc_upto d data_col (col_index d c kh kw oh 0))).
  { lia. } { rewrite <- Hidx. do 2 f_equal. lia. }
  { rewrite <- Hidx. do 2 f_equal. lia. }
  intros oh Hoh.
  apply (for_upto_closed
           (fun ow => acc_upto d data_col (col_index d c kh kw oh ow))).
  { lia. } { done. } { by rewrite col_index_ow. }
  intros ow How.
  rewrite geb_in_image, Hidx, <- col_index_succ.
  by rewrite <- (accumulate_entry d data_col c kh kw oh ow) by done.
Qed.

End InverseFallback.

(** ** Inverse transform, fast paths *)

Lemma in_image_true d r q :
  0 <= r < height d -> 0 <= q < width d -> in_image d r q = true.
Proof.
  intros Hr Hq. unfold in_image.
  repeat match goal with
  | |- context [?a <=? ?b] => destruct (Z.leb_spec a b); [|lia]
  | |- context [?a <? ?b] => destruct (Z.ltb_spec a b); [|lia]
  end. done.
Qed.

Section InverseFastPaths.
Context {T : Type}.
Variable zero : T.
Variable add : T -> T -> T.
Implicit Types (data_im data_col : list T) (d : window).

Local Abbreviation acc_upto d data_col n :=
  (foldl (spec_acc_entry zero add d data_col)
         (replicate (Z.to_nat (im_size d)) zero) (seqZ 0 n)).

(** When the kernel fits, the zero-padding path performs the same steps:
    no entry is skipped. *)
Lemma Col2im_zero_pad_spec d data_col :
  valid_window d -> window_fits d -> zero_pad_no_dilation d = true ->
  Z.of_nat (length data_col) = col_size d ->
  Col2im_zero_pad add d data_col (replicate (Z.to_nat (im_size d)) zero)
  = Some (spec_Col2im_NCHW zero add d data_col).
Proof.
  intros Hv Hf Hz Hlcol. unfold Col2im_zero_pad, spec_Col2im_NCHW.
  pose proof (fun kh oh => input_row_fits d kh oh Hv Hf) as Hrow.
  pose proof (fun kw ow => input_col_fits d kw ow Hv Hf) as Hcol.
  destruct Hv as (? & ? & ? & ? & ? & ? & ? & ? & ? & ? & ? & ? & ? & ? & ?).
  apply zero_pad_no_dilation_true in Hz as (Hdh & Hdw & Hpl & Hpr & Hpt & Hpb).
  assert (Hs : 0 <= im_size d) by (unfold im_size; nia).
  apply (for_upto_closed
           (fun k => acc_upto d data_col (k * output_h d * output_w d))).
  { nia. } { done. } { done. }
  intros k Hk. cbv zeta.
  destruct (kernel_decode k (channels d) (kernel_h d) (kernel_w d)
              ltac:(lia) ltac:(lia) Hk)
    as (Hdec & Hnip & Hkh & Hkw & _).
  cbv zeta in Hdec, Hnip, Hkh, Hkw.
  set (nip := k `quot` (kernel_h d * kernel_w d)) in *.
  set (kh := (k `rem` (kernel_h d * kernel_w d)) `quot` kernel_w d) in *.
  set (kw := (k `rem` (kernel_h d * kernel_w d)) `rem` kernel_w d) in *.
  clearbody nip kh kw.
  assert (Hstep : forall y x, 0 <= y < output_h d -> 0 <= x < output_w d ->
            accumulate add (acc_upto d data_col (col_index d nip kh kw y x))
              (nip * (height d * width d)
               + ((y * stride_h d + kh) * width d + kw + x * stride_w d))
              data_col
              (nip * (kernel_h d * kernel_w d * output_h d * output_w d)
               + kh * (kernel_w d * output_h d * output_w d)
               + kw * (output_h d * output_w d) + (y * output_w d + x))
            = Some (acc_upto d data_col (col_index d nip kh kw y (x + 1)))).
  { intros y x Hy Hx.
    rewrite <- col_index_succ.
    rewrite <- (accumulate_entry zero add d data_col nip kh kw y x) by done.
    specialize (Hrow kh y Hkh Hy). specialize (Hcol kw x Hkw Hx).
    rewrite in_image_true by lia.
    f_equal; unfold im_index, col_index, input_row, input_col; lia. }
  apply (for_upto_closed
           (fun y => acc_upto d data_col (col_index d nip kh kw y 0))).
  { lia. }
  { do 2 f_equal. unfold col_index. rewrite <- Hdec. lia. }
  { do 2 f_equal. unfold col_index. rewrite <- Hdec. lia. }
  intros y Hy.
  destruct (Z.eqb_spec (stride_w d) 1) as [Hs1|Hs1]; cbv zeta.
  - apply (for_upto_closed
             (fun x => acc_upto d data_col (col_index d nip kh kw y x))).
    { lia. } { done. } { by rewrite col_index_ow. }
    intros x Hx. rewrite <- (Hstep y x Hy Hx).
    f_equal; lia.
  - apply (for_upto_closed
             (fun x => acc_upto d data_col (col_index d nip kh kw y x))).
    { lia. } { done. } { by rewrite col_index_ow. }
    intros x Hx. by rewrite <- (Hstep y x Hy Hx).
Qed.

(** Entries that are all skipped leave the destination as it is. *)
Lemma acc_upto_skip d data_col n (m : nat) :
  0 <= n ->
  (forall j data_im, n <= j < n + Z.of_nat m ->
     spec_acc_entry zero add d data_col data_im j = data_im) ->
  acc_upto d data_col (n + Z.of_nat m) = acc_upto d data_col n.
Proof.
  intros Hn. induction m as [|m IH]; intros Hskip.
  - do 2 f_equal. lia.
  - replace (n + Z.of_nat (S m)) with (n + Z.of_nat m + 1) by lia.
    rewrite acc_upto_succ by lia. rewrite Hskip by lia.
    apply IH. intros j data_im Hj. apply Hskip. lia.
Qed.

(** The equal-padding path performs the same steps; a row outside the
    image is skipped as a whole. *)
Lemma Col2im_equal_pad_spec d data_col :
  valid_window d -> int_window d ->
  Z.of_nat (length data_col) = col_size d ->
  Col2im_equal_pad add d data_col (replicate (Z.to_nat (im_size d)) zero)
  = Some (spec_Col2im_NCHW zero add d data_col).
Proof.
  intros Hv Hi Hlcol. unfold Col2im_equal_pad, spec_Col2im_NCHW.
  pose proof (fun kh oh => input_row_int d kh oh Hv Hi) as Hrow.
  pose proof (fun kw ow => input_col_int d kw ow Hv Hi) as Hcol.
  destruct (height_int d Hv Hi) as [Hhi Hwi].
  destruct Hv as (? & ? & ? & ? & ? & ? & ? & ? & ? & ? & ? & ? & ? & ? & ?).
  assert (Hs : 0 <= im_size d) by (unfold im_size; nia).
  cbv zeta.
  erewrite (for_countdown_closed
    (fun c => (c * (height d * width d), col_index d c 0 0 0 0,
               acc_upto d data_col (col_index d c 0 0 0 0))));
    [ | done | | reflexivity | ].
  { simpl. by rewrite col_index_size. }
  { rewrite col_index_0. state_eq. }
  intros c Hc. cbv beta iota.
  erewrite (for_upto_closed
    (fun kr => (col_index d c kr 0 0 0,
                acc_upto d data_col (col_index d c kr 0 0 0))));
    [ | lia | done | reflexivity | ].
  { simpl. rewrite col_index_kh. state_eq. }
  intros kr Hkr.
  apply (for_upto_closed
    (fun kc => (col_index d c kr kc 0 0,
                acc_upto d data_col (col_index d c kr kc 0 0))));
    [lia|done| |].
  { by rewrite col_index_kw. }
  intros kc Hkc. cbv beta iota.
  erewrite (for_countdown_closed
    (fun oh => (input_row d kr oh, col_index d c kr kc oh 0,
                acc_upto d data_col (col_index d c kr kc oh 0))));
    [ | lia | | reflexivity | ].
  { simpl. by rewrite col_index_oh. }
  { state_eq. }
  intros oh Hoh. cbv beta iota.
  rewrite is_a_ge_zero_and_a_lt_b_spec by (auto || lia).
  destruct ((0 <=? input_row d kr oh) && (input_row d kr oh <? height d))
    eqn:Hin; simpl negb; cbv iota.
  - erewrite (for_countdown_closed
      (fun ow => (input_col d kc ow, col_index d c kr kc oh ow,
                  acc_upto d data_col (col_index d c kr kc oh ow))));
      [ | lia | | reflexivity | ].
    { simpl. rewrite col_index_ow. state_eq. }
    { state_eq. }
    intros ow How. cbv beta iota.
    rewrite is_a_ge_zero_and_a_lt_b_spec by (auto || lia).
    replace (c * (height d * width d)
             + (input_row d kr oh * width d + input_col d kc ow))
      with (im_index d c (input_row d kr oh) (input_col d kc ow))
      by (unfold im_index; lia).
    pose proof (accumulate_entry zero add d data_col c kr kc oh ow
                  Hc Hkr Hkc Hoh How Hs Hlcol) as Hstep.
    unfold in_image in Hstep. rewrite Hin in Hstep. simpl andb in Hstep.
    rewrite Hstep. simpl. rewrite col_index_succ. state_eq.
  - simpl. rewrite <- col_index_ow.
    replace (col_index d c kr kc oh (output_w d))
      with (col_index d c kr kc oh 0 + Z.of_nat (Z.to_nat (output_w d)))
      by (unfold col_index; lia).
    rewrite acc_upto_skip.
    + state_eq.
    + pose proof (col_index_bound d c kr kc oh 0). lia.
    + intros j data_im Hj.
      replace j with (col_index d c kr kc oh (j - col_index d c kr kc oh 0))
        by (unfold col_index; lia).
      rewrite spec_acc_entry_col_index by (done || lia).
      unfold in_image. by rewrite Hin.
Qed.

End InverseFastPaths.

(** ** The block sums of [Add] *)

Section BlockAdd.
Context {T : Type}.
Variable add : T -> T -> T.
Implicit Types (im col : list T).

(** The block of [n] sums at offset [patch] of [im]. *)
Local Abbreviation block_sum im patch col p n :=
  (take patch im
   ++ zip_with add (take n (drop patch im)) (take n (drop p col))
   ++ drop (patch + n) im).

Lemma length_block_zip im patch col p (n : nat) :
  (patch + n <= length im)%nat -> (p + n <= length col)%nat ->
  length (zip_with add (take n (drop patch im)) (take n (drop p col))) = n.
Proof.
  intros Him Hcol.
  rewrite length_zip_with, !length_take, !length_drop. lia.
Qed.

Lemma lookup_block_sum im patch col p (n : nat) :
  (patch + n <= length im)%nat -> (p + n <= length col)%nat ->
  block_sum im patch col p n !! (patch + n)%nat = im !! (patch + n)%nat.
Proof.
  intros Him Hcol.
  rewrite lookup_app_r by (rewrite length_take; lia).
  rewrite length_take.
  rewrite lookup_app_r by (rewrite length_block_zip; lia).
  rewrite length_block_zip by done.
  rewrite lookup_drop. f_equal. lia.
Qed.

Lemma block_sum_step im patch col p (n : nat) x y :
  im !! (patch + n)%nat = Some x -> col !! (p + n)%nat = Some y ->
  <[(patch + n)%nat := add x y]> (block_sum im patch col p n)
  = block_sum im patch col p (S n).
Proof.
  intros Hx Hy.
  pose proof (lookup_lt_Some _ _ _ Hx). pose proof (lookup_lt_Some _ _ _ Hy).
  rewrite insert_app_r_alt by (rewrite length_take; lia).
  rewrite length_take.
  rewrite insert_app_r_alt by (rewrite length_block_zip; lia).
  rewrite length_block_zip by lia.
  replace (patch + n - patch `min` length im - n)%nat with 0%nat by lia.
  rewrite (drop_S im x (patch + n)) by done. simpl.
  rewrite (take_S_r (drop patch im) n x) by (by rewrite lookup_drop).
  rewrite (take_S_r (drop p col) n y) by (by rewrite lookup_drop).
  rewrite zip_with_app by (rewrite !length_take, !length_drop; lia).
  simpl. rewrite <- !app_assoc. simpl.
  do 4 f_equal. lia.
Qed.

End BlockAdd.

(** ** Inverse transform, channel-minor *)

Section InverseNHWC.
Context {T : Type}.
Variable zero : T.
Variable add : T -> T -> T.
Implicit Types (data_im data_col : list T) (d : window).

Local Abbreviation accN_upto d data_col n :=
  (foldl (spec_acc_entry_NHWC zero add d data_col)
         (replicate (Z.to_nat (im_size d)) zero) (seqZ 0 n)).

Lemma length_spec_acc_entry_NHWC d data_col data_im idx :
  length (spec_acc_entry_NHWC zero add d data_col data_im idx)
  = length data_im.
Proof.
  unfold spec_acc_entry_NHWC. cbv zeta.
  destruct (in_image _ _ _); [apply length_insert|done].
Qed.

Lemma length_foldl_acc_NHWC d data_col (l : list Z) data_im :
  length (foldl (spec_acc_entry_NHWC zero add d data_col) data_im l)
  = length data_im.
Proof.
  revert data_im. induction l as [|x l IH]; intros data_im; [done|].
  simpl. by rewrite IH, length_spec_acc_entry_NHWC.
Qed.

Lemma spec_acc_entry_NHWC_col_index d data_col data_im oh ow kh kw c :
  0 <= ow < output_w d -> 0 <= kh < kernel_h d -> 0 <= kw < kernel_w d ->
  0 <= c < channels d ->
  spec_acc_entry_NHWC zero add d data_col data_im
    (col_index_NHWC d oh ow kh kw c)
  = if in_image d (input_row d kh oh) (input_col d kw ow)
    then <[Z.to_nat (im_index_NHWC d (input_row d kh oh)
                       (input_col d kw ow) c) :=
             add (at_index zero data_im
                    (im_index_NHWC d (input_row d kh oh)
                       (input_col d kw ow) c))
                 (at_index zero data_col (col_index_NHWC d oh ow kh kw c))]>
           data_im
    else data_im.
Proof.
  intros How Hkh Hkw Hc. rewrite <- width_col_output_w in How.
  set (idx := col_index_NHWC d oh ow kh kw c).
  assert (E1 : idx `mod` channels d = c)
    by (unfold idx, col_index_NHWC; by rewrite flat_mod).
  assert (E2 : idx `div` channels d
               = ((oh * width_col d + ow) * kernel_h d + kh) * kernel_w d
                 + kw)
    by (unfold idx, col_index_NHWC; by rewrite flat_div).
  unfold spec_acc_entry_NHWC. cbv zeta. rewrite E1, E2.
  rewrite flat_div, flat_mod by done.
  rewrite flat_div, flat_mod by done.
  by rewrite flat_div, flat_mod by done.
Qed.

(** The entries of one kernel tap that lies in the image add up to the
    block sum that [Add] computes. *)
Lemma foldl_acc_NHWC_run d data_col data_im oh ow kh kw (m : nat) :
  0 <= oh < output_h d -> 0 <= ow < output_w d ->
  0 <= kh < kernel_h d -> 0 <= kw < kernel_w d ->
  Z.of_nat m <= channels d ->
  in_image d (input_row d kh oh) (input_col d kw ow) = true ->
  Z.of_nat (length data_im) = im_size d ->
  Z.of_nat (length data_col) = col_size d ->
  foldl (spec_acc_entry_NHWC zero add d data_col) data_im
        (seqZ (col_index_NHWC d oh ow kh kw 0) (Z.of_nat m))
  = take (Z.to_nat (im_index_NHWC d (input_row d kh oh)
                      (input_col d kw ow) 0)) data_im
    ++ zip_with add
         (take m (drop (Z.to_nat (im_index_NHWC d (input_row d kh oh)
                                    (input_col d kw ow) 0)) data_im))
         (take m (drop (Z.to_nat (col_index_NHWC d oh ow kh kw 0)) data_col))
    ++ drop (Z.to_nat (im_index_NHWC d (input_row d kh oh)
                         (input_col d kw ow) 0) + m) data_im.
Proof.
  intros Hoh How Hkh Hkw Hm Hin Hlim Hlcol.
  assert (Hr : 0 <= input_row d kh oh < height d /\
               0 <= input_col d kw ow < width d).
  { unfold in_image in Hin.
    repeat (apply andb_prop in Hin as [Hin ?]). lia. }
  destruct Hr as [Hr Hq].
  assert (Hc0 : 0 <= channels d) by lia.
  pose proof (im_block_NHWC_bound d _ _ Hc0 Hr Hq) as Hpatch.
  pose proof (col_block_NHWC_bound d oh ow kh kw Hc0 Hoh How Hkh Hkw) as Hp.
  assert (Hpatch' : 0 <= im_index_NHWC d (input_row d kh oh)
                            (input_col d kw ow) 0 /\
                    im_index_NHWC d (input_row d kh oh)
                      (input_col d kw ow) 0 + channels d <= im_size d)
    by (unfold im_index_NHWC; lia).
  clear Hpatch.
  assert (Epatch : forall c, im_index_NHWC d (input_row d kh oh)
                               (input_col d kw ow) c
                             = im_index_NHWC d (input_row d kh oh)
                                 (input_col d kw ow) 0 + c).
  { intros c. unfold im_index_NHWC. lia. }
  set (patch := im_index_NHWC d (input_row d kh oh) (input_col d kw ow) 0)
    in *.
  induction m as [|m IH].
  - simpl. rewrite Nat.add_0_r. by rewrite take_drop.
  - rewrite seqZ_S, foldl_app, IH by lia. simpl.
    rewrite (col_index_NHWC_c d oh ow kh kw (Z.of_nat m)).
    rewrite spec_acc_entry_NHWC_col_index by (done || lia).
    rewrite Hin, Epatch.
    rewrite <- (col_index_NHWC_c d oh ow kh kw (Z.of_nat m)).
    set (p := col_index_NHWC d oh ow kh kw 0) in *.
    destruct (lookup_lt_is_Some_2 data_im (Z.to_nat patch + m)) as [x Hx];
      [lia|].
    destruct (lookup_lt_is_Some_2 data_col (Z.to_nat p + m)) as [y Hy];
      [lia|].
    replace (Z.to_nat (patch + Z.of_nat m)) with (Z.to_nat patch + m)%nat
      by lia.
    rewrite <- (block_sum_step add data_im _ data_col _ m x y Hx Hy).
    f_equal. f_equal.
    + unfold at_index, load.
      destruct (Z.leb_spec 0 (patch + Z.of_nat m)); [|lia].
      replace (Z.to_nat (patch + Z.of_nat m)) with (Z.to_nat patch + m)%nat
        by lia.
      rewrite lookup_block_sum by lia. by rewrite Hx.
    + unfold at_index, load.
      destruct (Z.leb_spec 0 (p + Z.of_nat m)); [|lia].
      replace (Z.to_nat (p + Z.of_nat m)) with (Z.to_nat p + m)%nat by lia.
      by rewrite Hy.
Qed.

Lemma accN_upto_app d data_col n m :
  0 <= n -> 0 <= m ->
  accN_upto d data_col (n + m)
  = foldl (spec_acc_entry_NHWC zero add d data_col) (accN_upto d data_col n)
          (seqZ n m).
Proof. intros Hn Hm. rewrite seqZ_app by done. by rewrite foldl_app. Qed.

Lemma foldl_acc_NHWC_skip d data_col data_im n (m : nat) :
  (forall j data_im, n <= j < n + Z.of_nat m ->
     spec_acc_entry_NHWC zero add d data_col data_im j = data_im) ->
  foldl (spec_acc_entry_NHWC zero add d data_col) data_im
        (seqZ n (Z.of_nat m)) = data_im.
Proof.
  induction m as [|m IH]; intros Hskip; [done|].
  rewrite seqZ_S, foldl_app. simpl. rewrite IH.
  - apply Hskip. lia.
  - intros j im Hj. apply Hskip. lia.
Qed.

(** One kernel tap of the channel-minor inverse transform. *)
Lemma Add_entry_NHWC d data_col oh ow kh kw :
  0 <= channels d -> 0 <= im_size d ->
  0 <= oh < output_h d -> 0 <= ow < output_w d ->
  0 <= kh < kernel_h d -> 0 <= kw < kernel_w d ->
  Z.of_nat (length data_col) = col_size d ->
  (if in_image d (input_row d kh oh) (input_col d kw ow)
   then Add add (channels d)
          (accN_upto d data_col (col_index_NHWC d oh ow kh kw 0))
          ((input_row d kh oh * width d + input_col d kw ow) * channels d)
          data_col (col_index_NHWC d oh ow kh kw 0)
          (accN_upto d data_col (col_index_NHWC d oh ow kh kw 0))
          ((input_row d kh oh * width d + input_col d kw ow) * channels d)
   else Some (accN_upto d data_col (col_index_NHWC d oh ow kh kw 0)))
  = Some (accN_upto d data_col
            (col_index_NHWC d oh ow kh kw 0 + channels d)).
Proof.
  intros Hc0 Hs Hoh How Hkh Hkw Hlcol.
  pose proof (col_block_NHWC_bound d oh ow kh kw Hc0 Hoh How Hkh Hkw) as Hp.
  rewrite accN_upto_app by lia.
  set (im := accN_upto d data_col (col_index_NHWC d oh ow kh kw 0)).
  assert (Hlim : Z.of_nat (length im) = im_size d).
  { unfold im. rewrite length_foldl_acc_NHWC, length_replicate. lia. }
  destruct (in_image d _ _) eqn:Hin.
  - assert (Hr : 0 <= input_row d kh oh < height d /\
                 0 <= input_col d kw ow < width d).
    { unfold in_image in Hin.
      repeat (apply andb_prop in Hin as [Hin ?]). lia. }
    destruct Hr as [Hr Hq].
    pose proof (im_block_NHWC_bound d _ _ Hc0 Hr Hq) as Hpatch.
    replace (channels d) with (Z.of_nat (Z.to_nat (channels d))) at 4 by lia.
    rewrite (foldl_acc_NHWC_run d data_col im oh ow kh kw) by (done || lia).
    unfold Add, in_block. rewrite Hlim, Hlcol.
    repeat match goal with
    | |- context [?a <=? ?b] => destruct (Z.leb_spec a b); [|lia]
    end. simpl. unfold im_index_NHWC. rewrite Z.add_0_r. do 4 f_equal. lia.
  - f_equal. symmetry.
    replace (channels d) with (Z.of_nat (Z.to_nat (channels d))) by lia.
    apply foldl_acc_NHWC_skip. intros j data_im Hj.
    replace j with (col_index_NHWC d oh ow kh kw
                      (j - col_index_NHWC d oh ow kh kw 0))
      by (unfold col_index_NHWC; lia).
    rewrite spec_acc_entry_NHWC_col_index by (done || lia).
    by rewrite Hin.
Qed.

(** [Set] with the constant zero over the whole destination. *)
Lemma Set_zero data_im N :
  Z.of_nat (length data_im) = N ->
  Set_ N zero data_im 0 = Some (replicate (Z.to_nat N) zero).
Proof.
  intros HN. unfold Set_, in_block.
  repeat match goal with
  | |- context [?a <=? ?b] => destruct (Z.leb_spec a b); [|lia]
  end. simpl. rewrite drop_ge by lia. by rewrite app_nil_r.
Qed.

(** The channel-minor inverse transform adds one run per kernel tap. *)
Lemma Col2im_NHWC_spec d data_col data_im :
  valid_window d ->
  Z.of_nat (length data_col) = col_size d ->
  Z.of_nat (length data_im) = im_size d ->
  Col2im_NHWC zero add d data_col data_im
  = Some (spec_Col2im_NHWC zero add d data_col).
Proof.
  intros Hv Hlcol Hlim. unfold Col2im_NHWC, spec_Col2im_NHWC. cbv zeta.
  rewrite Set_zero by (rewrite Hlim; unfold im_size; lia). simpl.
  replace (height d * width d * channels d) with (im_size d)
    by (unfold im_size; lia).
  destruct Hv as (? & ? & ? & ? & ? & ? & ? & ? & ? & ? & ? & ? & ? & ? & ?).
  assert (Hs : 0 <= im_size d) by (unfold im_size; nia).
  assert (Hhc : 1 <= height_col d) by (by rewrite height_col_output_h).
  assert (Hwc : 1 <= width_col d) by (by rewrite width_col_output_w).
  erewrite (for_upto_closed
    (fun h => (input_row d 0 h, col_index_NHWC d h 0 0 0 0,
               accN_upto d data_col (col_index_NHWC d h 0 0 0 0))));
    [ | lia | | reflexivity | ].
  { simpl. by rewrite col_index_NHWC_size. }
  { rewrite col_index_NHWC_0. state_eq. }
  intros h Hh. cbv beta iota.
  erewrite (for_upto_closed
    (fun w => (input_col d 0 w, col_index_NHWC d h w 0 0 0,
               accN_upto d data_col (col_index_NHWC d h w 0 0 0))));
    [ | lia | | reflexivity | ].
  { simpl. rewrite col_index_NHWC_oh. state_eq. }
  { state_eq. }
  intros w Hw. cbv beta iota. unfold dkernel_h, dkernel_w.
  erewrite (for_step_closed
    (fun kh => (col_index_NHWC d h w kh 0 0,
                accN_upto d data_col (col_index_NHWC d h w kh 0 0))));
    [ | lia | lia | done | reflexivity | ].
  { simpl. rewrite col_index_NHWC_ow. state_eq. }
  intros kh Hkh.
  apply (for_step_closed
    (fun kw => (col_index_NHWC d h w kh kw 0,
                accN_upto d data_col (col_index_NHWC d h w kh kw 0))));
    [lia|lia|done| |].
  { by rewrite col_index_NHWC_kh. }
  intros kw Hkw. cbv beta iota zeta.
  replace (input_row d 0 h + kh * dilation_h d) with (input_row d kh h)
    by (unfold input_row; lia).
  replace (input_col d 0 w + kw * dilation_w d) with (input_col d kw w)
    by (unfold input_col; lia).
  rewrite geb_in_image.
  rewrite height_col_output_h in Hh. rewrite width_col_output_w in Hw.
  rewrite (Add_entry_NHWC d data_col h w kh kw) by (done || lia).
  simpl. rewrite <- col_index_NHWC_kw.
  by rewrite <- (col_index_NHWC_c d h w kh kw (channels d)).
Qed.

End InverseNHWC.

(** ** Inverse after forward, stride one *)

(** An invariant indexed by the position carried along a fold. *)
Lemma foldl_seqZ_invariant {A : Type} (P : Z -> A -> Prop)
    (step : A -> Z -> A) (a : Z) (m : nat) (x : A) :
  P a x ->
  (forall j y, a <= j < a + Z.of_nat m -> P j y -> P (j + 1) (step y j)) ->
  P (a + Z.of_nat m) (foldl step x (seqZ a (Z.of_nat m))).
Proof.
  intros Hx. induction m as [|m IH]; intros Hstep.
  - simpl. by rewrite Z.add_0_r.
  - rewrite seqZ_S, foldl_app. simpl.
    replace (a + Z.of_nat (S m)) with (a + Z.of_nat m + 1) by lia.
    apply Hstep; [lia|]. apply IH. intros j y Hj. apply Hstep. lia.
Qed.

Lemma im_index_inj d c r q c' r' q' :
  0 <= r < height d -> 0 <= q < width d ->
  0 <= r' < height d -> 0 <= q' < width d ->
  im_index d c r q = im_index d c' r' q' ->
  c = c' /\ r = r' /\ q = q'.
Proof.
  intros Hr Hq Hr' Hq' E. unfold im_index in E.
  assert (Eq : q = q').
  { rewrite <- (flat_mod (c * height d + r) q (width d) Hq).
    rewrite E. by apply flat_mod. }
  assert (E1 : c * height d + r = c' * height d + r').
  { rewrite <- (flat_div (c * height d + r) q (width d) Hq).
    rewrite E. by apply flat_div. }
  assert (Er : r = r').
  { rewrite <- (flat_mod c r (height d) Hr).
    rewrite E1. by apply flat_mod. }
  assert (Ec : c = c').
  { rewrite <- (flat_div c r (height d) Hr).
    rewrite E1. by apply flat_div. }
  done.
Qed.

Lemma block_decode j OW :
  0 < OW -> 0 <= j ->
  j = (j `div` OW) * OW + j `mod` OW /\ 0 <= j `mod` OW < OW /\
  0 <= j `div` OW.
Proof.
  intros HOW Hj. split; [|split].
  - rewrite Z.mul_comm. apply Z.div_mod. lia.
  - apply Z.mod_pos_bound. lia.
  - apply Z.div_pos; lia.
Qed.

Section Adjoint.
Context {T : Type}.
Variable zero : T.
Variable add : T -> T -> T.
Implicit Types (data_im data_col : list T) (d : window).

Lemma interior_sizes d :
  unit_window d ->
  output_h d = height d - kernel_h d + 1 /\
  output_w d = width d - kernel_w d + 1 /\
  window_fits d /\
  (forall kh oh, input_row d kh oh = oh + kh) /\
  (forall kw ow, input_col d kw ow = ow + kw).
Proof.
  intros (Hv & Hsh & Hsw & Hz).
  apply zero_pad_no_dilation_true in Hz as (Hdh & Hdw & Hpl & Hpr & Hpt & Hpb).
  destruct Hv as
    (? & ? & ? & ? & ? & ? & ? & ? & ? & ? & ? & ? & ? & Hoh & How).
  unfold output_h, output_w, window_fits, dkernel_h, dkernel_w in *.
  rewrite Hsh, Hsw, Hdh, Hdw, Hpl, Hpr, Hpt, Hpb, !Z.quot_1_r in *.
  repeat split; try lia.
  - intros kh oh. unfold input_row. lia.
  - intros kw ow. unfold input_col. lia.
Qed.

Lemma length_spec_Im2col_NCHW d data_im col0 :
  valid_window d -> Z.of_nat (length col0) = col_size d ->
  Z.of_nat (length (spec_Im2col_NCHW zero d data_im col0)) = col_size d.
Proof.
  intros Hv Hlcol.
  unfold spec_Im2col_NCHW. rewrite length_written; [done|].
  rewrite Hlcol. unfold col_size.
  destruct Hv as (? & ? & ? & ? & ? & ? & ? & ? & ? & ? & ? & ? & ? & ? & ?).
  nia.
Qed.

Lemma col_at_index d data_im col0 c kh kw oh ow :
  unit_window d -> Z.of_nat (length col0) = col_size d ->
  0 <= c < channels d -> 0 <= kh < kernel_h d -> 0 <= kw < kernel_w d ->
  0 <= oh < output_h d -> 0 <= ow < output_w d ->
  at_index zero (spec_Im2col_NCHW zero d data_im col0)
    (col_index d c kh kw oh ow)
  = at_index zero data_im (im_index d c (oh + kh) (ow + kw)).
Proof.
  intros Hu Hlcol Hc Hkh Hkw Hoh How.
  destruct (interior_sizes d Hu) as (EOH & EOW & Hf & Erow & Ecol).
  pose proof (col_index_bound d c kh kw oh ow Hc Hkh Hkw Hoh How) as Hb.
  unfold at_index at 1, load.
  destruct (Z.leb_spec 0 (col_index d c kh kw oh ow)); [|lia].
  unfold spec_Im2col_NCHW. rewrite written_all by done.
  rewrite list_lookup_fmap.
  rewrite (lookup_seqZ_lt 0 (col_size d)) by lia. simpl.
  rewrite Z2Nat.id, Z.add_0_l by lia.
  rewrite spec_col_entry_col_index by done.
  rewrite tap_value_in; rewrite ?Erow, ?Ecol; [done|lia..].
Qed.

(** The entries of one kernel offset reach the sample [t] once when the
    channel is [c0], and not at all otherwise. *)
Lemma interior_block d data_im col0 c0 r0 q0 c kh kw im v :
  unit_window d -> Z.of_nat (length col0) = col_size d ->
  0 <= c0 < channels d ->
  kernel_h d - 1 <= r0 <= height d - kernel_h d ->
  kernel_w d - 1 <= q0 <= width d - kernel_w d ->
  0 <= c < channels d -> 0 <= kh < kernel_h d -> 0 <= kw < kernel_w d ->
  Z.of_nat (length im) = im_size d ->
  im !! Z.to_nat (im_index d c0 r0 q0) = Some v ->
  let col := spec_Im2col_NCHW zero d data_im col0 in
  let t := im_index d c0 r0 q0 in
  let s := at_index zero data_im t in
  let im' := foldl (spec_acc_entry zero add d col) im
               (seqZ (col_index d c kh kw 0 0)
                     (Z.of_nat (Z.to_nat (output_h d * output_w d)))) in
  Z.of_nat (length im') = im_size d /\
  im' !! Z.to_nat t = Some (if decide (c = c0) then add v s else v).
Proof.
  intros Hu Hlcol Hc0 Hr0 Hq0 Hc Hkh Hkw Hlen Hv0. cbv zeta.
  set (col := spec_Im2col_NCHW zero d data_im col0).
  set (t := im_index d c0 r0 q0) in *.
  set (s := at_index zero data_im t).
  destruct (interior_sizes d Hu) as (EOH & EOW & Hf & Erow & Ecol).
  pose proof Hu as (Hv & _).
  pose proof Hv as
    (? & ? & ? & ? & ? & ? & ? & ? & ? & ? & ? & ? & ? & Hoh1 & How1).
  set (hit := col_index d c kh kw (r0 - kh) (q0 - kw)).
  set (base := col_index d c kh kw 0 0).
  assert (Ht : 0 <= t < im_size d).
  { apply im_index_bound; lia. }
  pose proof (foldl_seqZ_invariant
    (fun j im => Z.of_nat (length im) = im_size d /\
       im !! Z.to_nat t
       = Some (if decide (c = c0 /\ hit < j) then add v s else v))
    (spec_acc_entry zero add d col) base
    (Z.to_nat (output_h d * output_w d)) im) as Hinv.
  cbv beta in Hinv. cbv zeta.
  destruct Hinv as [Hl Hval].
  - split; [done|]. rewrite Hv0. f_equal.
    destruct (decide _) as [[_ Hlt]|]; [|done].
    unfold hit, base, col_index in Hlt. nia.
  - intros j y Hj [Hly Hy].
    rewrite length_spec_acc_entry. split; [done|].
    destruct (block_decode (j - base) (output_w d) ltac:(lia) ltac:(lia))
      as (Edec & How & Hohpos).
    set (oh := (j - base) `div` output_w d) in *.
    set (ow := (j - base) `mod` output_w d) in *.
    assert (Hoh : 0 <= oh < output_h d).
    { split; [done|]. apply Z.div_lt_upper_bound; nia. }
    assert (Ej : j = col_index d c kh kw oh ow).
    { unfold base, col_index in *. lia. }
    clearbody oh ow. subst j.
    rewrite spec_acc_entry_col_index by done.
    rewrite Erow, Ecol, in_image_true by lia.
    destruct (decide (im_index d c (oh + kh) (ow + kw) = t)) as [Et|Et].
    + apply im_index_inj in Et as (-> & Er & Eq); [|lia..].
      assert (oh = r0 - kh) as -> by lia.
      assert (ow = q0 - kw) as -> by lia.
      unfold col. rewrite col_at_index by (done || lia).
      replace (r0 - kh + kh) with r0 by lia.
      replace (q0 - kw + kw) with q0 by lia.
      fold hit. fold t. fold s.
      rewrite list_lookup_insert_eq by lia.
      unfold at_index, load. destruct (Z.leb_spec 0 t); [|lia].
      rewrite Hy. simpl. unfold hit.
      repeat case_decide; (done || lia).
    + rewrite list_lookup_insert_ne by
        (pose proof (im_index_bound d c (oh + kh) (ow + kw)); lia).
      rewrite Hy. f_equal.
      assert (Hne : c = c0 -> col_index d c kh kw oh ow <> hit).
      { intros -> Eidx. apply Et. unfold t. f_equal.
        - assert (oh = r0 - kh); [|lia].
          unfold hit, col_index in Eidx.
          assert (E' : (((c0 * kernel_h d + kh) * kernel_w d + kw)
                        * output_h d + oh) * output_w d + ow
                       = (((c0 * kernel_h d + kh) * kernel_w d + kw)
                          * output_h d + (r0 - kh)) * output_w d + (q0 - kw))
            by lia.
          apply (f_equal (fun z => z `div` output_w d)) in E'.
          rewrite !flat_div in E' by lia. lia.
        - assert (ow = q0 - kw); [|lia].
          unfold hit, col_index in Eidx.
          apply (f_equal (fun z => z `mod` output_w d)) in Eidx.
          rewrite !flat_mod in Eidx by lia. lia. }
      destruct (decide (c = c0 /\ hit < col_index d c kh kw oh ow));
        destruct (decide (c = c0 /\ hit < col_index d c kh kw oh ow + 1));
        try done; lia.
  - split; [done|]. rewrite Hval. f_equal.
    assert (Hend : hit < base + Z.of_nat (Z.to_nat (output_h d * output_w d))).
    { unfold hit, base, col_index. nia. }
    repeat case_decide; (done || lia).
Qed.

(** After [k] blocks, the sample holds as many copies of itself as there
    were kernel offsets of its channel among them. *)
Lemma interior_blocks d data_im col0 c0 r0 q0 (k : nat) :
  unit_window d -> Z.of_nat (length col0) = col_size d ->
  0 <= c0 < channels d ->
  kernel_h d - 1 <= r0 <= height d - kernel_h d ->
  kernel_w d - 1 <= q0 <= width d - kernel_w d ->
  Z.of_nat k <= channels d * kernel_h d * kernel_w d ->
  let col := spec_Im2col_NCHW zero d data_im col0 in
  let t := im_index d c0 r0 q0 in
  let s := at_index zero data_im t in
  let im := foldl (spec_acc_entry zero add d col)
              (replicate (Z.to_nat (im_size d)) zero)
              (seqZ 0 (Z.of_nat k * (output_h d * output_w d))) in
  Z.of_nat (length im) = im_size d /\
  im !! Z.to_nat t
  = Some (sum_of_copies zero add (offsets_before d c0 (Z.of_nat k)) s).
Proof.
  intros Hu Hlcol Hc0 Hr0 Hq0. cbv zeta.
  pose proof Hu as (Hv & _).
  pose proof Hv as
    (? & ? & ? & ? & ? & ? & ? & ? & ? & ? & ? & ? & ? & Hoh1 & How1).
  assert (Hs : 0 <= im_size d) by (unfold im_size; nia).
  assert (Ht : 0 <= im_index d c0 r0 q0 < im_size d).
  { destruct (interior_sizes d Hu) as (EOH & EOW & _).
    apply im_index_bound; lia. }
  induction k as [|k IH]; intros Hk; cbv zeta.
  - simpl. rewrite length_replicate. split; [lia|].
    rewrite lookup_replicate_2 by lia. f_equal.
    unfold offsets_before. replace (Z.to_nat _) with 0%nat by nia. done.
  - destruct (IH ltac:(lia)) as [Hl Hval]. clear IH.
    replace (Z.of_nat (S k) * (output_h d * output_w d))
      with (Z.of_nat k * (output_h d * output_w d)
            + Z.of_nat (Z.to_nat (output_h d * output_w d))) by nia.
    rewrite seqZ_app, foldl_app, Z.add_0_l by nia.
    destruct (kernel_decode (Z.of_nat k) (channels d) (kernel_h d)
                (kernel_w d) ltac:(lia) ltac:(lia) ltac:(lia))
      as (Hdec & Hc & Hkh & Hkw & _).
    cbv zeta in Hdec, Hc, Hkh, Hkw.
    set (c := Z.of_nat k `quot` (kernel_h d * kernel_w d)) in *.
    set (kh := (Z.of_nat k `rem` (kernel_h d * kernel_w d))
                 `quot` kernel_w d) in *.
    set (kw := (Z.of_nat k `rem` (kernel_h d * kernel_w d))
                 `rem` kernel_w d) in *.
    clearbody c kh kw.
    replace (Z.of_nat k * (output_h d * output_w d))
      with (col_index d c kh kw 0 0) in *
      by (unfold col_index; rewrite <- Hdec; lia).
    destruct (interior_block d data_im col0 c0 r0 q0 c kh kw _ _
                Hu Hlcol Hc0 Hr0 Hq0 Hc Hkh Hkw Hl Hval) as [Hl' Hval'].
    split; [done|]. rewrite Hval'. f_equal.
    pose proof (flat_bound kh _ kw _ Hkh Hkw) as Hb.
    unfold offsets_before. destruct (decide (c = c0)) as [->|Hne].
    + replace (Z.to_nat (Z.max 0 (Z.min (Z.of_nat (S k) - _) _)))
        with (S (Z.to_nat (Z.max 0 (Z.min
                (Z.of_nat k - c0 * (kernel_h d * kernel_w d))
                (kernel_h d * kernel_w d))))) by lia.
      done.
    + f_equal. assert (c < c0 \/ c0 < c) as [Hlt|Hgt] by lia; nia.
Qed.

(** Every interior sample receives [kernel_h * kernel_w] copies of
    itself. *)
Lemma interior_sum_of_copies d data_im col0 c0 r0 q0 :
  unit_window d -> Z.of_nat (length col0) = col_size d ->
  0 <= c0 < channels d ->
  kernel_h d - 1 <= r0 <= height d - kernel_h d ->
  kernel_w d - 1 <= q0 <= width d - kernel_w d ->
  spec_Col2im_NCHW zero add d (spec_Im2col_NCHW zero d data_im col0)
    !! Z.to_nat (im_index d c0 r0 q0)
  = Some (sum_of_copies zero add (Z.to_nat (kernel_h d * kernel_w d))
            (at_index zero data_im (im_index d c0 r0 q0))).
Proof.
  intros Hu Hlcol Hc0 Hr0 Hq0.
  pose proof Hu as (Hv & _).
  pose proof Hv as
    (? & ? & ? & ? & ? & ? & ? & ? & ? & ? & ? & ? & ? & Hoh1 & How1).
  destruct (interior_blocks d data_im col0 c0 r0 q0
              (Z.to_nat (channels d * kernel_h d * kernel_w d))
              Hu Hlcol Hc0 Hr0 Hq0 ltac:(lia)) as [_ Hval].
  unfold spec_Col2im_NCHW, col_size.
  replace (channels d * kernel_h d * kernel_w d * output_h d * output_w d)
    with (Z.of_nat (Z.to_nat (channels d * kernel_h d * kernel_w d))
          * (output_h d * output_w d)) by nia.
  rewrite Hval. do 2 f_equal. unfold offsets_before. nia.
Qed.

End Adjoint.

Lemma sum_of_copies_Z (n : nat) (s : Z) :
  sum_of_copies 0 Z.add n s = Z.of_nat n * s.
Proof.
  induction n as [|n IH]; [done|].
  unfold sum_of_copies in *. simpl. rewrite IH. lia.
Qed.

(** ** Dispatch, decoding of flat indices, entries that are read *)

Lemma equal_padding_of_zero_pad d :
  zero_pad_no_dilation d = true -> equal_padding d = true.
Proof.
  intros Hz.
  apply zero_pad_no_dilation_true in Hz as (_ & _ & Hl & Hr & Ht & Hb).
  unfold equal_padding. by rewrite Hl, Hr, Ht, Hb.
Qed.

(** Every flat index of the column buffer is the index of one entry. *)
Lemma col_index_decode d idx :
  valid_window d -> 0 <= idx < col_size d ->
  let ow := idx `mod` output_w d in
  let oh := (idx `div` output_w d) `mod` output_h d in
  let k := (idx `div` output_w d) `div` output_h d in
  let kw := k `mod` kernel_w d in
  let kh := (k `div` kernel_w d) `mod` kernel_h d in
  let c := (k `div` kernel_w d) `div` kernel_h d in
  0 <= c < channels d /\ 0 <= kh < kernel_h d /\ 0 <= kw < kernel_w d /\
  0 <= oh < output_h d /\ 0 <= ow < output_w d /\
  idx = col_index d c kh kw oh ow.
Proof.
  intros Hv Hidx.
  destruct Hv as (? & ? & ? & ? & ? & ? & ? & ? & ? & ? & ? & ? & ? & ? & ?).
  unfold col_size in Hidx. cbv zeta.
  set (t1 := idx `div` output_w d).
  set (t2 := t1 `div` output_h d).
  set (t3 := t2 `div` kernel_w d).
  assert (B1 : 0 <= t1 < channels d * kernel_h d * kernel_w d * output_h d)
    by (apply div_range; lia).
  assert (B2 : 0 <= t2 < channels d * kernel_h d * kernel_w d)
    by (apply div_range; lia).
  assert (B3 : 0 <= t3 < channels d * kernel_h d)
    by (apply div_range; lia).
  pose proof (Z.div_mod idx (output_w d) ltac:(lia)) as E1.
  pose proof (Z.div_mod t1 (output_h d) ltac:(lia)) as E2.
  pose proof (Z.div_mod t2 (kernel_w d) ltac:(lia)) as E3.
  pose proof (Z.div_mod t3 (kernel_h d) ltac:(lia)) as E4.
  pose proof (Z.mod_pos_bound idx (output_w d) ltac:(lia)).
  pose proof (Z.mod_pos_bound t1 (output_h d) ltac:(lia)).
  pose proof (Z.mod_pos_bound t2 (kernel_w d) ltac:(lia)).
  pose proof (Z.mod_pos_bound t3 (kernel_h d) ltac:(lia)).
  fold t1 in E1. fold t2 in E2. fold t3 in E3.
  repeat split; try lia.
  - apply Z.div_pos; lia.
  - apply Z.div_lt_upper_bound; lia.
  - unfold col_index. lia.
Qed.

Lemma col_index_NHWC_decode d idx :
  valid_window d -> 0 <= idx < col_size d ->
  let c := idx `mod` channels d in
  let t := idx `div` channels d in
  let kw := t `mod` kernel_w d in
  let kh := (t `div` kernel_w d) `mod` kernel_h d in
  let o := (t `div` kernel_w d) `div` kernel_h d in
  let ow := o `mod` width_col d in
  let oh := o `div` width_col d in
  0 <= oh < output_h d /\ 0 <= ow < output_w d /\
  0 <= kh < kernel_h d /\ 0 <= kw < kernel_w d /\ 0 <= c < channels d /\
  idx = col_index_NHWC d oh ow kh kw c.
Proof.
  intros Hv Hidx.
  destruct Hv as (? & ? & ? & ? & ? & ? & ? & ? & ? & ? & ? & ? & ? & ? & ?).
  unfold col_size in Hidx. cbv zeta. rewrite width_col_output_w.
  assert (Hc : 0 < channels d) by nia.
  set (t1 := idx `div` channels d).
  set (t2 := t1 `div` kernel_w d).
  set (t3 := t2 `div` kernel_h d).
  assert (B1 : 0 <= t1 < output_h d * output_w d * kernel_h d * kernel_w d)
    by (apply div_range; lia).
  assert (B2 : 0 <= t2 < output_h d * output_w d * kernel_h d)
    by (apply div_range; lia).
  assert (B3 : 0 <= t3 < output_h d * output_w d)
    by (apply div_range; lia).
  pose proof (Z.div_mod idx (channels d) ltac:(lia)) as E1.
  pose proof (Z.div_mod t1 (kernel_w d) ltac:(lia)) as E2.
  pose proof (Z.div_mod t2 (kernel_h d) ltac:(lia)) as E3.
  pose proof (Z.div_mod t3 (output_w d) ltac:(lia)) as E4.
  pose proof (Z.mod_pos_bound idx (channels d) ltac:(lia)).
  pose proof (Z.mod_pos_bound t1 (kernel_w d) ltac:(lia)).
  pose proof (Z.mod_pos_bound t2 (kernel_h d) ltac:(lia)).
  pose proof (Z.mod_pos_bound t3 (output_w d) ltac:(lia)).
  fold t1 in E1. fold t2 in E2. fold t3 in E3.
  repeat split; try lia.
  - apply Z.div_pos; lia.
  - apply Z.div_lt_upper_bound; lia.
  - unfold col_index_NHWC. change (width_col d) with (output_w d). lia.
Qed.

Lemma foldl_ext_seqZ {A : Type} (f g : A -> Z -> A) (a : Z) (m : nat)
    (x : A) :
  (forall j y, a <= j < a + Z.of_nat m -> f y j = g y j) ->
  foldl f x (seqZ a (Z.of_nat m)) = foldl g x (seqZ a (Z.of_nat m)).
Proof.
  induction m as [|m IH]; intros Hfg; [done|].
  rewrite seqZ_S, !foldl_app. simpl. rewrite IH.
  - apply Hfg. lia.
  - intros j y Hj. apply Hfg. lia.
Qed.

Lemma at_index_lookup {T : Type} (zero : T) (l l' : list T) i :
  0 <= i -> l !! Z.to_nat i = l' !! Z.to_nat i ->
  at_index zero l i = at_index zero l' i.
Proof.
  intros Hi E. unfold at_index, load.
  destruct (Z.leb_spec 0 i); [|lia]. by rewrite E.
Qed.

Section Dispatch.
Context {T : Type}.
Variable zero : T.
Variable add : T -> T -> T.
Implicit Types (data_im data_col : list T) (d : window).

(** What [Im2col] and [Col2im] return, whichever path is taken. *)
Lemma Im2col_NCHW_spec d data_im data_col :
  valid_window d -> int_window d ->
  (zero_pad_no_dilation d = true -> window_fits d) ->
  Z.of_nat (length data_im) = im_size d ->
  Z.of_nat (length data_col) = col_size d ->
  Im2col_NCHW zero d data_im data_col
  = Some (spec_Im2col_NCHW zero d data_im data_col).
Proof.
  intros Hv Hi Hf Hlim Hlcol. unfold Im2col_NCHW.
  destruct (zero_pad_no_dilation d) eqn:Hz.
  - apply Im2col_zero_pad_spec; auto.
  - destruct (equal_padding d).
    + by apply Im2col_equal_pad_spec.
    + by apply Im2col_baseline_spec.
Qed.

Lemma Col2im_NCHW_spec d data_col data_im :
  valid_window d -> int_window d ->
  (zero_pad_no_dilation d = true -> window_fits d) ->
  Z.of_nat (length data_col) = col_size d ->
  Z.of_nat (length data_im) = im_size d ->
  Col2im_NCHW zero add d data_col data_im
  = Some (spec_Col2im_NCHW zero add d data_col).
Proof.
  intros Hv Hi Hf Hlcol Hlim. unfold Col2im_NCHW.
  rewrite Set_zero by (rewrite Hlim; unfold im_size; lia). simpl.
  replace (height d * width d * channels d) with (im_size d)
    by (unfold im_size; lia).
  destruct (zero_pad_no_dilation d) eqn:Hz.
  - apply Col2im_zero_pad_spec; auto.
  - destruct (equal_padding d).
    + by apply Col2im_equal_pad_spec.
    + by apply Col2im_fallback_spec.
Qed.

Lemma lookup_spec_Im2col_NCHW d data_im data_col idx :
  Z.of_nat (length data_col) = col_size d -> 0 <= idx < col_size d ->
  spec_Im2col_NCHW zero d data_im data_col !! Z.to_nat idx
  = Some (spec_col_entry zero d data_im idx).
Proof.
  intros Hl Hidx. unfold spec_Im2col_NCHW.
  rewrite written_all, list_lookup_fmap by done.
  rewrite (lookup_seqZ_lt 0 (col_size d)) by lia. simpl.
  by rewrite Z2Nat.id, Z.add_0_l by lia.
Qed.

Lemma lookup_spec_Im2col_NHWC d data_im data_col idx :
  Z.of_nat (length data_col) = col_size d -> 0 <= idx < col_size d ->
  spec_Im2col_NHWC zero d data_im data_col !! Z.to_nat idx
  = Some (spec_col_entry_NHWC zero d data_im idx).
Proof.
  intros Hl Hidx. unfold spec_Im2col_NHWC.
  rewrite written_all, list_lookup_fmap by done.
  rewrite (lookup_seqZ_lt 0 (col_size d)) by lia. simpl.
  by rewrite Z2Nat.id, Z.add_0_l by lia.
Qed.

(** The inverse transforms read an entry only when it maps into the
    image. *)
Lemma spec_Col2im_NCHW_ext d data_col data_col' :
  valid_window d ->
  (forall c kh kw oh ow,
     0 <= c < channels d -> 0 <= kh < kernel_h d -> 0 <= kw < kernel_w d ->
     0 <= oh < output_h d -> 0 <= ow < output_w d ->
     in_image d (input_row d kh oh) (input_col d kw ow) = true ->
     data_col !! Z.to_nat (col_index d c kh kw oh ow)
     = data_col' !! Z.to_nat (col_index d c kh kw oh ow)) ->
  spec_Col2im_NCHW zero add d data_col
  = spec_Col2im_NCHW zero add d data_col'.
Proof.
  intros Hv Hagree. unfold spec_Col2im_NCHW.
  destruct (Z.le_gt_cases 0 (col_size d)) as [Hn|Hn].
  - replace (col_size d) with (Z.of_nat (Z.to_nat (col_size d))) by lia.
    apply foldl_ext_seqZ. intros j y Hj.
    destruct (col_index_decode d j Hv ltac:(lia))
      as (Hc & Hkh & Hkw & Hoh & How & Ej).
    unfold spec_acc_entry. cbv zeta in *.
    destruct (in_image d _ _) eqn:Hin; [|done].
    do 2 f_equal. apply at_index_lookup; [lia|].
    rewrite Ej at 1 2. by apply Hagree.
  - by rewrite !seqZ_nil by lia.
Qed.

Lemma spec_Col2im_NHWC_ext d data_col data_col' :
  valid_window d ->
  (forall oh ow kh kw c,
     0 <= oh < output_h d -> 0 <= ow < output_w d ->
     0 <= kh < kernel_h d -> 0 <= kw < kernel_w d -> 0 <= c < channels d ->
     in_image d (input_row d kh oh) (input_col d kw ow) = true ->
     data_col !! Z.to_nat (col_index_NHWC d oh ow kh kw c)
     = data_col' !! Z.to_nat (col_index_NHWC d oh ow kh kw c)) ->
  spec_Col2im_NHWC zero add d data_col
  = spec_Col2im_NHWC zero add d data_col'.
Proof.
  intros Hv Hagree. unfold spec_Col2im_NHWC.
  destruct (Z.le_gt_cases 0 (col_size d)) as [Hn|Hn].
  - replace (col_size d) with (Z.of_nat (Z.to_nat (col_size d))) by lia.
    apply foldl_ext_seqZ. intros j y Hj.
    destruct (col_index_NHWC_decode d j Hv ltac:(lia))
      as (Hoh & How & Hkh & Hkw & Hc & Ej).
    unfold spec_acc_entry_NHWC. cbv zeta in *.
    destruct (in_image d _ _) eqn:Hin; [|done].
    do 2 f_equal. apply at_index_lookup; [lia|].
    rewrite Ej at 1 2. by apply Hagree.
  - by rewrite !seqZ_nil by lia.
Qed.

End Dispatch.

(** ** Concrete descriptors, and the output size of the transforms *)

(** Closed side conditions on concrete descriptors and buffers. *)
Ltac concrete :=
  repeat match goal with
  | |- _ /\ _ => split
  | |- _ <= _ < _ => split
  end;
  first [ reflexivity | vm_compute; intros; discriminate
        | vm_compute; reflexivity | vm_compute; lia ].

Lemma valid_scenario_window : valid_window scenario_window.
Proof. unfold valid_window. concrete. Qed.

Lemma int_scenario_window : int_window scenario_window.
Proof. unfold int_window, is_int. concrete. Qed.

Lemma fits_scenario_window : window_fits scenario_window.
Proof. unfold window_fits. concrete. Qed.

Lemma zero_pad_window_valid d :
  zero_pad_window d -> window_fits d -> 0 <= channels d ->
  valid_window d /\ zero_pad_no_dilation d = true.
Proof.
  intros (Hdh & Hdw & Hpl & Hpr & Hpt & Hpb & ? & ? & ? & ? & ? & ?)
         [Hfh Hfw] Hc.
  unfold dkernel_h, dkernel_w in *. split.
  - unfold valid_window. repeat split; lia.
  - unfold zero_pad_no_dilation. by rewrite Hdh, Hdw, Hpl, Hpr, Hpt, Hpb.
Qed.


(** ** The properties the specification states *)







(** C3.  For channels = 1, height = width = 4, a 2 x 2 kernel, stride 1, no
    dilation and no padding, the computed output size is 3 x 3; the forward
    transform of the signal 0, 1, ..., 15 is a 4 x 9 column buffer whose
    column 0 is 0, 1, 4, 5; and the inverse transform of the all-ones
    4 x 9 column buffer is the image of the overlap counts
    1 2 2 1 / 2 4 4 2 / 2 4 4 2 / 1 2 2 1.  What the two destination
    buffers held before does not matter.  The elements are integers: every
    value of the scenario is a small integer, which floating-point addition
    does not round. *)
Theorem scenario_forward_inverse (col0 im0 : list Z) :
  length col0 = 36%nat -> length im0 = 16%nat ->
  output_h scenario_window = 3 /\ output_w scenario_window = 3 /\
  (exists col,
     Im2col_NCHW 0 scenario_window scenario_signal col0 = Some col /\
     length col = (4 * 9)%nat /\
     (fun row => col !! (row * 9 + 0)%nat) <$> [0; 1; 2; 3]%nat
     = [Some 0; Some 1; Some 4; Some 5]) /\
  Col2im_NCHW 0 Z.add scenario_window (replicate 36 1) im0
  = Some [1; 2; 2; 1;
          2; 4; 4; 2;
          2; 4; 4; 2;
          1; 2; 2; 1].
Proof.
  intros Hcol Him. split; [reflexivity|]. split; [reflexivity|]. split.
  - eexists. split.
    + apply Im2col_NCHW_spec.
      * apply valid_scenario_window.
      * apply int_scenario_window.
      * intros _. apply fits_scenario_window.
      * reflexivity.
      * rewrite Hcol. reflexivity.
    + unfold spec_Im2col_NCHW.
      rewrite written_all by (rewrite Hcol; reflexivity).
      split; reflexivity.
  - rewrite Col2im_NCHW_spec.
    + reflexivity.
    + apply valid_scenario_window.
    + apply int_scenario_window.
    + intros _. apply fits_scenario_window.
    + reflexivity.
    + rewrite Him. reflexivity.
Qed.

Lemma scenario_forward_inverse_witness :
  Im2col_NCHW 0 scenario_window scenario_signal (replicate 36 (-1))
  = Some [0; 1; 2; 4; 5; 6; 8; 9; 10;
          1; 2; 3; 5; 6; 7; 9; 10; 11;
          4; 5; 6; 8; 9; 10; 12; 13; 14;
          5; 6; 7; 9; 10; 11; 13; 14; 15] /\
  Col2im_NCHW 0 Z.add scenario_window (replicate 36 1) (replicate 16 (-1))
  = Some [1; 2; 2; 1; 2; 4; 4; 2; 2; 4; 4; 2; 1; 2; 2; 1].
Proof.
  destruct (scenario_forward_inverse (replicate 36 (-1)) (replicate 16 (-1))
              eq_refl eq_refl) as (_ & _ & _ & Hinv).
  split; [reflexivity|exact Hinv].
Defined.













(** C9.  For 32-bit integers [a] and [b] with [b > 0], the comparison of
    the two values converted to [unsigned] holds exactly when
    [0 <= a < b]. *)
Theorem is_a_ge_zero_and_a_lt_b_correct a b :
  is_int a -> is_int b -> 0 < b ->
  is_a_ge_zero_and_a_lt_b a b = true <-> 0 <= a < b.
Proof.
  intros Ha Hb Hpos.
  rewrite is_a_ge_zero_and_a_lt_b_spec by (done || lia).
  rewrite andb_true_iff, Z.leb_le, Z.ltb_lt. done.
Qed.

Lemma is_a_ge_zero_and_a_lt_b_witness :
  (is_a_ge_zero_and_a_lt_b (-1) 5 = true <-> 0 <= -1 < 5) /\
  is_a_ge_zero_and_a_lt_b (-1) 5 = false /\
  is_a_ge_zero_and_a_lt_b 4 5 = true.
Proof.
  split; [|split; reflexivity].
  apply (is_a_ge_zero_and_a_lt_b_correct (-1) 5);
    unfold is_int; concrete.
Defined.





(** * Further properties

    The transforms beyond what the specification states, and the other
    functions of the file. *)

(** ** Finite sums *)

Lemma sumZ_nonpos n f : n <= 0 -> sumZ n f = 0.
Proof. intros Hn. unfold sumZ. by rewrite seqZ_nil. Qed.

Lemma sumZ_succ n f : 0 <= n -> sumZ (n + 1) f = sumZ n f + f n.
Proof.
  intros Hn. unfold sumZ. rewrite seqZ_app by lia.
  rewrite fmap_app, foldr_app. simpl. rewrite Z.add_0_r.
  generalize (f <$> seqZ 0 n). intros l.
  induction l as [|v l IH]; simpl; [done|]. rewrite IH. lia.
Qed.

(** Induction on the upper bound of a sum. *)
Lemma sumZ_ind (P : Z -> Prop) :
  P 0 -> (forall n, 0 <= n -> P n -> P (n + 1)) -> forall n, 0 <= n -> P n.
Proof. intros H0 HS n Hn. apply (natlike_ind P); auto. Qed.

Lemma sumZ_ext n f g :
  (forall i, 0 <= i < n -> f i = g i) -> sumZ n f = sumZ n g.
Proof.
  intros Hfg. unfold sumZ. f_equal. apply list_fmap_ext.
  intros _ i Hi%list_elem_of_lookup_2%elem_of_seqZ. apply Hfg. lia.
Qed.

Lemma sumZ_0 n : sumZ n (fun _ => 0) = 0.
Proof.
  destruct (Z.le_gt_cases n 0) as [Hn|Hn]; [by apply sumZ_nonpos|].
  revert n Hn. intros n Hn. assert (H0 : 0 <= n) by lia. clear Hn.
  revert n H0. apply sumZ_ind; [by rewrite sumZ_nonpos|].
  intros n Hn IH. rewrite sumZ_succ, IH by done. done.
Qed.

Lemma sumZ_add n f g :
  sumZ n (fun i => f i + g i) = sumZ n f + sumZ n g.
Proof.
  destruct (Z.le_gt_cases n 0) as [Hn|Hn].
  { by rewrite !sumZ_nonpos. }
  assert (H0 : 0 <= n) by lia. clear Hn. revert n H0.
  apply sumZ_ind; [rewrite !sumZ_nonpos by done; lia|].
  intros n Hn IH. rewrite !sumZ_succ, IH by done. lia.
Qed.

Lemma sumZ_scale n c f : sumZ n (fun i => c * f i) = c * sumZ n f.
Proof.
  destruct (Z.le_gt_cases n 0) as [Hn|Hn].
  { rewrite !sumZ_nonpos by done. lia. }
  assert (H0 : 0 <= n) by lia. clear Hn. revert n H0.
  apply sumZ_ind; [rewrite !sumZ_nonpos by done; lia|].
  intros n Hn IH. rewrite !sumZ_succ, IH by done. lia.
Qed.

(** The order of two sums can be exchanged. *)
Lemma sumZ_swap n m (f : Z -> Z -> Z) :
  sumZ n (fun i => sumZ m (fun j => f i j))
  = sumZ m (fun j => sumZ n (fun i => f i j)).
Proof.
  destruct (Z.le_gt_cases n 0) as [Hn|Hn].
  { rewrite sumZ_nonpos by done. symmetry.
    transitivity (sumZ m (fun _ => 0)); [|apply sumZ_0].
    apply sumZ_ext. intros j _. by apply sumZ_nonpos. }
  assert (H0 : 0 <= n) by lia. clear Hn. revert n H0.
  apply sumZ_ind.
  - rewrite sumZ_nonpos by done. symmetry.
    transitivity (sumZ m (fun _ => 0)); [|apply sumZ_0].
    apply sumZ_ext. intros j _. by apply sumZ_nonpos.
  - intros n Hn IH. rewrite sumZ_succ, IH by done.
    rewrite <- sumZ_add. apply sumZ_ext. intros j _.
    by rewrite sumZ_succ.
Qed.

(** A sum with one term that is not zero. *)
Lemma sumZ_single n q (f : Z -> Z) :
  0 <= q < n ->
  (forall i, 0 <= i < n -> i <> q -> f i = 0) ->
  sumZ n f = f q.
Proof.
  intros Hq Hf.
  assert (Hlow : forall k, 0 <= k -> k <= q -> sumZ k f = 0).
  { apply (sumZ_ind (fun k => k <= q -> sumZ k f = 0)).
    - intros _. by apply sumZ_nonpos.
    - intros k Hk IH Hkq. rewrite sumZ_succ by lia. rewrite IH by lia.
      rewrite Hf by lia. done. }
  assert (Hhigh : forall k, 0 <= k -> q < k <= n -> sumZ k f = f q).
  { apply (sumZ_ind (fun k => q < k <= n -> sumZ k f = f q)); [lia|].
    intros k Hk IH Hkq. rewrite sumZ_succ by done.
    destruct (decide (k = q)) as [->|Hne].
    - rewrite Hlow by lia. lia.
    - rewrite IH, (Hf k) by lia. lia. }
  apply Hhigh; lia.
Qed.

(** ** Accumulation as a sum *)

Section ScatterAdd.
Variable t : Z -> option Z.
Variable col : list Z.

Lemma length_scatter_add im idx :
  length (scatter_add t col im idx) = length im.
Proof.
  unfold scatter_add. destruct (t idx); [|done]. by rewrite length_insert.
Qed.

Lemma length_foldl_scatter_add (l : list Z) im :
  length (foldl (scatter_add t col) im l) = length im.
Proof.
  revert im. induction l as [|idx l IH]; intros im; simpl; [done|].
  by rewrite IH, length_scatter_add.
Qed.

Lemma at_index_insert (im : list Z) (i p : Z) (v : Z) :
  0 <= i -> 0 <= p < Z.of_nat (length im) ->
  at_index 0 (<[Z.to_nat i := v]> im) p
  = if decide (i = p) then v else at_index 0 im p.
Proof.
  intros Hi Hp. unfold at_index, load.
  destruct (Z.leb_spec 0 p); [|lia].
  destruct (decide (i = p)) as [->|Hne].
  - rewrite list_lookup_insert_eq by lia. done.
  - rewrite list_lookup_insert_ne by lia. done.
Qed.

(** After the steps of the indices [0 .. n - 1], the sample [p] holds what
    it held before plus the entries whose target is [p]. *)
Lemma foldl_scatter_add_sum (n : Z) im p :
  0 <= n -> 0 <= p < Z.of_nat (length im) ->
  (forall idx q, 0 <= idx < n -> t idx = Some q -> 0 <= q) ->
  at_index 0 (foldl (scatter_add t col) im (seqZ 0 n)) p
  = at_index 0 im p
    + sumZ n (fun idx =>
        if decide (t idx = Some p) then at_index 0 col idx else 0).
Proof.
  intros Hn Hp. revert n Hn.
  apply (sumZ_ind (fun n =>
    (forall idx q, 0 <= idx < n -> t idx = Some q -> 0 <= q) ->
    at_index 0 (foldl (scatter_add t col) im (seqZ 0 n)) p
    = at_index 0 im p
      + sumZ n (fun idx =>
          if decide (t idx = Some p) then at_index 0 col idx else 0))).
  - intros _. rewrite sumZ_nonpos by done. simpl. lia.
  - intros n Hn IH Ht. rewrite sumZ_succ by done.
    rewrite seqZ_app, foldl_app by lia.
    change (seqZ (0 + n) 1) with [n].
    specialize (IH (fun idx q Hidx => Ht idx q ltac:(lia))).
    set (S := foldl (scatter_add t col) im (seqZ 0 n)) in *.
    assert (Hlen : length S = length im)
      by apply length_foldl_scatter_add.
    simpl. unfold scatter_add.
    destruct (t n) as [q|] eqn:Hq.
    + rewrite at_index_insert by (rewrite ?Hlen; eauto with lia).
      destruct (decide (q = p)) as [->|Hne].
      * rewrite decide_True by done. lia.
      * rewrite decide_False by congruence. lia.
    + rewrite decide_False by congruence. lia.
Qed.

End ScatterAdd.

(** ** Gathering and accumulating along the same targets *)

Section GatherScatter.
Variable t : Z -> option Z.
Variables n m : Z.
Hypothesis t_range :
  forall idx q, 0 <= idx < n -> t idx = Some q -> 0 <= q < m.

(** The sum over the samples of [x[p]] times what [p] accumulates is the
    sum over the entries of the gathered sample times the entry. *)
Lemma gather_scatter_adjoint (x c : list Z) :
  sumZ n (fun idx => from_option (at_index 0 x) 0 (t idx) * at_index 0 c idx)
  = sumZ m (fun p =>
      at_index 0 x p
      * sumZ n (fun idx =>
          if decide (t idx = Some p) then at_index 0 c idx else 0)).
Proof.
  transitivity (sumZ m (fun p => sumZ n (fun idx =>
    at_index 0 x p
    * (if decide (t idx = Some p) then at_index 0 c idx else 0)))).
  2: { apply sumZ_ext. intros p _. apply sumZ_scale. }
  rewrite sumZ_swap. apply sumZ_ext. intros idx Hidx.
  destruct (t idx) as [q|] eqn:Hq; simpl.
  - rewrite (sumZ_single m q).
    + cbv beta. by case_decide.
    + by apply (t_range idx).
    + intros p _ Hne. cbv beta. case_decide; [congruence|lia].
  - transitivity (sumZ m (fun _ => 0)); [by rewrite sumZ_0|].
    apply sumZ_ext. intros p _. lia.
Qed.

End GatherScatter.

(** ** The transforms along their targets *)

Lemma foldl_ext_all {A B : Type} (f g : A -> B -> A) (l : list B) (x : A) :
  (forall y j, f y j = g y j) -> foldl f x l = foldl g x l.
Proof.
  intros Hfg. revert x. induction l as [|j l IH]; intros x; simpl; [done|].
  by rewrite Hfg, IH.
Qed.

Lemma at_index_replicate (k : nat) (p : Z) : at_index 0 (replicate k 0) p = 0.
Proof.
  unfold at_index, load. destruct (0 <=? p); [|done].
  destruct (replicate k 0 !! Z.to_nat p) as [v|] eqn:Hv; [|done].
  apply lookup_replicate in Hv as [-> _]. done.
Qed.

Lemma spec_col_entry_target d (x : list Z) idx :
  spec_col_entry 0 d x idx = from_option (at_index 0 x) 0 (tap_target d idx).
Proof.
  unfold spec_col_entry, tap_value, tap_target. cbv zeta.
  by destruct (in_image d _ _).
Qed.

Lemma spec_col_entry_NHWC_target d (x : list Z) idx :
  spec_col_entry_NHWC 0 d x idx
  = from_option (at_index 0 x) 0 (tap_target_NHWC d idx).
Proof.
  unfold spec_col_entry_NHWC, tap_value_NHWC, tap_target_NHWC. cbv zeta.
  by destruct (in_image d _ _).
Qed.

Lemma spec_Col2im_NCHW_scatter d (col : list Z) :
  spec_Col2im_NCHW 0 Z.add d col
  = foldl (scatter_add (tap_target d) col)
          (replicate (Z.to_nat (im_size d)) 0) (seqZ 0 (col_size d)).
Proof.
  unfold spec_Col2im_NCHW. apply foldl_ext_all. intros im idx.
  unfold spec_acc_entry, scatter_add, tap_target. cbv zeta.
  by destruct (in_image d _ _).
Qed.

Lemma spec_Col2im_NHWC_scatter d (col : list Z) :
  spec_Col2im_NHWC 0 Z.add d col
  = foldl (scatter_add (tap_target_NHWC d) col)
          (replicate (Z.to_nat (im_size d)) 0) (seqZ 0 (col_size d)).
Proof.
  unfold spec_Col2im_NHWC. apply foldl_ext_all. intros im idx.
  unfold spec_acc_entry_NHWC, scatter_add, tap_target_NHWC. cbv zeta.
  by destruct (in_image d _ _).
Qed.

Lemma in_image_range d r q :
  in_image d r q = true -> 0 <= r < height d /\ 0 <= q < width d.
Proof. unfold in_image. intros H. lia. Qed.

Lemma tap_target_range d idx p :
  valid_window d -> 0 <= idx < col_size d ->
  tap_target d idx = Some p -> 0 <= p < im_size d.
Proof.
  intros Hv Hidx. unfold tap_target. cbv zeta.
  destruct (in_image d _ _) eqn:Hin; [|done]. intros [= <-].
  apply in_image_range in Hin as [Hr Hq].
  pose proof (col_index_decode d idx Hv Hidx) as Hdec. cbv zeta in Hdec.
  destruct Hdec as (Hc & _). by apply im_index_bound.
Qed.

Lemma tap_target_NHWC_range d idx p :
  valid_window d -> 0 <= idx < col_size d ->
  tap_target_NHWC d idx = Some p -> 0 <= p < im_size d.
Proof.
  intros Hv Hidx. unfold tap_target_NHWC. cbv zeta.
  destruct (in_image d _ _) eqn:Hin; [|done]. intros [= <-].
  apply in_image_range in Hin as [Hr Hq].
  pose proof (col_index_NHWC_decode d idx Hv Hidx) as Hdec.
  cbv zeta in Hdec.
  destruct Hdec as (_ & _ & _ & _ & Hc & _). by apply im_index_NHWC_bound.
Qed.

Lemma valid_window_sizes d :
  valid_window d -> 0 <= col_size d /\ 0 <= im_size d.
Proof.
  intros Hv. unfold valid_window in Hv. unfold col_size, im_size.
  split; [|nia].
  assert (0 <= channels d * kernel_h d * kernel_w d) by nia.
  assert (0 <= channels d * kernel_h d * kernel_w d * output_h d) by nia.
  nia.
Qed.

(** Every sample of the inverse transform is the sum of the entries that
    map to it. *)
Lemma at_index_spec_Col2im_NCHW d (col : list Z) p :
  valid_window d -> 0 <= p < im_size d ->
  at_index 0 (spec_Col2im_NCHW 0 Z.add d col) p
  = sumZ (col_size d) (fun idx =>
      if decide (tap_target d idx = Some p) then at_index 0 col idx else 0).
Proof.
  intros Hv Hp. destruct (valid_window_sizes d Hv) as [Hc Hi].
  rewrite spec_Col2im_NCHW_scatter, foldl_scatter_add_sum.
  - by rewrite at_index_replicate.
  - done.
  - rewrite length_replicate. lia.
  - intros idx q Hidx Hq.
    apply (tap_target_range d idx q Hv Hidx) in Hq. lia.
Qed.

Lemma at_index_spec_Col2im_NHWC d (col : list Z) p :
  valid_window d -> 0 <= p < im_size d ->
  at_index 0 (spec_Col2im_NHWC 0 Z.add d col) p
  = sumZ (col_size d) (fun idx =>
      if decide (tap_target_NHWC d idx = Some p)
      then at_index 0 col idx else 0).
Proof.
  intros Hv Hp. destruct (valid_window_sizes d Hv) as [Hc Hi].
  rewrite spec_Col2im_NHWC_scatter, foldl_scatter_add_sum.
  - by rewrite at_index_replicate.
  - done.
  - rewrite length_replicate. lia.
  - intros idx q Hidx Hq.
    apply (tap_target_NHWC_range d idx q Hv Hidx) in Hq. lia.
Qed.

Lemma at_index_spec_Im2col_NCHW d (x col0 : list Z) idx :
  Z.of_nat (length col0) = col_size d -> 0 <= idx < col_size d ->
  at_index 0 (spec_Im2col_NCHW 0 d x col0) idx = spec_col_entry 0 d x idx.
Proof.
  intros Hlen Hidx. unfold at_index, load.
  destruct (Z.leb_spec 0 idx); [|lia].
  by rewrite lookup_spec_Im2col_NCHW.
Qed.

Lemma at_index_spec_Im2col_NHWC d (x col0 : list Z) idx :
  Z.of_nat (length col0) = col_size d -> 0 <= idx < col_size d ->
  at_index 0 (spec_Im2col_NHWC 0 d x col0) idx
  = spec_col_entry_NHWC 0 d x idx.
Proof.
  intros Hlen Hidx. unfold at_index, load.
  destruct (Z.leb_spec 0 idx); [|lia].
  by rewrite lookup_spec_Im2col_NHWC.
Qed.

(** ** The inverse transform is the adjoint of the forward transform *)





(** ** Targets of the entries, from their coordinates *)

Lemma tap_target_col_index d c kh kw oh ow :
  0 <= kh < kernel_h d -> 0 <= kw < kernel_w d ->
  0 <= oh < output_h d -> 0 <= ow < output_w d ->
  tap_target d (col_index d c kh kw oh ow)
  = if in_image d (input_row d kh oh) (input_col d kw ow)
    then Some (im_index d c (input_row d kh oh) (input_col d kw ow))
    else None.
Proof.
  intros Hkh Hkw Hoh How. unfold tap_target, col_index. cbv zeta.
  rewrite !(flat_div _ ow), !(flat_mod _ ow) by done.
  rewrite !(flat_div _ oh), !(flat_mod _ oh) by done.
  rewrite !(flat_div _ kw), !(flat_mod _ kw) by done.
  by rewrite !(flat_div _ kh), !(flat_mod _ kh) by done.
Qed.

Lemma tap_target_NHWC_col_index d oh ow kh kw c :
  0 <= ow < output_w d -> 0 <= kh < kernel_h d -> 0 <= kw < kernel_w d ->
  0 <= c < channels d ->
  tap_target_NHWC d (col_index_NHWC d oh ow kh kw c)
  = if in_image d (input_row d kh oh) (input_col d kw ow)
    then Some (im_index_NHWC d (input_row d kh oh) (input_col d kw ow) c)
    else None.
Proof.
  intros How Hkh Hkw Hc. unfold tap_target_NHWC, col_index_NHWC. cbv zeta.
  change (width_col d) with (output_w d).
  rewrite !(flat_div _ c), !(flat_mod _ c) by done.
  rewrite !(flat_div _ kw), !(flat_mod _ kw) by done.
  rewrite !(flat_div _ kh), !(flat_mod _ kh) by done.
  by rewrite !(flat_div _ ow), !(flat_mod _ ow) by done.
Qed.

(** Two buffers of the same length with the same elements. *)
Lemma list_eq_at_index (l k : list Z) :
  length l = length k ->
  (forall p, 0 <= p < Z.of_nat (length l) -> at_index 0 l p = at_index 0 k p) ->
  l = k.
Proof.
  intros Hlen Hat. apply list_eq_same_length with (length l); [done..|].
  intros i u v Hi Hu Hv.
  specialize (Hat (Z.of_nat i) ltac:(lia)). unfold at_index, load in Hat.
  destruct (Z.leb_spec 0 (Z.of_nat i)); [|lia].
  rewrite Nat2Z.id, Hu, Hv in Hat. done.
Qed.

Lemma at_index_zip_with_mul (l k : list Z) p :
  at_index 0 (zip_with Z.mul l k) p = at_index 0 l p * at_index 0 k p.
Proof.
  unfold at_index, load. destruct (0 <=? p); [|done].
  rewrite lookup_zip_with.
  destruct (l !! Z.to_nat p); simpl; [|done].
  destruct (k !! Z.to_nat p); simpl; lia.
Qed.

Lemma at_index_ones (n : nat) p :
  0 <= p < Z.of_nat n -> at_index 0 (replicate n 1) p = 1.
Proof.
  intros Hp. unfold at_index, load. destruct (Z.leb_spec 0 p); [|lia].
  rewrite lookup_replicate_2 by lia. done.
Qed.

Lemma length_spec_Col2im_NCHW d (col : list Z) :
  valid_window d ->
  Z.of_nat (length (spec_Col2im_NCHW 0 Z.add d col)) = im_size d.
Proof.
  intros Hv. destruct (valid_window_sizes d Hv).
  unfold spec_Col2im_NCHW. rewrite length_foldl_acc, length_replicate. lia.
Qed.

Lemma length_spec_Col2im_NHWC d (col : list Z) :
  valid_window d ->
  Z.of_nat (length (spec_Col2im_NHWC 0 Z.add d col)) = im_size d.
Proof.
  intros Hv. destruct (valid_window_sizes d Hv).
  unfold spec_Col2im_NHWC.
  rewrite length_foldl_acc_NHWC, length_replicate. lia.
Qed.

(** Gathering and then accumulating along the same targets multiplies each
    sample by the number of entries that map to it. *)
Lemma gather_then_scatter (t : Z -> option Z) (n : Z) (x : list Z)
    (g ones : Z -> Z) p :
  (forall idx, 0 <= idx < n -> g idx = from_option (at_index 0 x) 0 (t idx)) ->
  (forall idx, 0 <= idx < n -> ones idx = 1) ->
  sumZ n (fun idx => if decide (t idx = Some p) then g idx else 0)
  = sumZ n (fun idx => if decide (t idx = Some p) then ones idx else 0)
    * at_index 0 x p.
Proof.
  intros Hg Hones. rewrite Z.mul_comm, <- sumZ_scale.
  apply sumZ_ext. intros idx Hidx. rewrite Hg, Hones by done.
  case_decide as Ht; [|lia]. rewrite Ht. simpl. lia.
Qed.

(** ** The inverse of the forward transform, and the overlap counts *)





(** ** Entries by their coordinates *)

Lemma col_index_decode_ex d idx :
  valid_window d -> 0 <= idx < col_size d ->
  exists c kh kw oh ow,
    0 <= c < channels d /\ 0 <= kh < kernel_h d /\ 0 <= kw < kernel_w d /\
    0 <= oh < output_h d /\ 0 <= ow < output_w d /\
    idx = col_index d c kh kw oh ow.
Proof.
  intros Hv Hidx. pose proof (col_index_decode d idx Hv Hidx) as Hdec.
  cbv zeta in Hdec. by eexists _, _, _, _, _.
Qed.

Lemma col_index_NHWC_decode_ex d idx :
  valid_window d -> 0 <= idx < col_size d ->
  exists oh ow kh kw c,
    0 <= oh < output_h d /\ 0 <= ow < output_w d /\
    0 <= kh < kernel_h d /\ 0 <= kw < kernel_w d /\ 0 <= c < channels d /\
    idx = col_index_NHWC d oh ow kh kw c.
Proof.
  intros Hv Hidx. pose proof (col_index_NHWC_decode d idx Hv Hidx) as Hdec.
  cbv zeta in Hdec. by eexists _, _, _, _, _.
Qed.

(** ** The forward transform: what it overwrites, and the two layouts *)







(** ** Windows that tile the input *)

Lemma im_index_decode_ex d p :
  0 <= channels d -> 0 <= height d -> 0 <= width d ->
  0 <= p < im_size d ->
  exists c r q,
    0 <= c < channels d /\ 0 <= r < height d /\ 0 <= q < width d /\
    p = im_index d c r q.
Proof.
  intros Hc Hh Hw Hp. unfold im_size in Hp.
  assert (0 < width d) by nia. assert (0 < height d) by nia.
  exists ((p `div` width d) `div` height d),
         ((p `div` width d) `mod` height d), (p `mod` width d).
  assert (B : 0 <= p `div` width d < channels d * height d)
    by (apply div_range; lia).
  pose proof (Z.div_mod p (width d) ltac:(lia)).
  pose proof (Z.div_mod (p `div` width d) (height d) ltac:(lia)).
  pose proof (Z.mod_pos_bound p (width d) ltac:(lia)).
  pose proof (Z.mod_pos_bound (p `div` width d) (height d) ltac:(lia)).
  split; [apply div_range; lia|]. unfold im_index. repeat split; lia.
Qed.

Lemma im_index_NHWC_decode_ex d p :
  0 <= channels d -> 0 <= height d -> 0 <= width d ->
  0 <= p < im_size d ->
  exists r q c,
    0 <= r < height d /\ 0 <= q < width d /\ 0 <= c < channels d /\
    p = im_index_NHWC d r q c.
Proof.
  intros Hc Hh Hw Hp. unfold im_size in Hp.
  assert (0 < width d) by nia. assert (0 < channels d) by nia.
  exists ((p `div` channels d) `div` width d),
         ((p `div` channels d) `mod` width d), (p `mod` channels d).
  assert (B : 0 <= p `div` channels d < height d * width d)
    by (apply div_range; lia).
  pose proof (Z.div_mod p (channels d) ltac:(lia)).
  pose proof (Z.div_mod (p `div` channels d) (width d) ltac:(lia)).
  pose proof (Z.mod_pos_bound p (channels d) ltac:(lia)).
  pose proof (Z.mod_pos_bound (p `div` channels d) (width d) ltac:(lia)).
  split; [apply div_range; lia|]. unfold im_index_NHWC. repeat split; lia.
Qed.

Lemma im_index_NHWC_inj d r q c r' q' c' :
  0 <= q < width d -> 0 <= c < channels d ->
  0 <= q' < width d -> 0 <= c' < channels d ->
  im_index_NHWC d r q c = im_index_NHWC d r' q' c' ->
  r = r' /\ q = q' /\ c = c'.
Proof.
  intros Hq Hc Hq' Hc' E. unfold im_index_NHWC in E.
  assert (Ec : c = c').
  { rewrite <- (flat_mod (r * width d + q) c (channels d) Hc).
    rewrite E. by apply flat_mod. }
  assert (E1 : r * width d + q = r' * width d + q').
  { rewrite <- (flat_div (r * width d + q) c (channels d) Hc).
    rewrite E. by apply flat_div. }
  assert (Eq : q = q').
  { rewrite <- (flat_mod r q (width d) Hq). rewrite E1. by apply flat_mod. }
  assert (Er : r = r').
  { rewrite <- (flat_div r q (width d) Hq). rewrite E1. by apply flat_div. }
  done.
Qed.

(** When exactly one entry maps to each sample, accumulating what was
    gathered gives back the sample. *)
Lemma gather_scatter_single (t : Z -> option Z) (n : Z) (x : list Z) p idx0 :
  0 <= idx0 < n -> t idx0 = Some p ->
  (forall idx, 0 <= idx < n -> t idx = Some p -> idx = idx0) ->
  sumZ n (fun idx =>
    if decide (t idx = Some p)
    then from_option (at_index 0 x) 0 (t idx) else 0)
  = at_index 0 x p.
Proof.
  intros Hidx0 Ht Huniq. rewrite (sumZ_single n idx0); [|done|].
  - cbv beta. rewrite Ht. by case_decide.
  - intros idx Hidx Hne. cbv beta. case_decide as Heq; [|done].
    by apply Huniq in Heq.
Qed.

(** The descriptors whose windows tile the input: no padding, no dilation,
    stride equal to the kernel, and input extents that are multiples of
    the kernel. *)
Lemma tiles_sizes d :
  valid_window d -> zero_pad_no_dilation d = true ->
  stride_h d = kernel_h d -> stride_w d = kernel_w d ->
  (kernel_h d | height d) -> (kernel_w d | width d) ->
  height d = output_h d * kernel_h d /\ width d = output_w d * kernel_w d /\
  window_fits d /\
  (forall kh oh, input_row d kh oh = oh * kernel_h d + kh) /\
  (forall kw ow, input_col d kw ow = ow * kernel_w d + kw).
Proof.
  intros Hv Hz Hsh Hsw [mh Hh] [mw Hw].
  apply zero_pad_no_dilation_true in Hz
    as (Hdh & Hdw & Hpl & Hpr & Hpt & Hpb).
  destruct Hv
    as (? & ? & ? & ? & ? & ? & ? & ? & ? & ? & ? & ? & ? & Hoh & How).
  unfold output_h in Hoh |- *. unfold output_w in How |- *.
  rewrite Hdh, Hpt, Hpb, Hsh, Hh in Hoh |- *.
  rewrite Hdw, Hpl, Hpr, Hsw, Hw in How |- *.
  replace (mh * kernel_h d + 0 + 0 - (1 * (kernel_h d - 1) + 1))
    with ((mh - 1) * kernel_h d) in * by lia.
  replace (mw * kernel_w d + 0 + 0 - (1 * (kernel_w d - 1) + 1))
    with ((mw - 1) * kernel_w d) in * by lia.
  rewrite (Z.quot_mul (mh - 1)), (Z.quot_mul (mw - 1)) in * by lia.
  unfold window_fits, dkernel_h, dkernel_w, input_row, input_col.
  rewrite Hdh, Hdw, Hpt, Hpl, Hpb, Hpr, Hsh, Hsw, Hh, Hw.
  repeat split; try lia; nia.
Qed.



(** ** Sums along a renumbering of the indices *)

Lemma foldr_add_Permutation (l k : list Z) :
  l ≡ₚ k -> foldr Z.add 0 l = foldr Z.add 0 k.
Proof.
  induction 1 as [|x l k _ IH|x y l|l k m _ IH1 _ IH2]; simpl; lia.
Qed.

(** A sum does not change when its terms are taken in the order of an
    injective renumbering of the indices. *)
Lemma sumZ_reindex (n : Z) (s : Z -> Z) (f : Z -> Z) :
  (forall i, 0 <= i < n -> 0 <= s i < n) ->
  (forall i j, 0 <= i < n -> 0 <= j < n -> s i = s j -> i = j) ->
  sumZ n (fun i => f (s i)) = sumZ n f.
Proof.
  intros Hrange Hinj. unfold sumZ.
  rewrite (list_fmap_compose s f).
  apply foldr_add_Permutation, fmap_Permutation.
  apply submseteq_length_Permutation.
  - apply NoDup_submseteq.
    + apply NoDup_fmap_2_strong; [|apply NoDup_seqZ].
      intros i j Hi%elem_of_seqZ Hj%elem_of_seqZ. apply Hinj; lia.
    + intros x (i & -> & Hi%elem_of_seqZ)%list_elem_of_fmap.
      apply elem_of_seqZ. specialize (Hrange i). lia.
  - by rewrite length_fmap.
Qed.

Lemma flat_inj a b a' b' B :
  0 <= b < B -> 0 <= b' < B -> a * B + b = a' * B + b' -> a = a' /\ b = b'.
Proof.
  intros Hb Hb' E. split.
  - rewrite <- (flat_div a b B Hb), E. by apply flat_div.
  - rewrite <- (flat_mod a b B Hb), E. by apply flat_mod.
Qed.

Lemma col_index_NHWC_inj d oh ow kh kw c oh' ow' kh' kw' c' :
  0 <= ow < output_w d -> 0 <= kh < kernel_h d -> 0 <= kw < kernel_w d ->
  0 <= c < channels d ->
  0 <= ow' < output_w d -> 0 <= kh' < kernel_h d -> 0 <= kw' < kernel_w d ->
  0 <= c' < channels d ->
  col_index_NHWC d oh ow kh kw c = col_index_NHWC d oh' ow' kh' kw' c' ->
  oh = oh' /\ ow = ow' /\ kh = kh' /\ kw = kw' /\ c = c'.
Proof.
  intros How Hkh Hkw Hc How' Hkh' Hkw' Hc' E. unfold col_index_NHWC in E.
  change (width_col d) with (output_w d) in E.
  apply flat_inj in E as [E ?]; [|done..].
  apply flat_inj in E as [E ?]; [|done..].
  apply flat_inj in E as [E ?]; [|done..].
  apply flat_inj in E as [? ?]; [|done..]. done.
Qed.

(** ** The inverse transform in the two layouts *)



(** ** Samples that no window reaches *)

Section Uncovered.
Context {T : Type}.
Variable zero : T.
Variable add : T -> T -> T.

Lemma spec_Col2im_NCHW_untouched d (data_col : list T) p :
  valid_window d -> 0 <= p < im_size d ->
  (forall c kh kw oh ow,
     0 <= c < channels d ->
     0 <= kh < kernel_h d -> 0 <= kw < kernel_w d ->
     0 <= oh < output_h d -> 0 <= ow < output_w d ->
     in_image d (input_row d kh oh) (input_col d kw ow) = true ->
     im_index d c (input_row d kh oh) (input_col d kw ow) <> p) ->
  spec_Col2im_NCHW zero add d data_col !! Z.to_nat p = Some zero.
Proof.
  intros Hv Hp Hne. destruct (valid_window_sizes d Hv) as [Hc0 Hi0].
  unfold spec_Col2im_NCHW.
  rewrite <- (Z2Nat.id (col_size d)) by done.
  pose proof (foldl_seqZ_invariant
    (fun (_ : Z) (im : list T) => im !! Z.to_nat p = Some zero)
    (spec_acc_entry zero add d data_col) 0 (Z.to_nat (col_size d))
    (replicate (Z.to_nat (im_size d)) zero)) as Hinv.
  apply Hinv; clear Hinv.
  - apply lookup_replicate_2. lia.
  - intros idx im Hidx Him.
    destruct (col_index_decode_ex d idx Hv ltac:(lia))
      as (c & kh & kw & oh & ow & Hc & Hkh & Hkw & Hoh & How & ->).
    rewrite spec_acc_entry_col_index by done.
    destruct (in_image d _ _) eqn:Hin; [|done].
    pose proof (Hne c kh kw oh ow Hc Hkh Hkw Hoh How Hin) as Hne'.
    apply in_image_range in Hin as [Hr Hq].
    pose proof (im_index_bound d c _ _ Hc Hr Hq).
    rewrite list_lookup_insert_ne by lia. done.
Qed.

Lemma spec_Col2im_NHWC_untouched d (data_col : list T) p :
  valid_window d -> 0 <= p < im_size d ->
  (forall oh ow kh kw c,
     0 <= oh < output_h d -> 0 <= ow < output_w d ->
     0 <= kh < kernel_h d -> 0 <= kw < kernel_w d ->
     0 <= c < channels d ->
     in_image d (input_row d kh oh) (input_col d kw ow) = true ->
     im_index_NHWC d (input_row d kh oh) (input_col d kw ow) c <> p) ->
  spec_Col2im_NHWC zero add d data_col !! Z.to_nat p = Some zero.
Proof.
  intros Hv Hp Hne. destruct (valid_window_sizes d Hv) as [Hc0 Hi0].
  unfold spec_Col2im_NHWC.
  rewrite <- (Z2Nat.id (col_size d)) by done.
  pose proof (foldl_seqZ_invariant
    (fun (_ : Z) (im : list T) => im !! Z.to_nat p = Some zero)
    (spec_acc_entry_NHWC zero add d data_col) 0 (Z.to_nat (col_size d))
    (replicate (Z.to_nat (im_size d)) zero)) as Hinv.
  apply Hinv; clear Hinv.
  - apply lookup_replicate_2. lia.
  - intros idx im Hidx Him.
    destruct (col_index_NHWC_decode_ex d idx Hv ltac:(lia))
      as (oh & ow & kh & kw & c & Hoh & How & Hkh & Hkw & Hc & ->).
    rewrite spec_acc_entry_NHWC_col_index by done.
    destruct (in_image d _ _) eqn:Hin; [|done].
    pose proof (Hne oh ow kh kw c Hoh How Hkh Hkw Hc Hin) as Hne'.
    apply in_image_range in Hin as [Hr Hq].
    pose proof (im_index_NHWC_bound d _ _ c Hr Hq Hc).
    rewrite list_lookup_insert_ne by lia. done.
Qed.

End Uncovered.



(** ** The unsigned comparison outside its precondition *)

(** X11.  For a bound [b <= 0] the comparison is not the range test: with
    [b = 0] it holds for no [a], and with [b < 0] it holds for every
    [a >= 0] and for the negative [a] below [b]. *)
Theorem is_a_ge_zero_and_a_lt_b_nonpositive a b :
  is_int a -> is_int b -> b <= 0 ->
  is_a_ge_zero_and_a_lt_b a b = true <-> b < 0 /\ (0 <= a \/ a < b).
Proof.
  unfold is_int, is_a_ge_zero_and_a_lt_b, to_unsigned.
  intros Ha Hb Hb0. rewrite Z.ltb_lt.
  assert (Hmod : forall z, - 2 ^ 31 <= z < 2 ^ 31 ->
    z mod 2 ^ 32 = if 0 <=? z then z else z + 2 ^ 32).
  { intros z Hz. destruct (Z.leb_spec 0 z).
    - apply Z.mod_small. lia.
    - symmetry. apply (Z.mod_unique_pos _ _ (-1)); lia. }
  rewrite (Hmod a Ha), (Hmod b Hb).
  destruct (Z.leb_spec 0 a), (Z.leb_spec 0 b); lia.
Qed.

Lemma is_a_ge_zero_and_a_lt_b_nonpositive_witness :
  is_a_ge_zero_and_a_lt_b 3 (-1) = true /\
  is_a_ge_zero_and_a_lt_b 3 0 = false.
Proof.
  split; [|reflexivity].
  apply (is_a_ge_zero_and_a_lt_b_nonpositive 3 (-1));
    [unfold is_int; lia..|lia|lia].
Defined.

(** ** Loops with an invariant *)

Section LoopInvariants.
Context {St : Type}.

(** A loop whose body keeps an invariant, and has a result whenever the
    invariant holds, has a result that satisfies the invariant. *)
Lemma iterate_invariant (P : Z -> St -> Prop) (body : Z -> St -> option St)
    (n : nat) :
  forall i s,
  P i s ->
  (forall j t, i <= j < i + Z.of_nat n -> P j t ->
     exists t', body j t = Some t' /\ P (j + 1) t') ->
  exists s', iterate n i body s = Some s' /\ P (i + Z.of_nat n) s'.
Proof.
  induction n as [|n IH]; intros i s HP Hbody; simpl.
  - exists s. split; [done|]. by replace (i + Z.of_nat 0) with i by lia.
  - destruct (Hbody i s ltac:(lia) HP) as (t & -> & Ht). simpl.
    destruct (IH (i + 1) t Ht) as (s' & Hs' & HP').
    + intros j u Hj. apply Hbody. lia.
    + exists s'. split; [done|].
      by replace (i + Z.of_nat (S n)) with (i + 1 + Z.of_nat n) by lia.
Qed.

Lemma for_upto_invariant (P : Z -> St -> Prop) (body : Z -> St -> option St)
    (n : Z) (s : St) :
  0 <= n -> P 0 s ->
  (forall j t, 0 <= j < n -> P j t ->
     exists t', body j t = Some t' /\ P (j + 1) t') ->
  exists s', for_upto n body s = Some s' /\ P n s'.
Proof.
  intros Hn HP Hbody. unfold for_upto.
  destruct (iterate_invariant P body (Z.to_nat n) 0 s HP) as (s' & Hs' & HP').
  - intros j t Hj. apply Hbody. lia.
  - exists s'. split; [done|].
    by replace n with (0 + Z.of_nat (Z.to_nat n)) by lia.
Qed.

(** An iteration that has no result, whatever the state, leaves the loop
    without one. *)
Lemma iterate_none (body : Z -> St -> option St) (n : nat) (j : Z) :
  (forall t, body j t = None) ->
  forall i s, i <= j < i + Z.of_nat n -> iterate n i body s = None.
Proof.
  intros Hj. induction n as [|n IH]; intros i s Hi; [lia|]. simpl.
  destruct (decide (i = j)) as [->|Hne].
  - by rewrite Hj.
  - destruct (body i s) as [t|]; [|done]. simpl. apply IH. lia.
Qed.

Lemma for_upto_none (body : Z -> St -> option St) (n j : Z) (s : St) :
  0 <= j < n -> (forall t, body j t = None) -> for_upto n body s = None.
Proof.
  intros Hj Hbody. unfold for_upto. apply (iterate_none body _ j Hbody). lia.
Qed.

(** Two bodies that agree on the range of the counter give the same loop. *)
Lemma iterate_ext (body body' : Z -> St -> option St) (n : nat) :
  forall i s,
  (forall j t, i <= j < i + Z.of_nat n -> body j t = body' j t) ->
  iterate n i body s = iterate n i body' s.
Proof.
  induction n as [|n IH]; intros i s Hext; [done|]. simpl.
  rewrite Hext by lia. destruct (body' i s) as [t|]; [|done]. simpl.
  apply IH. intros j u Hj. apply Hext. lia.
Qed.

End LoopInvariants.

(** ** Reading a buffer after a write *)

Section BufferReads.
Context {T : Type}.
Implicit Types (buf src dst : list T).

Lemma load_Some buf i v :
  load buf i = Some v -> 0 <= i < Z.of_nat (length buf).
Proof.
  unfold load. destruct (Z.leb_spec 0 i); [|done].
  intros Hv%lookup_lt_Some. lia.
Qed.

Lemma load_in_range buf i :
  0 <= i < Z.of_nat (length buf) -> exists v, load buf i = Some v.
Proof.
  intros Hi. unfold load. destruct (Z.leb_spec 0 i); [|lia].
  apply lookup_lt_is_Some_2. lia.
Qed.

Lemma store_in_range buf i v :
  0 <= i < Z.of_nat (length buf) ->
  store buf i v = Some (<[Z.to_nat i := v]> buf).
Proof.
  intros Hi. unfold store.
  destruct (Z.leb_spec 0 i); [|lia].
  destruct (Z.ltb_spec i (Z.of_nat (length buf))); [done|lia].
Qed.

Lemma load_insert buf i v j :
  0 <= i < Z.of_nat (length buf) ->
  load (<[Z.to_nat i := v]> buf) j = if j =? i then Some v else load buf j.
Proof.
  intros Hi. unfold load.
  destruct (Z.eqb_spec j i) as [->|Hne].
  - destruct (Z.leb_spec 0 i); [|lia]. apply list_lookup_insert_eq. lia.
  - destruct (Z.leb_spec 0 j); [|done].
    apply list_lookup_insert_ne. lia.
Qed.

Lemma load_memcpy dst doff src soff n dst' p :
  memcpy dst doff src soff n = Some dst' ->
  length dst' = length dst /\
  load dst' p =
    if (doff <=? p) && (p <? doff + n) then load src (soff + (p - doff))
    else load dst p.
Proof.
  unfold memcpy, in_block. intros H.
  destruct (_ && _) eqn:Hb in H; [|done]. injection H as <-.
  repeat (apply andb_prop in Hb as [Hb ?]).
  repeat match goal with H : (_ <=? _) = true |- _ => apply Z.leb_le in H end.
  assert (Hlen1 : length (take (Z.to_nat doff) dst) = Z.to_nat doff)
    by (rewrite length_take; lia).
  assert (Hlen2 : length (take (Z.to_nat n) (drop (Z.to_nat soff) src))
                  = Z.to_nat n)
    by (rewrite length_take, length_drop; lia).
  split.
  { rewrite !length_app, Hlen1, Hlen2, length_drop. lia. }
  unfold load.
  destruct (Z.leb_spec doff p) as [Hp1|Hp1]; simpl.
  - destruct (Z.leb_spec 0 p); [|lia].
    rewrite lookup_app_r by lia. rewrite Hlen1.
    destruct (Z.ltb_spec p (doff + n)) as [Hp2|Hp2].
    + destruct (Z.leb_spec 0 (soff + (p - doff))); [|lia].
      rewrite lookup_app_l by lia.
      rewrite lookup_take_lt by lia. rewrite lookup_drop. f_equal. lia.
    + rewrite lookup_app_r by lia. rewrite Hlen2, lookup_drop. f_equal. lia.
  - destruct (Z.leb_spec 0 p); [|done].
    rewrite lookup_app_l by lia. apply lookup_take_lt. lia.
Qed.

Lemma memcpy_in_range dst doff src soff n :
  0 <= n -> 0 <= doff -> 0 <= soff ->
  doff + n <= Z.of_nat (length dst) -> soff + n <= Z.of_nat (length src) ->
  exists dst', memcpy dst doff src soff n = Some dst'.
Proof.
  intros. unfold memcpy, in_block.
  repeat match goal with
  | |- context [?a <=? ?b] => destruct (Z.leb_spec a b); [|lia]
  end. simpl. eauto.
Qed.

End BufferReads.

(** ** CopyMatrix *)





(** ** Select *)



(** X15.  Where the check is compiled in, an index [idx[i] >= D] ends
    [Select] without a result, also when [x[i * D + idx[i]]] exists; the
    build without the check reads that element, which belongs to a later
    row. *)
Theorem Select_check {T : Type} (N D : Z) (x : list T) (idx : list Z)
    (y : list T) (i v : Z) :
  0 <= i < N -> load idx i = Some v -> D <= v ->
  Select true N D x idx y = None.
Proof.
  intros Hi Hv HD. unfold Select. apply (for_upto_none _ N i); [done|].
  intros t. rewrite Hv. simpl.
  destruct (Z.ltb_spec v D); [lia|done].
Qed.

Lemma Select_check_witness :
  Select true 2 3 [10; 11; 12; 20; 21; 22] [3; 0] [0; 0] = None /\
  Select false 2 3 [10; 11; 12; 20; 21; 22] [3; 0] [0; 0] = Some [20; 20].
Proof.
  split; [|reflexivity].
  apply (Select_check 2 3 _ _ _ 0 3); [lia|reflexivity|lia].
Defined.

(** ** Comparisons and logical operations *)



(** X17.  With one row, [name##ToRow] is [name]. *)
Theorem binary_op_ToRow_one_row {T : Type} (op : T -> T -> bool) (n : Z)
    (a b : list T) (y : list bool) :
  binary_op_ToRow op 1 n a b y = binary_op op n a b y.
Proof.
  unfold binary_op_ToRow, binary_op, for_upto. rewrite Z.mul_1_r.
  apply iterate_ext. intros j t Hj.
  rewrite Z.rem_small by lia. done.
Qed.

(** [name] and [Not] in closed form. *)
Lemma binary_op_closed {T : Type} (op : T -> T -> bool) (n : Z)
    (a b : list T) (y : list bool) :
  n <= Z.of_nat (length a) -> n <= Z.of_nat (length b) ->
  n <= Z.of_nat (length y) ->
  binary_op op n a b y
  = Some (zip_with op (take (Z.to_nat n) a) (take (Z.to_nat n) b)
          ++ drop (Z.to_nat n) y).
Proof.
  intros Ha Hb Hy. unfold binary_op.
  destruct (Z.le_gt_cases n 0) as [Hn|Hn].
  { unfold for_upto. replace (Z.to_nat n) with 0%nat by lia. done. }
  apply (for_upto_closed
    (fun j => zip_with op (take (Z.to_nat j) a) (take (Z.to_nat j) b)
              ++ drop (Z.to_nat j) y)); [lia|done|done|].
  intros j Hj.
  destruct (load_in_range a j ltac:(lia)) as [u Hu].
  destruct (load_in_range b j ltac:(lia)) as [v Hv].
  rewrite Hu, Hv. simpl.
  assert (Hlen : length (zip_with op (take (Z.to_nat j) a)
                                     (take (Z.to_nat j) b)) = Z.to_nat j)
    by (rewrite length_zip_with, !length_take; lia).
  rewrite store_in_range by (rewrite length_app, Hlen, length_drop; lia).
  f_equal. rewrite insert_app_r_alt by lia.
  rewrite Hlen, Nat.sub_diag.
  unfold load in Hu, Hv. destruct (Z.leb_spec 0 j); [|lia].
  replace (Z.to_nat (j + 1)) with (S (Z.to_nat j)) by lia.
  rewrite (take_S_r _ _ u), (take_S_r _ _ v) by done.
  rewrite zip_with_app by (rewrite !length_take; lia).
  rewrite <- app_assoc. f_equal. simpl.
  destruct (drop (Z.to_nat j) y) as [|w l] eqn:Hd.
  { apply (f_equal length) in Hd. rewrite length_drop in Hd.
    simpl in Hd. lia. }
  simpl. f_equal.
  change l with (drop 1 (w :: l)). rewrite <- Hd, drop_drop.
  f_equal. lia.
Qed.

Lemma Not_closed (n : Z) (x y : list bool) :
  n <= Z.of_nat (length x) -> n <= Z.of_nat (length y) ->
  Not n x y = Some ((negb <$> take (Z.to_nat n) x) ++ drop (Z.to_nat n) y).
Proof.
  intros Hx Hy. unfold Not.
  destruct (Z.le_gt_cases n 0) as [Hn|Hn].
  { unfold for_upto. replace (Z.to_nat n) with 0%nat by lia. done. }
  apply (for_upto_closed
    (fun j => (negb <$> take (Z.to_nat j) x) ++ drop (Z.to_nat j) y));
    [lia|done|done|].
  intros j Hj.
  destruct (load_in_range x j ltac:(lia)) as [v Hv]. rewrite Hv. simpl.
  assert (Hlen : length (negb <$> take (Z.to_nat j) x) = Z.to_nat j)
    by (rewrite length_fmap, length_take; lia).
  rewrite store_in_range by (rewrite length_app, Hlen, length_drop; lia).
  f_equal. rewrite insert_app_r_alt by lia.
  rewrite Hlen, Nat.sub_diag.
  unfold load in Hv. destruct (Z.leb_spec 0 j); [|lia].
  replace (Z.to_nat (j + 1)) with (S (Z.to_nat j)) by lia.
  rewrite (take_S_r _ _ v) by done.
  rewrite fmap_app, <- app_assoc. f_equal. simpl.
  destruct (drop (Z.to_nat j) y) as [|w l] eqn:Hd.
  { apply (f_equal length) in Hd. rewrite length_drop in Hd.
    simpl in Hd. lia. }
  simpl. f_equal.
  change l with (drop 1 (w :: l)). rewrite <- Hd, drop_drop.
  f_equal. lia.
Qed.

(** X18.  [Not] applied twice gives back the first [n] entries of the
    input. *)
Theorem Not_involutive (n : Z) (x y z : list bool) :
  0 <= n ->
  n <= Z.of_nat (length x) -> n <= Z.of_nat (length y) ->
  n <= Z.of_nat (length z) ->
  exists y' z',
    Not n x y = Some y' /\ Not n y' z = Some z' /\
    take (Z.to_nat n) z' = take (Z.to_nat n) x.
Proof.
  intros Hn Hx Hy Hz.
  eexists _, _. split; [by apply Not_closed|].
  assert (Hlen : length (negb <$> take (Z.to_nat n) x) = Z.to_nat n)
    by (rewrite length_fmap, length_take; lia).
  split.
  - apply Not_closed; [|done]. rewrite length_app, Hlen, length_drop. lia.
  - rewrite (take_app_le _ (drop _ y)) by lia.
    rewrite (take_ge (negb <$> _)) by lia.
    rewrite take_app_le by (rewrite length_fmap, Hlen; lia).
    rewrite take_ge by (rewrite length_fmap, Hlen; lia).
    rewrite <- list_fmap_compose.
    rewrite <- (list_fmap_id (take (Z.to_nat n) x)) at 2.
    apply list_fmap_ext. intros _ b _. simpl. apply negb_involutive.
Qed.

Lemma Not_involutive_witness :
  exists y' z',
    Not 3 [true; false; true; true] [false; false; false] = Some y' /\
    Not 3 y' [true; true; true; true] = Some z' /\
    take 3 z' = [true; false; true].
Proof.
  destruct (Not_involutive 3 [true; false; true; true] [false; false; false]
              [true; true; true; true]) as (y' & z' & Hy' & Hz' & Heq);
    [simpl; lia..|].
  exists y', z'. split; [exact Hy'|]. split; [exact Hz'|exact Heq].
Defined.

(** X19.  For the integer element types [GE] is the complement of [LT], and
    [LE] that of [GT]: [Not] applied to the result of [LT] writes what [GE]
    writes, and the same for [GT] and [LE]. *)
Theorem Not_LT_is_GE (n : Z) (a b : list Z) (y z : list bool) :
  0 <= n ->
  n <= Z.of_nat (length a) -> n <= Z.of_nat (length b) ->
  n <= Z.of_nat (length y) -> n <= Z.of_nat (length z) ->
  exists y1 y2 z',
    LT n a b y = Some y1 /\ Not n y1 z = Some z' /\ GE n a b z = Some z' /\
    GT n a b y = Some y2 /\ Not n y2 z = LE n a b z.
Proof.
  intros Hn Ha Hb Hy Hz.
  assert (Hcompl : forall (op op' : Z -> Z -> bool),
    (forall u v, negb (op u v) = op' u v) ->
    Not n (zip_with op (take (Z.to_nat n) a) (take (Z.to_nat n) b)
           ++ drop (Z.to_nat n) y) z
    = binary_op op' n a b z).
  { intros op op' Hop.
    assert (Hlen : length (zip_with op (take (Z.to_nat n) a)
                                       (take (Z.to_nat n) b)) = Z.to_nat n)
      by (rewrite length_zip_with, !length_take; lia).
    rewrite Not_closed, binary_op_closed; try assumption.
    - f_equal. f_equal. rewrite take_app_le, take_ge by lia.
      rewrite (zip_with_zip op), (zip_with_zip op'), <- list_fmap_compose.
      apply list_fmap_ext. intros _ [u v] _. simpl. apply Hop.
    - rewrite length_app, Hlen, length_drop. lia. }
  unfold LT, GE, GT, LE.
  eexists _, _, _. split; [apply binary_op_closed; assumption|].
  split.
  { rewrite (Hcompl Z.ltb Z.geb); [apply binary_op_closed; assumption|].
    intros u v. rewrite Z.geb_leb. symmetry. apply Z.leb_antisym. }
  split; [apply binary_op_closed; assumption|].
  split; [apply binary_op_closed; assumption|].
  apply Hcompl. intros u v. rewrite Z.gtb_ltb. symmetry. apply Z.leb_antisym.
Qed.

Lemma Not_LT_is_GE_witness :
  exists y1 z',
    LT 3 [1; 5; 3] [2; 5; 1] [false; false; false] = Some y1 /\
    Not 3 y1 [false; false; false] = Some z' /\
    GE 3 [1; 5; 3] [2; 5; 1] [false; false; false] = Some z'.
Proof.
  destruct (Not_LT_is_GE 3 [1; 5; 3] [2; 5; 1] [false; false; false]
              [false; false; false])
    as (y1 & y2 & z' & H1 & H2 & H3 & _); [simpl; lia..|].
  exists y1, z'. split; [exact H1|]. split; [exact H2|exact H3].
Defined.

(** ** randomNumberSeed *)

(** X20.  The seed is a value of [uint32_t], the counter goes up by one
    modulo 2^32, and for a fixed process and time of day two values of the
    counter never give the same seed: the 2^32 calls of one round of the
    counter return 2^32 different seeds. *)
Theorem randomNumberSeed_distinct (s1 s2 pid tv_sec tv_usec : Z) :
  0 <= s1 < 2 ^ 32 -> 0 <= s2 < 2 ^ 32 ->
  (randomNumberSeed s1 pid tv_sec tv_usec).2 = (s1 + 1) mod 2 ^ 32 /\
  0 <= (randomNumberSeed s1 pid tv_sec tv_usec).1 < 2 ^ 32 /\
  ((randomNumberSeed s1 pid tv_sec tv_usec).1
   = (randomNumberSeed s2 pid tv_sec tv_usec).1 -> s1 = s2).
Proof.
  intros H1 H2. unfold randomNumberSeed, add32, mul32. simpl.
  split; [done|]. split; [apply Z.mod_pos_bound; lia|].
  set (r := (kPrime1 * to_unsigned pid) mod 2 ^ 32).
  set (t := (kPrime2 * to_unsigned tv_sec) mod 2 ^ 32).
  set (u := (kPrime3 * to_unsigned tv_usec) mod 2 ^ 32).
  intros Heq.
  assert (Hmod : forall s,
    ((((kPrime0 * s) mod 2 ^ 32 + r) mod 2 ^ 32 + t) mod 2 ^ 32 + u)
      mod 2 ^ 32
    = (kPrime0 * s + (r + t + u)) mod 2 ^ 32).
  { intros s.
    rewrite (Z.add_mod_idemp_l _ r) by lia.
    rewrite (Z.add_mod_idemp_l _ t) by lia.
    rewrite (Z.add_mod_idemp_l _ u) by lia.
    f_equal. lia. }
  rewrite !Hmod in Heq.
  assert (Hdiv : (2 ^ 32 | kPrime0 * (s1 - s2))).
  { apply Z.mod_divide; [lia|].
    replace (kPrime0 * (s1 - s2))
      with ((kPrime0 * s1 + (r + t + u)) - (kPrime0 * s2 + (r + t + u)))
      by lia.
    rewrite Zminus_mod, Heq, Z.sub_diag. done. }
  apply Z.gauss in Hdiv.
  - destruct Hdiv as [q Hq]. assert (q = 0) by lia. lia.
  - reflexivity.
Qed.

Lemma randomNumberSeed_distinct_witness :
  (randomNumberSeed 7 1234 1500000000 999).2 = 8 /\
  (randomNumberSeed 7 1234 1500000000 999).1
  <> (randomNumberSeed (2 ^ 32 - 1) 1234 1500000000 999).1.
Proof.
  destruct (randomNumberSeed_distinct 7 (2 ^ 32 - 1) 1234 1500000000 999)
    as (Hc & _ & Hinj); [lia..|].
  split; [exact Hc|]. intros Heq. apply Hinj in Heq. lia.
Defined.

(** ** BLAS alternatives *)

(** X21.  [Axpby] is [Scale] in place followed by [Axpy], whatever the
    multiplication and the addition of the elements are: the Eigen build
    computes what the build on CBLAS computes with [scal] and [axpy]. *)
Theorem Axpby_is_Scale_Axpy {T : Type} (add mul : T -> T -> T) (N : Z)
    (alpha : T) (x : list T) (beta : T) (y : list T) :
  Axpby add mul N alpha x beta y
  = y' ← Scale mul N beta y y; Axpy add mul N alpha x y'.
Proof.
  unfold Axpby, Scale, Axpy.
  destruct (in_block y 0 N) eqn:Hy; [|by rewrite andb_false_r].
  rewrite andb_true_r. simpl.
  assert (HN : 0 <= N <= Z.of_nat (length y)).
  { unfold in_block in Hy. lia. }
  assert (Hlen : length ((fun v => mul v beta) <$> take (Z.to_nat N) y)
                 = Z.to_nat N) by (rewrite length_fmap, length_take; lia).
  assert (in_block (((fun v => mul v beta) <$> take (Z.to_nat N) y)
                    ++ drop (Z.to_nat N) y) 0 N = true) as ->.
  { unfold in_block. rewrite length_app, Hlen, length_drop.
    repeat (apply andb_true_intro; split); apply Z.leb_le; lia. }
  rewrite andb_true_r.
  destruct (in_block x 0 N); [|done].
  f_equal. rewrite take_app_length', drop_app_length' by done.
  f_equal. by rewrite zip_with_fmap_l.
Qed.

(** ** Gemm and Gemv *)

Section WrittenReads.
Context {T : Type}.
Implicit Types (buf : list T) (f : Z -> T).

Lemma load_written_lt f n buf i :
  0 <= i < n -> load (written f n buf) i = Some (f i).
Proof.
  intros Hi. unfold load, written. destruct (Z.leb_spec 0 i); [|lia].
  rewrite lookup_app_l by (rewrite length_fmap, length_seqZ; lia).
  rewrite list_lookup_fmap, lookup_seqZ_lt by lia. simpl.
  f_equal. f_equal. lia.
Qed.

Lemma load_written_ge f n buf i :
  0 <= n <= i -> load (written f n buf) i = load buf i.
Proof.
  intros Hi. unfold load, written. destruct (Z.leb_spec 0 i); [|lia].
  rewrite lookup_app_r by (rewrite length_fmap, length_seqZ; lia).
  rewrite length_fmap, length_seqZ, lookup_drop. f_equal. lia.
Qed.

End WrittenReads.

Lemma at_index_written (f : Z -> Z) n (buf : list Z) i :
  0 <= n ->
  at_index 0 (written f n buf) i
  = if (0 <=? i) && (i <? n) then f i else at_index 0 buf i.
Proof.
  intros Hn. unfold at_index.
  destruct (Z.leb_spec 0 i); simpl.
  - destruct (Z.ltb_spec i n).
    + by rewrite load_written_lt.
    + by rewrite load_written_ge.
  - unfold load. destruct (Z.leb_spec 0 i); [lia|done].
Qed.

Section GemmFacts.

(** The coefficient of a product is the sum of the products. *)
Lemma product_sum (inner : Z) (lhs rhs : Z -> Z -> option Z)
    (l r : Z -> Z) (i j : Z) :
  0 <= inner ->
  (forall k, 0 <= k < inner -> lhs i k = Some (l k)) ->
  (forall k, 0 <= k < inner -> rhs k j = Some (r k)) ->
  product 0 Z.add Z.mul inner lhs rhs i j
  = Some (sumZ inner (fun k => l k * r k)).
Proof.
  intros Hn Hl Hr. unfold product.
  apply (for_upto_closed (fun k => sumZ k (fun k => l k * r k)));
    [done|by rewrite sumZ_nonpos|done|].
  intros k Hk. rewrite Hl, Hr by done. simpl.
  by rewrite sumZ_succ by lia.
Qed.

(** Scaling the view, or clearing it when [beta] is zero. *)
Lemma scale_or_zero_written (n beta : Z) (C : list Z) :
  0 <= n <= Z.of_nat (length C) ->
  scale_or_zero 0 Z.mul eq_zero n beta C
  = Some (written (fun idx => at_index 0 C idx * beta) n C).
Proof.
  intros Hn. unfold scale_or_zero, eq_zero, Set_, Scale, written, in_block.
  repeat match goal with
  | |- context [?a <=? ?b] => destruct (Z.leb_spec a b); [|lia]
  end. simpl.
  assert (Heq : forall g : Z -> Z,
    (forall v, g v = v * beta) ->
    g <$> take (Z.to_nat n) C
    = (fun idx => at_index 0 C idx * beta) <$> seqZ 0 n).
  { intros g Hg. apply list_eq_same_length with (Z.to_nat n).
    - rewrite length_fmap, length_seqZ. lia.
    - rewrite length_fmap, length_take. lia.
    - intros i u v Hi Hu Hv.
      rewrite list_lookup_fmap, lookup_take_lt in Hu by lia.
      rewrite list_lookup_fmap, lookup_seqZ_lt in Hv by lia.
      simpl in Hv. injection Hv as <-.
      unfold at_index, load. rewrite Z.add_0_l.
      destruct (Z.leb_spec 0 (Z.of_nat i)); [|lia]. rewrite Nat2Z.id.
      destruct (C !! i) as [w|]; simpl in *; [|done].
      injection Hu as <-. apply Hg. }
  destruct (Z.eqb_spec beta 0) as [->|Hne].
  - rewrite Z.add_0_l. f_equal. f_equal.
    rewrite <- (Heq (fun _ => 0)) by (intros; lia).
    apply list_eq_same_length with (Z.to_nat n).
    + rewrite length_fmap, length_take. lia.
    + by rewrite length_replicate.
    + intros i u v Hi Hu Hv.
      apply lookup_replicate in Hu as [-> _].
      rewrite list_lookup_fmap in Hv.
      destruct (take (Z.to_nat n) C !! i); simpl in Hv; congruence.
  - f_equal. f_equal. by apply Heq.
Qed.

(** Adding the scaled product, coefficient by coefficient. *)
Lemma add_scaled_written (rows cols alpha : Z) (P : Z -> Z -> option Z)
    (p : Z -> Z -> Z) (C : list Z) :
  0 <= rows -> 0 <= cols -> rows * cols <= Z.of_nat (length C) ->
  (forall i j, 0 <= i < rows -> 0 <= j < cols -> P i j = Some (p i j)) ->
  add_scaled Z.add Z.mul rows cols alpha P C
  = Some (written (fun idx => at_index 0 C idx
                     + alpha * p (idx `mod` rows) (idx `div` rows))
                  (rows * cols) C).
Proof.
  intros Hr Hc Hlen HP. unfold add_scaled.
  set (f := fun idx => at_index 0 C idx
                       + alpha * p (idx `mod` rows) (idx `div` rows)).
  apply (for_upto_closed (fun j => written f (j * rows) C));
    [done|done|by rewrite Z.mul_comm|].
  intros j Hj.
  apply (for_upto_closed (fun i => written f (j * rows + i) C));
    [done|by rewrite Z.add_0_r| |].
  { f_equal. lia. }
  intros i Hi.
  assert (Hidx : 0 <= j * rows + i < rows * cols) by nia.
  replace (i + j * rows) with (j * rows + i) by lia.
  rewrite load_written_ge by lia.
  rewrite (load_at_index 0) by lia. simpl.
  rewrite HP by done. simpl.
  rewrite store_written; [by rewrite Z.add_assoc|lia|].
  unfold f. by rewrite flat_mod, flat_div by done.
Qed.

End GemmFacts.

Lemma written_ext {T : Type} (f g : Z -> T) n (buf : list T) :
  (forall i, 0 <= i < n -> f i = g i) -> written f n buf = written g n buf.
Proof.
  intros Hfg. unfold written. f_equal. apply list_fmap_ext.
  intros _ i Hi%list_elem_of_lookup_2%elem_of_seqZ. apply Hfg. lia.
Qed.

Lemma written_written {T : Type} (f g : Z -> T) n (buf : list T) :
  0 <= n <= Z.of_nat (length buf) ->
  written f n (written g n buf) = written f n buf.
Proof.
  intros Hn. unfold written. f_equal.
  rewrite drop_app_length'; [done|].
  rewrite length_fmap, length_seqZ. lia.
Qed.

(** The two steps of [Gemm] and [Gemv] in closed form, for a view of
    [rows] rows and [cols] columns and factors whose coefficients are
    [l] and [r]. *)
Lemma Gemm_closed (rows cols K n alpha beta : Z)
    (lhs rhs : Z -> Z -> option Z) (l r : Z -> Z -> Z) (C : list Z) :
  0 <= rows -> 0 <= cols -> 0 <= K ->
  n = rows * cols -> n <= Z.of_nat (length C) ->
  (forall j k, 0 <= j < rows -> 0 <= k < K -> lhs j k = Some (l j k)) ->
  (forall k i, 0 <= k < K -> 0 <= i < cols -> rhs k i = Some (r k i)) ->
  (C1 ← scale_or_zero 0 Z.mul eq_zero n beta C;
   add_scaled Z.add Z.mul rows cols alpha
     (product 0 Z.add Z.mul K lhs rhs) C1)
  = Some (written (fun idx =>
            at_index 0 C idx * beta
            + alpha * sumZ K (fun k =>
                l (idx `mod` rows) k * r k (idx `div` rows))) n C).
Proof.
  intros Hrows Hcols HK -> Hlen Hl Hr.
  assert (Hn : 0 <= rows * cols <= Z.of_nat (length C)) by nia.
  rewrite scale_or_zero_written by done. simpl.
  set (C1 := written (fun idx => at_index 0 C idx * beta) (rows * cols) C).
  assert (Hlen1 : length C1 = length C) by (by apply length_written).
  rewrite (add_scaled_written rows cols alpha _
             (fun j i => sumZ K (fun k => l j k * r k i)));
    [|done|done|lia|].
  2: { intros j i Hj Hi. apply product_sum; [done|..].
       - intros k Hk. by apply Hl.
       - intros k Hk. by apply Hr. }
  f_equal. unfold C1. rewrite written_written by done.
  apply written_ext. intros idx Hidx.
  rewrite at_index_written by lia.
  destruct (Z.leb_spec 0 idx); [|lia].
  destruct (Z.ltb_spec idx (rows * cols)); [|lia]. done.
Qed.

Lemma Gemm_core (N M K alpha beta : Z) (lhs rhs : Z -> Z -> option Z)
    (l r : Z -> Z -> Z) (a b : Z -> Z -> Z) (C : list Z) :
  0 <= N -> 0 <= M -> 0 <= K -> M * N <= Z.of_nat (length C) ->
  (forall j k, 0 <= j < N -> 0 <= k < K -> lhs j k = Some (l j k)) ->
  (forall k i, 0 <= k < K -> 0 <= i < M -> rhs k i = Some (r k i)) ->
  (forall i j k, 0 <= i < M -> 0 <= j < N -> 0 <= k < K ->
     l j k * r k i = a i k * b k j) ->
  exists C',
    (C1 ← scale_or_zero 0 Z.mul eq_zero (N * M) beta C;
     add_scaled Z.add Z.mul N M alpha (product 0 Z.add Z.mul K lhs rhs) C1)
    = Some C' /\
    length C' = length C /\
    (forall i j, 0 <= i < M -> 0 <= j < N ->
       at_index 0 C' (i * N + j)
       = beta * at_index 0 C (i * N + j)
         + alpha * sumZ K (fun k => a i k * b k j)) /\
    (forall p, M * N <= p -> load C' p = load C p).
Proof.
  intros HN HM HK Hlen Hl Hr Hab.
  assert (HNM : 0 <= N * M <= Z.of_nat (length C)) by nia.
  rewrite (Gemm_closed N M K (N * M) alpha beta lhs rhs l r) by (done || lia).
  eexists. split; [done|].
  split; [rewrite length_written; lia|]. split.
  - intros i j Hi Hj.
    assert (0 <= i * N + j < N * M) by nia.
    rewrite at_index_written by lia.
    destruct (Z.leb_spec 0 (i * N + j)); [|lia].
    destruct (Z.ltb_spec (i * N + j) (N * M)); [|lia]. simpl.
    rewrite flat_mod, flat_div by done.
    rewrite (sumZ_ext K _ (fun k => a i k * b k j))
      by (intros k Hk; by apply Hab).
    lia.
  - intros p Hp. apply load_written_ge. lia.
Qed.

(** X22.  In exact arithmetic [Gemm] computes what its comment states,
    [C = alpha * op(A) * op(B) + beta * C], on matrices in row-major order:
    for [i < M] and [j < N], [C[i * N + j]] becomes [beta] times its former
    value plus [alpha] times the sum over [k < K] of the coefficient
    [(i, k)] of [op(A)] times the coefficient [(k, j)] of [op(B)].  The
    elements of [C] from [M * N] on are kept. *)
Theorem Gemm_row_major (TransA TransB : CBLAS_TRANSPOSE)
    (M N K alpha : Z) (A B : list Z) (beta : Z) (C : list Z) :
  TransA <> CblasConjTrans -> TransB <> CblasConjTrans ->
  0 <= M -> 0 <= N -> 0 <= K ->
  M * K <= Z.of_nat (length A) -> K * N <= Z.of_nat (length B) ->
  M * N <= Z.of_nat (length C) ->
  exists C',
    Gemm 0 Z.add Z.mul eq_zero TransA TransB M N K alpha A B beta C
    = Some C' /\
    length C' = length C /\
    (forall i j, 0 <= i < M -> 0 <= j < N ->
       at_index 0 C' (i * N + j)
       = beta * at_index 0 C (i * N + j)
         + alpha * sumZ K (fun k =>
             op_coeff TransA A M K i k * op_coeff TransB B K N k j)) /\
    (forall p, M * N <= p -> load C' p = load C p).
Proof.
  intros HA HB HM HN HK HlA HlB HlC. unfold Gemm.
  destruct TransA; [| |done]; destruct TransB; [| |done| | |done].
  - apply (Gemm_core N M K alpha beta _ _
             (fun j k => at_index 0 B (j + k * N))
             (fun k i => at_index 0 A (k + i * K))); try done.
    + intros j k Hj Hk. unfold EigenMatrixMap.
      apply load_at_index. nia.
    + intros k i Hk Hi. unfold EigenMatrixMap.
      apply load_at_index. nia.
    + intros i j k Hi Hj Hk. unfold op_coeff.
      rewrite (Z.add_comm j), (Z.add_comm k). lia.
  - apply (Gemm_core N M K alpha beta _ _
             (fun j k => at_index 0 B (k + j * K))
             (fun k i => at_index 0 A (k + i * K))); try done.
    + intros j k Hj Hk. unfold transpose, EigenMatrixMap.
      apply load_at_index. nia.
    + intros k i Hk Hi. unfold EigenMatrixMap.
      apply load_at_index. nia.
    + intros i j k Hi Hj Hk. unfold op_coeff.
      rewrite (Z.add_comm k (j * K)), (Z.add_comm k (i * K)). lia.
  - apply (Gemm_core N M K alpha beta _ _
             (fun j k => at_index 0 B (j + k * N))
             (fun k i => at_index 0 A (i + k * M))); try done.
    + intros j k Hj Hk. unfold EigenMatrixMap.
      apply load_at_index. nia.
    + intros k i Hk Hi. unfold transpose, EigenMatrixMap.
      apply load_at_index. nia.
    + intros i j k Hi Hj Hk. unfold op_coeff.
      rewrite (Z.add_comm j), (Z.add_comm i). lia.
  - apply (Gemm_core N M K alpha beta _ _
             (fun j k => at_index 0 B (k + j * K))
             (fun k i => at_index 0 A (i + k * M))); try done.
    + intros j k Hj Hk. unfold transpose, EigenMatrixMap.
      apply load_at_index. nia.
    + intros k i Hk Hi. unfold transpose, EigenMatrixMap.
      apply load_at_index. nia.
    + intros i j k Hi Hj Hk. unfold op_coeff.
      rewrite (Z.add_comm k (j * K)), (Z.add_comm i). lia.
Qed.

Lemma Gemm_row_major_witness :
  exists C',
    Gemm 0 Z.add Z.mul eq_zero CblasNoTrans CblasTrans 2 2 3 1
      [1; 2; 3; 4; 5; 6] [1; 0; 1; 0; 1; 0] 10 [1; 1; 1; 1] = Some C' /\
    at_index 0 C' 2 = 10 * 1 + 1 * (4 * 1 + 5 * 0 + 6 * 1).
Proof.
  destruct (Gemm_row_major CblasNoTrans CblasTrans 2 2 3 1
              [1; 2; 3; 4; 5; 6] [1; 0; 1; 0; 1; 0] 10 [1; 1; 1; 1])
    as (C' & HC' & _ & Hrows & _); [done|done|simpl; lia..|].
  exists C'. split; [exact HC'|].
  apply (Hrows 1 0); lia.
Defined.

(** X23.  In exact arithmetic [Gemv] computes [y = alpha * op(A) * x +
    beta * y] for a matrix [A] of [M] rows and [N] columns in row-major
    order: without transposition [y] has [M] elements and [x] has [N], with
    transposition it is the other way round. *)
Theorem Gemv_row_major (TransA : CBLAS_TRANSPOSE) (M N alpha : Z)
    (A x : list Z) (beta : Z) (y : list Z) :
  TransA <> CblasConjTrans ->
  0 <= M -> 0 <= N ->
  M * N <= Z.of_nat (length A) ->
  let ysize := match TransA with CblasNoTrans => M | _ => N end in
  let xsize := match TransA with CblasNoTrans => N | _ => M end in
  xsize <= Z.of_nat (length x) -> ysize <= Z.of_nat (length y) ->
  exists y',
    Gemv 0 Z.add Z.mul eq_zero TransA M N alpha A x beta y = Some y' /\
    length y' = length y /\
    (forall i, 0 <= i < ysize ->
       at_index 0 y' i
       = beta * at_index 0 y i
         + alpha * sumZ xsize (fun k =>
             op_coeff TransA A ysize xsize i k * at_index 0 x k)) /\
    (forall p, ysize <= p -> load y' p = load y p).
Proof.
  intros HA HM HN HlA ysize xsize Hx Hy. unfold Gemv.
  destruct TransA; [| |done]; simpl in ysize, xsize; subst ysize xsize.
  - rewrite (Gemm_closed M 1 N M alpha beta _ _
               (fun i k => at_index 0 A (k + i * N))
               (fun k _ => at_index 0 x k)); try (done || lia).
    + eexists. split; [done|].
      split; [rewrite length_written; lia|]. split.
      * intros i Hi. rewrite at_index_written by lia.
        destruct (Z.leb_spec 0 i); [|lia].
        destruct (Z.ltb_spec i M); [|lia]. simpl.
        rewrite Z.mod_small by lia.
        unfold op_coeff.
        rewrite (sumZ_ext N _ (fun k =>
          at_index 0 A (i * N + k) * at_index 0 x k)); [lia|].
        intros k Hk. cbv beta. by rewrite (Z.add_comm k).
      * intros p Hp. apply load_written_ge. lia.
    + intros i k Hi Hk. unfold transpose, EigenMatrixMap.
      apply load_at_index. nia.
    + intros k i Hk Hi. unfold EigenMatrixMap.
      assert (i = 0) as -> by lia. rewrite Z.add_0_r.
      apply load_at_index. lia.
  - rewrite (Gemm_closed N 1 M N alpha beta _ _
               (fun i k => at_index 0 A (i + k * N))
               (fun k _ => at_index 0 x k)); try (done || lia).
    + eexists. split; [done|].
      split; [rewrite length_written; lia|]. split.
      * intros i Hi. rewrite at_index_written by lia.
        destruct (Z.leb_spec 0 i); [|lia].
        destruct (Z.ltb_spec i N); [|lia]. simpl.
        rewrite Z.mod_small by lia.
        unfold op_coeff.
        rewrite (sumZ_ext M _ (fun k =>
          at_index 0 A (k * N + i) * at_index 0 x k)); [lia|].
        intros k Hk. cbv beta. by rewrite (Z.add_comm i).
      * intros p Hp. apply load_written_ge. lia.
    + intros i k Hi Hk. unfold EigenMatrixMap.
      apply load_at_index. nia.
    + intros k i Hk Hi. unfold EigenMatrixMap.
      assert (i = 0) as -> by lia. rewrite Z.add_0_r.
      apply load_at_index. lia.
Qed.

Lemma Gemv_row_major_witness :
  exists y',
    Gemv 0 Z.add Z.mul eq_zero CblasTrans 2 3 2 [1; 2; 3; 4; 5; 6] [1; 10]
      0 [7; 7; 7; 7] = Some y' /\
    at_index 0 y' 1 = 0 * 7 + 2 * (2 * 1 + 5 * 10) /\
    load y' 3 = Some 7.
Proof.
  destruct (Gemv_row_major CblasTrans 2 3 2 [1; 2; 3; 4; 5; 6] [1; 10]
              0 [7; 7; 7; 7])
    as (y' & Hy' & _ & Hrows & Hrest); [done|simpl; lia..|].
  exists y'. split; [exact Hy'|]. split.
  - apply (Hrows 1); lia.
  - apply (Hrest 3). lia.
Defined.

(** X24.  In exact arithmetic [Gemv] is [Gemm] with a right factor of one
    column. *)
Theorem Gemv_is_Gemm (TransA : CBLAS_TRANSPOSE) (M N alpha : Z)
    (A x : list Z) (beta : Z) (y : list Z) :
  0 <= M -> 0 <= N ->
  M * N <= Z.of_nat (length A) ->
  let ysize := match TransA with CblasNoTrans => M | _ => N end in
  let xsize := match TransA with CblasNoTrans => N | _ => M end in
  xsize <= Z.of_nat (length x) -> ysize <= Z.of_nat (length y) ->
  Gemv 0 Z.add Z.mul eq_zero TransA M N alpha A x beta y
  = Gemm 0 Z.add Z.mul eq_zero TransA CblasNoTrans ysize 1 xsize alpha A x
      beta y.
Proof.
  intros HM HN HlA ysize xsize Hx Hy. unfold Gemv, Gemm.
  destruct TransA; simpl in ysize, xsize; subst ysize xsize.
  - rewrite (Gemm_closed M 1 N M alpha beta _ _
               (fun i k => at_index 0 A (k + i * N))
               (fun k _ => at_index 0 x k)); try (done || lia).
    + rewrite (Gemm_closed 1 M N (1 * M) alpha beta _ _
                 (fun _ k => at_index 0 x k)
                 (fun k i => at_index 0 A (k + i * N))); try (done || lia).
      * f_equal. rewrite Z.mul_1_l. apply written_ext. intros idx Hidx.
        rewrite ?(Z.mod_small idx M), ?Z.div_1_r by lia.
        f_equal. f_equal. apply sumZ_ext. intros k Hk. lia.
      * intros j k Hj Hk. unfold EigenMatrixMap.
        assert (j = 0) as -> by lia. rewrite Z.mul_1_r, Z.add_0_l.
        apply load_at_index. lia.
      * intros k i Hk Hi. unfold EigenMatrixMap.
        apply load_at_index. nia.
    + intros i k Hi Hk. unfold transpose, EigenMatrixMap.
      apply load_at_index. nia.
    + intros k i Hk Hi. unfold EigenMatrixMap.
      assert (i = 0) as -> by lia. rewrite Z.add_0_r.
      apply load_at_index. lia.
  - rewrite (Gemm_closed N 1 M N alpha beta _ _
               (fun i k => at_index 0 A (i + k * N))
               (fun k _ => at_index 0 x k)); try (done || lia).
    + rewrite (Gemm_closed 1 N M (1 * N) alpha beta _ _
                 (fun _ k => at_index 0 x k)
                 (fun k i => at_index 0 A (i + k * N))); try (done || lia).
      * f_equal. rewrite Z.mul_1_l. apply written_ext. intros idx Hidx.
        rewrite ?(Z.mod_small idx N), ?Z.div_1_r by lia.
        f_equal. f_equal. apply sumZ_ext. intros k Hk. lia.
      * intros j k Hj Hk. unfold EigenMatrixMap.
        assert (j = 0) as -> by lia. rewrite Z.mul_1_r, Z.add_0_l.
        apply load_at_index. lia.
      * intros k i Hk Hi. unfold transpose, EigenMatrixMap.
        apply load_at_index. nia.
    + intros i k Hi Hk. unfold EigenMatrixMap.
      apply load_at_index. nia.
    + intros k i Hk Hi. unfold EigenMatrixMap.
      assert (i = 0) as -> by lia. rewrite Z.add_0_r.
      apply load_at_index. lia.
  - rewrite Z.mul_1_l.
    by destruct (scale_or_zero 0 Z.mul eq_zero N beta y).
Qed.

Lemma Gemv_is_Gemm_witness :
  Gemv 0 Z.add Z.mul eq_zero CblasNoTrans 2 3 2 [1; 2; 3; 4; 5; 6]
    [1; 10; 100] 3 [7; 7; 7]
  = Gemm 0 Z.add Z.mul eq_zero CblasNoTrans CblasNoTrans 2 1 3 2
      [1; 2; 3; 4; 5; 6] [1; 10; 100] 3 [7; 7; 7].
Proof.
  apply (Gemv_is_Gemm CblasNoTrans 2 3 2 [1; 2; 3; 4; 5; 6] [1; 10; 100]
           3 [7; 7; 7]); simpl; lia.
Defined.

(** X25.  When [beta] is zero, [Gemm] and [Gemv] clear the destination
    instead of scaling it, so that the result does not depend on what the
    destination held, whatever the arithmetic of the elements is. *)
Theorem Gemm_Gemv_beta_zero {T : Type} (zero : T) (add mul : T -> T -> T)
    (is_zero : T -> bool) (TransA TransB : CBLAS_TRANSPOSE) (M N K : Z)
    (alpha : T) (A B : list T) (beta : T) (C1 C2 y1 y2 : list T) :
  is_zero beta = true ->
  Z.of_nat (length C1) = N * M -> Z.of_nat (length C2) = N * M ->
  Z.of_nat (length y1) = match TransA with CblasNoTrans => M | _ => N end ->
  Z.of_nat (length y2) = match TransA with CblasNoTrans => M | _ => N end ->
  Gemm zero add mul is_zero TransA TransB M N K alpha A B beta C1
  = Gemm zero add mul is_zero TransA TransB M N K alpha A B beta C2 /\
  Gemv zero add mul is_zero TransA M N alpha A B beta y1
  = Gemv zero add mul is_zero TransA M N alpha A B beta y2.
Proof.
  intros Hbeta HC1 HC2 Hy1 Hy2. unfold Gemm, Gemv, scale_or_zero.
  rewrite Hbeta. by rewrite !Set_zero by done.
Qed.

Lemma Gemm_Gemv_beta_zero_witness :
  Gemm 0 Z.add Z.mul eq_zero CblasNoTrans CblasNoTrans 1 2 1 3 [5] [1; 2] 0
    [41; 42]
  = Gemm 0 Z.add Z.mul eq_zero CblasNoTrans CblasNoTrans 1 2 1 3 [5] [1; 2] 0
      [-7; 0] /\
  Gemv 0 Z.add Z.mul eq_zero CblasNoTrans 1 2 3 [5; 6] [1; 2] 0 [41]
  = Gemv 0 Z.add Z.mul eq_zero CblasNoTrans 1 2 3 [5; 6] [1; 2] 0 [9].
Proof.
  pose proof (Gemm_Gemv_beta_zero 0 Z.add Z.mul eq_zero CblasNoTrans
                CblasNoTrans 1 2 1 3 [5] [1; 2] 0 [41; 42] [-7; 0] [41] [9]
                eq_refl eq_refl eq_refl eq_refl eq_refl) as [HG _].
  pose proof (Gemm_Gemv_beta_zero 0 Z.add Z.mul eq_zero CblasNoTrans
                CblasNoTrans 1 2 1 3 [5; 6] [1; 2] 0 [41; 42] [-7; 0] [41] [9]
                eq_refl eq_refl eq_refl eq_refl eq_refl) as [_ HV].
  split; [exact HG|exact HV].
Defined.

(** ** Convolution as a product with the column buffer *)

Lemma sumZ_app n m f :
  0 <= n -> 0 <= m ->
  sumZ (n + m) f = sumZ n f + sumZ m (fun i => f (n + i)).
Proof.
  intros Hn. revert m. apply sumZ_ind.
  - rewrite Z.add_0_r, (sumZ_nonpos 0) by done. lia.
  - intros m Hm IH. rewrite Z.add_assoc, !sumZ_succ, IH by lia. lia.
Qed.

(** A sum over a flat index is a sum over its two coordinates. *)
Lemma sumZ_flat A B f :
  0 <= A -> 0 <= B ->
  sumZ (A * B) f = sumZ A (fun a => sumZ B (fun b => f (a * B + b))).
Proof.
  intros HA HB. revert A HA. apply sumZ_ind.
  - by rewrite !sumZ_nonpos by lia.
  - intros A HA IH. rewrite sumZ_succ by done.
    replace ((A + 1) * B) with (A * B + B) by lia.
    rewrite sumZ_app, IH by nia. done.
Qed.



(** ** Broadcast operations *)

(** An assignment whose right-hand side reads [y] only where it has not
    been written yet: the coefficients of the view get the values [F], in
    the order of their flat index, and the rest of [y] is kept. *)
Lemma assign_values {T : Type} (rows cols : Z)
    (val : Z -> Z -> list T -> option T) (F : Z -> option T) (y : list T) :
  0 <= rows -> 0 <= cols -> rows * cols <= Z.of_nat (length y) ->
  (forall i j z,
     0 <= i < rows -> 0 <= j < cols -> length z = length y ->
     (forall k, i + j * rows <= k -> load z k = load y k) ->
     val i j z = F (i + j * rows) /\ is_Some (F (i + j * rows))) ->
  exists y',
    assign rows cols val y = Some y' /\
    length y' = length y /\
    (forall k, 0 <= k < rows * cols -> load y' k = F k) /\
    (forall k, rows * cols <= k -> load y' k = load y k).
Proof.
  intros Hr Hc Hlen Hval.
  set (P := fun (n : Z) (z : list T) =>
    length z = length y /\
    (forall k, 0 <= k < n -> load z k = F k) /\
    (forall k, n <= k -> load z k = load y k)).
  assert (Hgoal : exists y', assign rows cols val y = Some y'
                             /\ P (cols * rows) y').
  { unfold assign.
    apply (for_upto_invariant (fun j z => P (j * rows) z)); [done| |].
    { split; [done|]. split; [intros; lia|done]. }
    intros j z Hj HP.
    replace ((j + 1) * rows) with (j * rows + rows) by lia.
    apply (for_upto_invariant (fun i z => P (j * rows + i) z)); [done| |].
    { by rewrite Z.add_0_r. }
    intros i w Hi (Hlw & Hdone & Hrest).
    destruct (Hval i j w Hi Hj Hlw) as [-> [v Hv]].
    { intros k Hk. apply Hrest. lia. }
    rewrite Hv. simpl.
    assert (0 <= i + j * rows < rows * cols) by nia.
    rewrite store_in_range by lia.
    eexists. split; [done|]. split; [by rewrite length_insert|].
    split.
    - intros k Hk. rewrite load_insert by lia.
      destruct (Z.eqb_spec k (i + j * rows)) as [->|Hne]; [done|].
      apply Hdone. lia.
    - intros k Hk. rewrite load_insert by lia.
      destruct (Z.eqb_spec k (i + j * rows)) as [->|Hne]; [lia|].
      apply Hrest. lia. }
  destruct Hgoal as (y' & Hy' & Hlen' & Hdone & Hrest).
  exists y'. split; [done|]. split; [done|].
  rewrite (Z.mul_comm rows cols). done.
Qed.

(** X27.  [Funcname##ToRow] applies the operation between every row of the
    [M] x [N] row-major matrix and the row vector [b]: entry [(r, c)] of
    the result is [a[r * N + c] op b[c]], whatever the operation is.  The
    function in place, called on [a] itself, computes the same buffer. *)
Theorem BroadcastToRow_rows {T : Type} (op : T -> T -> T) (M N : Z)
    (a b y : list T) :
  0 <= M -> 0 <= N ->
  M * N <= Z.of_nat (length a) ->
  (1 <= M -> N <= Z.of_nat (length b)) ->
  M * N <= Z.of_nat (length y) ->
  (exists y',
     BroadcastToRow op M N a b y = Some y' /\
     length y' = length y /\
     (forall r c, 0 <= r < M -> 0 <= c < N ->
        exists u v,
          load a (r * N + c) = Some u /\ load b c = Some v /\
          load y' (r * N + c) = Some (op u v)) /\
     (forall k, M * N <= k -> load y' k = load y k)) /\
  BroadcastToRow_inplace op M N b a = BroadcastToRow op M N a b a.
Proof.
  intros HM HN Ha Hb Hy.
  set (F := fun k : Z =>
    u ← load a k; v ← load b (k `mod` N); Some (op u v)).
  assert (HF : forall i j, 0 <= i < N -> 0 <= j < M ->
    F (i + j * N) = (u ← load a (i + j * N); v ← load b i; Some (op u v))
    /\ is_Some (F (i + j * N))).
  { intros i j Hi Hj. unfold F.
    rewrite Z.add_comm, flat_mod by done.
    destruct (load_in_range a (j * N + i) ltac:(nia)) as [u ->].
    destruct (load_in_range b i ltac:(lia)) as [v ->]. simpl. eauto. }
  assert (Hrow : forall y0, M * N <= Z.of_nat (length y0) ->
    exists y',
      BroadcastToRow op M N a b y0 = Some y' /\
      length y' = length y0 /\
      (forall k, 0 <= k < N * M -> load y' k = F k) /\
      (forall k, N * M <= k -> load y' k = load y0 k)).
  { intros y0 Hy0. apply assign_values; [done|done|lia|].
    intros i j z Hi Hj _ _. unfold EigenArrayMap.
    destruct (HF i j Hi Hj) as [-> ?]. done. }
  split.
  - destruct (Hrow y Hy) as (y' & Hy' & Hlen & Hdone & Hrest).
    exists y'. split; [done|]. split; [done|]. split.
    + intros r c Hr Hc. specialize (Hdone (r * N + c) ltac:(nia)).
      unfold F in Hdone. rewrite flat_mod in Hdone by done.
      destruct (load a (r * N + c)) as [u|] eqn:Hu.
      2: { destruct (load_in_range a (r * N + c) ltac:(nia)); congruence. }
      destruct (load b c) as [v|] eqn:Hv.
      2: { destruct (load_in_range b c ltac:(lia)); congruence. }
      by exists u, v.
    + intros k Hk. apply Hrest. lia.
  - destruct (Hrow a Ha) as (y' & -> & Hlen3 & Hdone3 & Hrest3).
    destruct (assign_values N M
      (fun i j y =>
         y_ij ← EigenArrayMap y N M i j; x_i ← load b i;
         Some (op y_ij x_i)) F a) as (y'' & Hy'' & Hlen'' & Hdone'' & Hrest'');
      [done|done|lia| |].
    { intros i j z Hi Hj Hlz Hz. unfold EigenArrayMap.
      rewrite Hz by lia. destruct (HF i j Hi Hj) as [-> ?]. done. }
    unfold BroadcastToRow_inplace. rewrite Hy''. f_equal.
    clear -Hlen'' Hdone'' Hrest'' Hlen3 Hdone3 Hrest3.
    apply list_eq. intros n.
    assert (Hl : forall (l : list T) k, 0 <= k -> load l k = l !! Z.to_nat k).
    { intros l k Hk. unfold load. by destruct (Z.leb_spec 0 k); [|lia]. }
    rewrite <- (Nat2Z.id n), <- !Hl by lia.
    destruct (Z.lt_ge_cases (Z.of_nat n) (N * M)).
    + rewrite Hdone'', Hdone3 by lia. done.
    + rewrite Hrest'', Hrest3 by lia. done.
Qed.

Lemma BroadcastToRow_rows_witness :
  exists y',
    BroadcastToRow Z.sub 2 3 [10; 20; 30; 40; 50; 60] [1; 2; 3]
      (replicate 7 0) = Some y' /\
    load y' 4 = Some 48 /\ load y' 6 = Some 0.
Proof.
  destruct (BroadcastToRow_rows Z.sub 2 3 [10; 20; 30; 40; 50; 60] [1; 2; 3]
              (replicate 7 0))
    as [(y' & Hy' & _ & Hrows & Hrest) _]; [simpl; lia..|].
  exists y'. split; [exact Hy'|].
  destruct (Hrows 1 1 ltac:(lia) ltac:(lia)) as (u & v & Hu & Hv & H4).
  injection Hu as <-. injection Hv as <-.
  split; [exact H4|]. apply (Hrest 6). lia.
Defined.

(** X28.  [Funcname##ToCol] applies the operation between every column of
    the [M] x [N] row-major matrix and the column vector [x] of [M]
    elements: entry [(r, c)] becomes [y[r * N + c] op x[r]]. *)
Theorem BroadcastToCol_columns {T : Type} (op : T -> T -> T) (M N : Z)
    (x y : list T) :
  0 <= M -> 0 <= N ->
  (1 <= N -> M <= Z.of_nat (length x)) ->
  M * N <= Z.of_nat (length y) ->
  exists y',
    BroadcastToCol op M N x y = Some y' /\
    length y' = length y /\
    (forall r c, 0 <= r < M -> 0 <= c < N ->
       exists u v,
         load y (r * N + c) = Some u /\ load x r = Some v /\
         load y' (r * N + c) = Some (op u v)) /\
    (forall k, M * N <= k -> load y' k = load y k).
Proof.
  intros HM HN Hx Hy.
  set (F := fun k : Z =>
    u ← load y k; v ← load x (k `div` N); Some (op u v)).
  destruct (assign_values N M
    (fun i j y =>
       y_ij ← EigenArrayMap y N M i j; x_j ← load x j; Some (op y_ij x_j))
    F y) as (y' & Hy' & Hlen & Hdone & Hrest); [done|done|lia| |].
  { intros i j z Hi Hj Hlz Hz. unfold EigenArrayMap, F.
    rewrite Hz by lia.
    rewrite (Z.add_comm i), flat_div by done.
    destruct (load_in_range y (j * N + i) ltac:(nia)) as [u ->].
    destruct (load_in_range x j ltac:(lia)) as [v ->]. simpl. eauto. }
  exists y'. split; [done|]. split; [done|]. split.
  - intros r c Hr Hc. specialize (Hdone (r * N + c) ltac:(nia)).
    unfold F in Hdone. rewrite flat_div in Hdone by done.
    destruct (load y (r * N + c)) as [u|] eqn:Hu.
    2: { destruct (load_in_range y (r * N + c) ltac:(nia)); congruence. }
    destruct (load x r) as [v|] eqn:Hv.
    2: { destruct (load_in_range x r ltac:(lia)); congruence. }
    by exists u, v.
  - intros k Hk. apply Hrest. lia.
Qed.

Lemma BroadcastToCol_columns_witness :
  exists y',
    BroadcastToCol Z.add 2 3 [100; 200] [1; 2; 3; 4; 5; 6; 7] = Some y' /\
    load y' 4 = Some 205 /\ load y' 6 = Some 7.
Proof.
  destruct (BroadcastToCol_columns Z.add 2 3 [100; 200] [1; 2; 3; 4; 5; 6; 7])
    as (y' & Hy' & _ & Hcols & Hrest); [simpl; lia..|].
  exists y'. split; [exact Hy'|].
  destruct (Hcols 1 1 ltac:(lia) ltac:(lia)) as (u & v & Hu & Hv & H4).
  injection Hu as <-. injection Hv as <-.
  split; [exact H4|]. apply (Hrest 6). lia.
Defined.
